(** * Discrepancies: archive / working-directory comparison engine

    A shallow embedding of [internal/compare] (compare.go, archive.go,
    diff.go) and [internal/models] (types.go), with the properties of the
    exclusion matcher, the archive listing, the comparison loop, the
    exporter and the line flattening of the text differ.

    Conventions of the embedding.
    - A Go [string] is a [string] of the Standard Library: a sequence of
      8-bit characters.  The regular-expression engine of Go works on
      runes; on paths written in ASCII a rune is one character of the
      sequence, which is the reading used for "character" below.
    - [path/filepath] is taken for a target whose separator is the
      slash (the keys of both listings are slash-separated relative
      paths on every target).
    - Go maps are [gmap]s; a [range] over a map is a fold over one of
      its enumerations, any permutation of [map_to_list].
    - Calls into the operating system (opening an archive entry, reading
      a file, creating a directory) are answered by oracles that are
      parameters of the development; an [error] result is [None].
    - [len] and the loop counters are [nat]: they count files and never
      come near the width of a Go [int]. *)

From Stdlib Require Import Ascii String List Bool Arith Lia.
From stdpp Require Import gmap strings list fin_maps.

Set Default Proof Using "Type".

Local Open Scope char_scope.
Local Open Scope stdpp_scope.

(** ** The [strings] package *)

Module strings.

Fixpoint drop (n : nat) (s : string) : string :=
  match n, s with
  | O, _ => s
  | S _, EmptyString => EmptyString
  | S k, String _ s' => drop k s'
  end.

(** [strings.HasPrefix(s, prefix)] *)
Definition HasPrefix (s prefix : string) : bool := String.prefix prefix s.

(** [strings.TrimPrefix(s, prefix)]: [s] without the leading [prefix],
    or [s] itself when it does not start with it. *)
Definition TrimPrefix (s prefix : string) : string :=
  if HasPrefix s prefix then drop (String.length prefix) s else s.

(** [strings.HasSuffix(s, suffix)] *)
Definition HasSuffix (s suffix : string) : bool :=
  let n := String.length s in
  let k := String.length suffix in
  (k <=? n)%nat && String.eqb (drop (n - k) s) suffix.

(** [strings.Split(s, sep)] for a separator of one character, the only
    form the program uses ("/" and the line feed).  The result always
    has at least one element: [Split "" sep] is [[""]]. *)
Fixpoint Split (s : string) (sep : ascii) : list string :=
  match s with
  | EmptyString => [EmptyString]
  | String c s' =>
      if Ascii.eqb c sep then EmptyString :: Split s' sep
      else match Split s' sep with
           | [] => [String c EmptyString]
           | w :: ws => String c w :: ws
           end
  end.

(** [strings.Join(elems, sep)] *)
Fixpoint Join (elems : list string) (sep : string) : string :=
  match elems with
  | [] => EmptyString
  | [w] => w
  | w :: ws => w +:+ sep +:+ Join ws sep
  end.

(** The scan of [strings.ReplaceAll]: [skip] characters of a match
    found earlier are still to be passed over. *)
Fixpoint replace_scan (old new : string) (skip : nat) (s : string) : string :=
  match s with
  | EmptyString => EmptyString
  | String c s' =>
      match skip with
      | S k => replace_scan old new k s'
      | O =>
          if String.prefix old s
          then new +:+ replace_scan old new (String.length old - 1) s'
          else String c (replace_scan old new 0 s')
      end
  end.

Fixpoint intersperse (new : string) (s : string) : string :=
  match s with
  | EmptyString => EmptyString
  | String c s' => String c (new +:+ intersperse new s')
  end.

(** [strings.ReplaceAll(s, old, new)]: the non-overlapping occurrences
    of [old], leftmost first, are replaced by [new]; an empty [old]
    matches before every character and at the end. *)
Definition ReplaceAll (s old new : string) : string :=
  match old with
  | EmptyString => new +:+ intersperse new s
  | String _ _ => replace_scan old new 0 s
  end.

End strings.

(** [c] occurs in [s]. *)
Definition occurs (c : ascii) (s : string) : bool :=
  existsb (Ascii.eqb c) (list_ascii_of_string s).

(** Every character of [w] satisfies [P]. *)
Definition all_chars (P : ascii → bool) (w : string) : bool :=
  forallb P (list_ascii_of_string w).

(** The characters of ASCII: the bytes below 128, each a rune of its
    own in a Go string. *)
Definition is_ascii (c : ascii) : bool := (nat_of_ascii c <? 128)%nat.

(** ** The [path/filepath] package (slash-separated target) *)

Module filepath.

(** [filepath.ToSlash]: the separator already is the slash. *)
Definition ToSlash (path : string) : string := path.

(** [s] without its trailing slashes (the first loop of [Base]). *)
Fixpoint strip_trailing (s : string) : string :=
  match s with
  | EmptyString => EmptyString
  | String c s' =>
      match strip_trailing s' with
      | EmptyString => if Ascii.eqb c "/" then EmptyString else String c EmptyString
      | r => String c r
      end
  end.

(** What follows the last slash of [s], or [s] when it has none (the
    second loop of [Base]). *)
Fixpoint last_element (s : string) : string :=
  match s with
  | EmptyString => EmptyString
  | String c s' =>
      if existsb (Ascii.eqb "/") (list_ascii_of_string s') then last_element s'
      else if Ascii.eqb c "/" then s' else s
  end.

(** [filepath.Base]: the last element of the path, trailing slashes
    removed first; "." for the empty path, "/" for a path of slashes. *)
Definition Base (path : string) : string :=
  match path with
  | EmptyString => "."
  | _ =>
      match last_element (strip_trailing path) with
      | EmptyString => "/"
      | b => b
      end
  end.

(** The backward scan of [Ext]: it stops at the first dot, or gives
    up at a slash. *)
Fixpoint ext_scan (s : string) : string :=
  match s with
  | EmptyString => EmptyString
  | String c s' =>
      match ext_scan s' with
      | EmptyString =>
          if existsb (Ascii.eqb "/") (list_ascii_of_string s') then EmptyString
          else if Ascii.eqb c "." then s else EmptyString
      | e => e
      end
  end.

(** [filepath.Ext]: the suffix of the last element that starts at its
    final dot, empty when that element has no dot. *)
Definition Ext (path : string) : string := ext_scan path.

End filepath.

(** ** [internal/models]: the data of types.go *)

Module models.

(** [DiffItem]; [item_Type] is the Go field [Type], one of "added",
    "modified", "deleted". *)
Record DiffItem := {
  RelPath : string;
  item_Type : string;
  Selected : bool;
  SourcePath : string
}.

(** [DiffLine]; [line_Type] is the Go field [Type], one of "equal",
    "insert", "delete". *)
Record DiffLine := {
  line_Type : string;
  Content : string
}.

Record TextDiff := {
  OldContent : string;
  NewContent : string;
  Lines : list DiffLine
}.

Record CompareResult := {
  Items : list DiffItem;
  TotalFiles : nat;
  Added : nat;
  Modified : nat;
  Deleted : nat
}.

(** [ExcludeRule]; [rule_Type] is the Go field [Type], "glob" or
    "regex". *)
Record ExcludeRule := {
  Pattern : string;
  rule_Type : string;
  IsDir : bool;
  Enabled : bool;
  Comment : string
}.

Record ProgressEvent := {
  Current : nat;
  Total : nat;
  Message : string
}.

End models.
Import models.

#[global] Instance DiffItem_eq_dec : EqDecision DiffItem.
Proof. solve_decision. Defined.

#[global] Instance ProgressEvent_eq_dec : EqDecision ProgressEvent.
Proof. solve_decision. Defined.

(** ** The [regexp] package, as an interface

    [regexp.Compile] either fails or returns a compiled expression;
    [MatchString] reports whether the text contains a match.  The
    matcher below is written against this interface, so what is proved
    of it holds for every engine. *)

Class RegexpEngine := {
  Regexp : Type;
  regexp_Compile : string → option Regexp;
  MatchString : Regexp → string → bool
}.

(** ** The exclusion matcher of compare.go *)

(** [regexp.QuoteMeta]: a backslash before each of the characters
    [\.+*?()|[]{}^$]. *)
Definition special (c : ascii) : bool :=
  existsb (Ascii.eqb c)
    ["\"; "."; "+"; "*"; "?"; "("; ")"; "|"; "["; "]"; "{"; "}"; "^"; "$"]%char.

Fixpoint QuoteMeta (s : string) : string :=
  match s with
  | EmptyString => EmptyString
  | String c s' =>
      if special c then String "\" (String c (QuoteMeta s'))
      else String c (QuoteMeta s')
  end.

(** [globToRegex] *)
Definition globToRegex (pattern : string) : string :=
  let result := QuoteMeta pattern in
  let result := strings.ReplaceAll result "\*\*" ".*" in
  let result := strings.ReplaceAll result "\*" "[^/]*" in
  let result := strings.ReplaceAll result "\?" "." in
  "^" +:+ result +:+ "$".

Section ExcludeMatcher.

Context `{RegexpEngine}.

(** [compiledRule]; a nil [regex] is [None]. *)
Record compiledRule := {
  rule : ExcludeRule;
  regex : option Regexp;
  pattern : string
}.

(** [ExcludeMatcher]; the [regexCache] map is created and never used. *)
Record ExcludeMatcher := {
  rules : list ExcludeRule;
  compiledRules : list compiledRule
}.

(** The body of the loop of [compile] for an enabled rule. *)
Definition compile_rule (r : ExcludeRule) : compiledRule :=
  if String.eqb (rule_Type r) "regex" then
    {| rule := r; regex := regexp_Compile (Pattern r); pattern := "" |}
  else
    {| rule := r;
       regex := regexp_Compile (globToRegex (Pattern r));
       pattern := Pattern r |}.

(** [compile]: disabled rules are passed over, every enabled rule is
    appended, with or without a compiled expression. *)
Fixpoint compile (rs : list ExcludeRule) : list compiledRule :=
  match rs with
  | [] => []
  | r :: rest =>
      if negb (Enabled r) then compile rest
      else compile_rule r :: compile rest
  end.

(** [NewExcludeMatcher] *)
Definition NewExcludeMatcher (rs : list ExcludeRule) : ExcludeMatcher :=
  {| rules := rs; compiledRules := compile rs |}.

(** [pathContainsDir]: the segments of the path but the last.  It is
    called on rules that have a compiled expression only. *)
Definition pathContainsDir (path : string) (cr : compiledRule) : bool :=
  match regex cr with
  | Some re => existsb (MatchString re) (removelast (strings.Split path "/"))
  | None => false
  end.

(** The loop of [ShouldExclude] over the compiled rules. *)
Fixpoint ShouldExclude_rules (crs : list compiledRule) (path : string)
    (isDir : bool) : bool :=
  match crs with
  | [] => false
  | cr :: rest =>
      match regex cr with
      | None => ShouldExclude_rules rest path isDir
      | Some re =>
          if IsDir (rule cr) && negb isDir then
            if pathContainsDir path cr then true
            else ShouldExclude_rules rest path isDir
          else if IsDir (rule cr) then
            if existsb (MatchString re) (strings.Split path "/") then true
            else ShouldExclude_rules rest path isDir
          else
            let fileName := filepath.Base path in
            if MatchString re fileName || MatchString re path then true
            else ShouldExclude_rules rest path isDir
      end
  end.

(** [ShouldExclude] *)
Definition ShouldExclude (m : ExcludeMatcher) (path : string) (isDir : bool) : bool :=
  let path := filepath.ToSlash path in
  ShouldExclude_rules (compiledRules m) path isDir.

End ExcludeMatcher.

Arguments compiledRule {_}.
Arguments ExcludeMatcher {_}.

(** [defaultShouldExclude], the rule set built into the comparer. *)
Definition defaultShouldExclude (path : string) : bool :=
  let path := filepath.ToSlash path in
  let pathParts := strings.Split path "/" in
  if existsb (fun part =>
       existsb (String.eqb part)
         ["obj"; "bin"; ".idea"; ".vs"; "My Project"; "Service References"; "Properties"])
     pathParts then true
  else
    let ext := filepath.Ext path in
    if existsb (String.eqb ext) [".vbproj"; ".csproj"] then true
    else if strings.HasSuffix path ".vbproj.user" then true
    else false.

(** ** A regular-expression engine for the translated globs

    An instance of the interface for the part of Go's syntax that
    [globToRegex] produces: an optional [^] in front, an optional [$]
    at the end, and between them a sequence of one-character atoms, each
    optionally followed by [*].  An atom is a literal character, a
    backslash followed by a punctuation character, the dot, or a
    bracket expression [[...]] / [[^...]] listing plain characters.
    With the flags [regexp.Compile] uses, the dot matches every
    character but the line feed, a negated bracket expression does
    match the line feed, [^] and [$] match at the two ends of the text
    only, and a match may start and end anywhere unless anchored.
    The engine is one for ASCII: Go's engine reads an expression and a
    text rune by rune, and a rune of ASCII is one byte, so on ASCII
    expressions and ASCII texts the characters here are Go's runes.
    [Compile] answers [None] on a syntax error and on anything outside
    this fragment (groups, alternation, counted repetition, classes
    with ranges or escapes, and every expression with a byte outside
    ASCII, be it valid UTF-8, which Go compiles, or not, which Go
    refuses); the statements about matching are made for ASCII
    texts. *)

Module re2.

Inductive atom :=
| Lit (c : ascii)
| AnyNotNL
| Class (negated : bool) (members : list ascii).

Record piece := { p_atom : atom; p_star : bool }.

Record prog := { bol : bool; eol : bool; pieces : list piece }.

Definition is_alnum (c : ascii) : bool :=
  let n := nat_of_ascii c in
  ((48 <=? n) && (n <=? 57) || (65 <=? n) && (n <=? 90) || (97 <=? n) && (n <=? 122))%nat.

(** What the parser is in the middle of. *)
Inductive mode :=
| Top
| Escape
| ClassOpen
| ClassBody (negated : bool) (members : list ascii).

(** The parser: [acc] holds the pieces read so far, last first. *)
Fixpoint parse (m : mode) (acc : list piece) (s : string) : option (list piece * bool) :=
  match s with
  | EmptyString =>
      match m with
      | Top => Some (rev acc, false)
      | _ => None
      end
  | String c s' =>
      match m with
      | Top =>
          if Ascii.eqb c "\" then parse Escape acc s'
          else if Ascii.eqb c "." then parse Top ({| p_atom := AnyNotNL; p_star := false |} :: acc) s'
          else if Ascii.eqb c "[" then parse ClassOpen acc s'
          else if Ascii.eqb c "*" then
            match acc with
            | {| p_atom := a; p_star := false |} :: acc' =>
                parse Top ({| p_atom := a; p_star := true |} :: acc') s'
            | _ => None
            end
          else if Ascii.eqb c "$" then
            match s' with
            | EmptyString => Some (rev acc, true)
            | _ => None
            end
          else if special c then None
          else parse Top ({| p_atom := Lit c; p_star := false |} :: acc) s'
      | Escape =>
          if (nat_of_ascii c <? 128)%nat && negb (is_alnum c)
          then parse Top ({| p_atom := Lit c; p_star := false |} :: acc) s'
          else None
      | ClassOpen =>
          if Ascii.eqb c "^" then parse (ClassBody true []) acc s'
          else if special c || Ascii.eqb c "-" then None
          else parse (ClassBody false [c]) acc s'
      | ClassBody neg ms =>
          if Ascii.eqb c "]" then
            match ms with
            | [] => None
            | _ => parse Top ({| p_atom := Class neg (rev ms); p_star := false |} :: acc) s'
            end
          else if special c || Ascii.eqb c "-" then None
          else parse (ClassBody neg (c :: ms)) acc s'
      end
  end.

Definition Compile (expr : string) : option prog :=
  if negb (all_chars is_ascii expr) then None
  else
    match expr with
    | String "^" s' =>
        match parse Top [] s' with
        | Some (ps, e) => Some {| bol := true; eol := e; pieces := ps |}
        | None => None
        end
    | _ =>
        match parse Top [] expr with
        | Some (ps, e) => Some {| bol := false; eol := e; pieces := ps |}
        | None => None
        end
    end.

Definition atom_ok (a : atom) (c : ascii) : bool :=
  match a with
  | Lit d => Ascii.eqb c d
  | AnyNotNL => negb (Ascii.eqb c "010")
  | Class neg ms => xorb neg (existsb (Ascii.eqb c) ms)
  end.

(** [a*] followed by the rest [k]: zero or more characters of [a]. *)
Fixpoint star_loop (a : atom) (k : string → bool) (s : string) : bool :=
  k s ||
  match s with
  | EmptyString => false
  | String c s' => atom_ok a c && star_loop a k s'
  end.

(** A match of the pieces that starts at the head of [s]. *)
Fixpoint match_here (ps : list piece) (e : bool) (s : string) : bool :=
  match ps with
  | [] => if e then String.eqb s "" else true
  | p :: ps' =>
      if p_star p then star_loop (p_atom p) (match_here ps' e) s
      else match s with
           | EmptyString => false
           | String c s' => atom_ok (p_atom p) c && match_here ps' e s'
           end
  end.

Fixpoint match_anywhere (ps : list piece) (e : bool) (s : string) : bool :=
  match_here ps e s ||
  match s with
  | EmptyString => false
  | String _ s' => match_anywhere ps e s'
  end.

Definition MatchString (re : prog) (s : string) : bool :=
  if bol re then match_here (pieces re) (eol re) s
  else match_anywhere (pieces re) (eol re) s.

End re2.

#[global] Instance re2_engine : RegexpEngine := {|
  Regexp := re2.prog;
  regexp_Compile := re2.Compile;
  MatchString := re2.MatchString
|}.

(** A glob rule matched against a text, as [compile] and [ShouldExclude]
    do it: a pattern that does not compile matches nothing. *)
Definition glob_matches (pattern text : string) : bool :=
  match regexp_Compile (globToRegex pattern) with
  | Some re => MatchString re text
  | None => false
  end.

(** ** The world outside the program

    What the program obtains from the operating system and from the
    libraries it calls; an operation that returns an [error] answers
    [None] (or [false]). *)

(** [zip.File]: the name of an entry, whether its attributes carry the
    directory bit, and the bytes [Open] and a full read deliver ([None]
    when the entry cannot be opened or read). *)
Record zip_File := {
  Name : string;
  mode_IsDir : bool;
  entry_Data : option string
}.

(** [f.FileInfo().IsDir()]: the directory bit of the attributes, or a
    name that ends in a slash. *)
Definition file_IsDir (f : zip_File) : bool :=
  mode_IsDir f || strings.HasSuffix (Name f) "/".

(** The regular files that can be opened and read, by path. *)
Abbreviation FileSystem := (gmap string string).

Class Host := {
  (** [zip.OpenReader]: the entries of the archive in the order of its
      directory. *)
  zip_OpenReader : string → option (list zip_File);
  (** [filepath.Walk]: the paths handed to the callback, each with
      [info.IsDir()], or [None] where the walk reports an error. *)
  filepath_Walk : string → list (string * option bool);
  filepath_Rel : string → string → string;
  filepath_Join : string → string → string;
  filepath_Dir : string → string;
  os_MkdirAll : string → bool;
  os_Create : string → bool;
  (** The paths that [os.Open] opens although no byte can be read from
      them, a directory for one. *)
  unreadable : string → bool;
  (** [md5.New], [io.Copy], [Sum(nil)] over a byte sequence. *)
  md5_Sum : string → string;
  (** The order in which a [range] visits a map: unspecified, but each
      key once. *)
  range : ∀ {V : Type}, gmap string V → list (string * V);
  range_perm : ∀ (V : Type) (m : gmap string V), range m ≡ₚ map_to_list m
}.

Inductive outcome (A : Type) :=
| Ok (a : A)
| Error (msg : string).
Arguments Ok {A} a.
Arguments Error {A} msg.

(** ** archive.go *)

(** [ZipReader]; [File] is [reader.File]. *)
Record ZipReader := {
  zr_path : string;
  File : list zip_File
}.

(** [NewZipReader] *)
Definition NewZipReader `{Host} (zipPath : string) : outcome ZipReader :=
  match zip_OpenReader zipPath with
  | Some entries => Ok {| zr_path := zipPath; File := entries |}
  | None => Error "failed to open zip file"
  end.

(** [GetRootFolder] *)
Definition GetRootFolder (z : ZipReader) : string :=
  match File z with
  | [] => ""
  | first :: _ =>
      let firstPath := Name first in
      match strings.Split (strings.TrimPrefix firstPath "/") "/" with
      | part :: _ => part
      | [] => ""
      end
  end.

(** The key under which [ListFiles] files an entry that is not a
    directory. *)
Definition listing_key (rootFolder : string) (f : zip_File) : string :=
  let relPath := Name f in
  let relPath :=
    if negb (String.eqb rootFolder "") && strings.HasPrefix relPath (rootFolder +:+ "/")
    then strings.TrimPrefix relPath (rootFolder +:+ "/")
    else relPath in
  filepath.ToSlash relPath.

(** The loop of [ListFiles]. *)
Fixpoint ListFiles_loop (rootFolder : string) (entries : list zip_File)
    (files : gmap string zip_File) : gmap string zip_File :=
  match entries with
  | [] => files
  | f :: rest =>
      if file_IsDir f then ListFiles_loop rootFolder rest files
      else
        let relPath := listing_key rootFolder f in
        if negb (String.eqb relPath "")
        then ListFiles_loop rootFolder rest (<[relPath := f]> files)
        else ListFiles_loop rootFolder rest files
  end.

(** [ListFiles]; its [error] result is always nil. *)
Definition ListFiles (z : ZipReader) : gmap string zip_File :=
  ListFiles_loop (GetRootFolder z) (File z) ∅.

(** ** compare.go: the comparer *)

(** [Comparer]; [OnProgress] tells whether a callback is installed, and
    the calls made to it are collected in order. *)
Record Comparer `{RegexpEngine} := {
  zipPath : string;
  workDir : string;
  excludeMatcher : option ExcludeMatcher;
  OnProgress : bool
}.

(** [getAllFilesAndDirs]: the callback of the walk, visit by visit. *)
Fixpoint walk_callback `{Host} (root : string) (visits : list (string * option bool))
    (files : gmap string string) (dirs : gmap string bool)
    : gmap string string * gmap string bool * bool :=
  match visits with
  | [] => (files, dirs, true)
  | (_, None) :: _ => (files, dirs, false)
  | (path, Some isDir) :: rest =>
      let relPath := filepath_Rel root path in
      if String.eqb relPath "." then walk_callback root rest files dirs
      else
        let relPath := filepath.ToSlash relPath in
        if isDir then walk_callback root rest files (<[relPath := true]> dirs)
        else walk_callback root rest (<[relPath := path]> files) dirs
  end.

Definition getAllFilesAndDirs `{Host} (root : string)
    : gmap string string * gmap string bool * bool :=
  walk_callback root (filepath_Walk root) ∅ ∅.

(** [getZipFileHash] and [fileHash] *)
Definition getZipFileHash `{Host} (f : zip_File) : option string :=
  md5_Sum <$> entry_Data f.

Definition fileHash `{Host} (fs : FileSystem) (filePath : string) : option string :=
  md5_Sum <$> fs !! filePath.

(** [shouldExclude] *)
Definition shouldExclude `{RegexpEngine} (c : Comparer) (path : string) (isDir : bool) : bool :=
  match excludeMatcher c with
  | Some m => ShouldExclude m path isDir
  | None => defaultShouldExclude path
  end.

(** What the two loops of [Compare] update. *)
Record progress_state := {
  result : CompareResult;
  processed : nat;
  calls : list ProgressEvent
}.

(** [emitProgress] *)
Definition emitProgress `{RegexpEngine} (c : Comparer) (current total : nat)
    (message : string) (calls : list ProgressEvent) : list ProgressEvent :=
  if OnProgress c
  then calls ++ [{| Current := current; Total := total; Message := message |}]
  else calls.

Definition append_item (r : CompareResult) (it : DiffItem) (a m d : nat) : CompareResult :=
  {| Items := Items r ++ [it];
     TotalFiles := TotalFiles r;
     Added := Added r + a;
     Modified := Modified r + m;
     Deleted := Deleted r + d |}.

(** The head of both loop bodies: [processed++] and the callback. *)
Definition examine `{RegexpEngine} (c : Comparer) (totalFiles : nat) (relPath : string)
    (st : progress_state) : progress_state :=
  {| result := result st;
     processed := S (processed st);
     calls := emitProgress c (S (processed st)) totalFiles ("检查: " +:+ relPath) (calls st) |}.

Definition with_result (st : progress_state) (r : CompareResult) : progress_state :=
  {| result := r; processed := processed st; calls := calls st |}.

Section Compare.

Context `{RegexpEngine} `{Host}.

Variable c : Comparer.
Variable fs : FileSystem.

(** Body of the first loop: an entry of the archive listing. *)
Definition compare_archive_entry (workFiles : gmap string string) (totalFiles : nat)
    (st : progress_state) (entry : string * zip_File) : progress_state :=
  let '(relPath, zipFile) := entry in
  if shouldExclude c relPath false then st
  else
    let st := examine c totalFiles relPath st in
    match workFiles !! relPath with
    | None =>
        with_result st
          (append_item (result st)
             {| RelPath := relPath; item_Type := "deleted";
                Selected := true; SourcePath := "" |} 0 0 1)
    | Some workFilePath =>
        match getZipFileHash zipFile with
        | None => st
        | Some zipHash =>
            match fileHash fs workFilePath with
            | None => st
            | Some workHash =>
                if negb (String.eqb zipHash workHash) then
                  with_result st
                    (append_item (result st)
                       {| RelPath := relPath; item_Type := "modified";
                          Selected := true; SourcePath := workFilePath |} 0 1 0)
                else st
            end
        end
    end.

(** Body of the second loop: an entry of the working-directory listing. *)
Definition compare_work_entry (zipFiles : gmap string zip_File) (totalFiles : nat)
    (st : progress_state) (entry : string * string) : progress_state :=
  let '(relPath, workFilePath) := entry in
  if shouldExclude c relPath false then st
  else
    let st := examine c totalFiles relPath st in
    let normalizedPath := filepath.ToSlash relPath in
    match zipFiles !! normalizedPath with
    | None =>
        with_result st
          (append_item (result st)
             {| RelPath := relPath; item_Type := "added";
                Selected := true; SourcePath := workFilePath |} 1 0 0)
    | Some _ => st
    end.

(** The two loops of [Compare], once both listings are there. *)
Definition compare_listings (zipFiles : gmap string zip_File)
    (workFiles : gmap string string) : progress_state :=
  let totalFiles := size zipFiles + size workFiles in
  let st := {| result := {| Items := []; TotalFiles := 0; Added := 0;
                            Modified := 0; Deleted := 0 |};
               processed := 0; calls := [] |} in
  let st := fold_left (compare_archive_entry workFiles totalFiles) (range zipFiles) st in
  let st := fold_left (compare_work_entry zipFiles totalFiles) (range workFiles) st in
  with_result st
    {| Items := Items (result st); TotalFiles := length (Items (result st));
       Added := Added (result st); Modified := Modified (result st);
       Deleted := Deleted (result st) |}.

(** [Compare]: the result or the error, and the calls made to the
    progress callback. *)
Definition Compare : outcome CompareResult * list ProgressEvent :=
  match NewZipReader (zipPath c) with
  | Error _ => (Error "failed to open zip file", [])
  | Ok zipReader =>
      let zipFiles := ListFiles zipReader in
      match getAllFilesAndDirs (workDir c) with
      | (_, _, false) => (Error "failed to list work directory files", [])
      | (workFiles, _, true) =>
          let st := compare_listings zipFiles workFiles in
          (Ok (result st), calls st)
      end
  end.

End Compare.

(** ** compare.go: the exporter *)

(** What [ExportDiffs] does that can be seen from outside: a call of the
    progress callback, or a call of [copyFile]. *)
Inductive export_event :=
| Progress (e : ProgressEvent)
| CopyFile (src dest : string).

Section Exporter.

Context `{Host}.

(** [copyFile]: the directory of the destination is created, the source
    opened, the destination created, which empties it when it is there
    already, and the bytes then read from the source are written to the
    destination.  A source that is the destination itself is read
    after it was emptied, and a source that opens and cannot be read
    leaves the destination empty. *)
Definition copyFile (fs : FileSystem) (src dest : string) : FileSystem * bool :=
  if negb (os_MkdirAll (filepath_Dir dest)) then (fs, false)
  else if negb (bool_decide (is_Some (fs !! src)) || unreadable src) then (fs, false)
  else if negb (os_Create dest) then (fs, false)
  else
    let fs := <[dest := ""]> fs in
    match fs !! src with
    | Some data => (<[dest := data]> fs, true)
    | None => (fs, false)
    end.

(** The filter at the head of [ExportDiffs]. *)
Definition exportable (item : DiffItem) : bool :=
  Selected item && negb (String.eqb (item_Type item) "deleted").

(** The copy loop of [ExportDiffs]; [i] is the index of the head of
    [selectedItems] and [total] the length of the whole selection. *)
Fixpoint export_loop (selectedItems : list DiffItem) (i total : nat) (outputDir : string)
    (onProgress : bool) (fs : FileSystem) (log : list export_event)
    : outcome unit * FileSystem * list export_event :=
  match selectedItems with
  | [] => (Ok tt, fs, log)
  | item :: rest =>
      let log :=
        if onProgress
        then log ++ [Progress {| Current := i + 1; Total := total;
                                  Message := "导出: " +:+ RelPath item |}]
        else log in
      let destPath := filepath_Join outputDir (RelPath item) in
      let log := log ++ [CopyFile (SourcePath item) destPath] in
      match copyFile fs (SourcePath item) destPath with
      | (fs', true) => export_loop rest (S i) total outputDir onProgress fs' log
      | (fs', false) => (Error ("failed to copy file " +:+ RelPath item), fs', log)
      end
  end.

(** [ExportDiffs]: the error or success, the file system it leaves, and
    what it did in order. *)
Definition ExportDiffs (items : list DiffItem) (outputDir : string) (onProgress : bool)
    (fs : FileSystem) : outcome unit * FileSystem * list export_event :=
  if negb (os_MkdirAll outputDir) then (Error "failed to create output directory", fs, [])
  else
    let selectedItems := List.filter exportable items in
    export_loop selectedItems 0 (length selectedItems) outputDir onProgress fs [].

End Exporter.

(** ** diff.go: the text differ *)

(** The operations and spans of [diffmatchpatch]. *)
Inductive Operation := DiffDelete | DiffInsert | DiffEqual.

Record Diff := {
  diff_Type : Operation;
  Text : string
}.

(** The two entry points of [diffmatchpatch] the differ calls. *)
Class DiffMatchPatch := {
  DiffMain : string → string → bool → list Diff;
  DiffCleanupSemantic : list Diff → list Diff
}.

(** The [switch] on the operation of a span. *)
Definition diffType (op : Operation) : string :=
  match op with
  | DiffInsert => "insert"
  | DiffDelete => "delete"
  | DiffEqual => "equal"
  end.

(** The inner loop of [CompareTexts] over the lines of one span: the
    last line is passed over when it is empty. *)
Fixpoint span_lines (ty : string) (lines : list string) : list DiffLine :=
  match lines with
  | [] => []
  | [line] =>
      if String.eqb line "" then []
      else [{| line_Type := ty; Content := line |}]
  | line :: rest => {| line_Type := ty; Content := line |} :: span_lines ty rest
  end.

(** [CompareTexts] *)
Definition CompareTexts `{DiffMatchPatch} (oldText newText : string) : TextDiff :=
  let diffs := DiffMain oldText newText true in
  let diffs := DiffCleanupSemantic diffs in
  {| OldContent := oldText;
     NewContent := newText;
     Lines := flat_map (λ diff, span_lines (diffType (diff_Type diff))
                                  (strings.Split (Text diff) "010")) diffs |}.

(** ** Notions used in the statements *)

(** The enabled rules whose expression compiled. *)
Definition compiled_ok `{RegexpEngine} (r : ExcludeRule) : bool :=
  Enabled r && bool_decide (is_Some (regex (compile_rule r))).

(** What one rule contributes to [ShouldExclude]: nothing when it is
    disabled or did not compile; a directory rule is tried on the
    segments of the path (all of them for a directory, all but the last
    for a file), a file rule on the base name and on the whole path. *)
Definition rule_hits `{RegexpEngine} (r : ExcludeRule) (path : string) (isDir : bool) : bool :=
  Enabled r &&
  match regex (compile_rule r) with
  | None => false
  | Some re =>
      if IsDir r then
        existsb (MatchString re)
          (if isDir then strings.Split path "/" else removelast (strings.Split path "/"))
      else MatchString re (filepath.Base path) || MatchString re path
  end.

(** A segment of a path: a string without a slash. *)
Definition segment (w : string) : Prop := occurs "/" w = false.

(** ** config.go: the built-in rule set *)

Definition defaultExcludeRules : list ExcludeRule := [
  {| Pattern := "obj"; rule_Type := "glob"; IsDir := true; Enabled := true; Comment := ".NET 编译输出目录" |};
  {| Pattern := "bin"; rule_Type := "glob"; IsDir := true; Enabled := true; Comment := ".NET 编译输出目录" |};
  {| Pattern := ".idea"; rule_Type := "glob"; IsDir := true; Enabled := true; Comment := "JetBrains IDE 配置" |};
  {| Pattern := ".vs"; rule_Type := "glob"; IsDir := true; Enabled := true; Comment := "Visual Studio 配置" |};
  {| Pattern := ".vscode"; rule_Type := "glob"; IsDir := true; Enabled := true; Comment := "VS Code 配置" |};
  {| Pattern := "node_modules"; rule_Type := "glob"; IsDir := true; Enabled := true; Comment := "Node.js 依赖" |};
  {| Pattern := "My Project"; rule_Type := "glob"; IsDir := true; Enabled := true; Comment := "VB.NET 项目文件夹" |};
  {| Pattern := "Service References"; rule_Type := "glob"; IsDir := true; Enabled := true; Comment := "服务引用" |};
  {| Pattern := "Properties"; rule_Type := "glob"; IsDir := true; Enabled := true; Comment := ".NET 属性文件夹" |};
  {| Pattern := "*.vbproj"; rule_Type := "glob"; IsDir := false; Enabled := true; Comment := "VB.NET 项目文件" |};
  {| Pattern := "*.vbproj.user"; rule_Type := "glob"; IsDir := false; Enabled := true; Comment := "VB.NET 用户配置" |};
  {| Pattern := "*.csproj"; rule_Type := "glob"; IsDir := false; Enabled := true; Comment := "C# 项目文件" |};
  {| Pattern := "*.csproj.user"; rule_Type := "glob"; IsDir := false; Enabled := true; Comment := "C# 用户配置" |};
  {| Pattern := "*.suo"; rule_Type := "glob"; IsDir := false; Enabled := true; Comment := "VS 解决方案用户选项" |};
  {| Pattern := "*.user"; rule_Type := "glob"; IsDir := false; Enabled := true; Comment := "用户配置文件" |};
  {| Pattern := ".DS_Store"; rule_Type := "glob"; IsDir := false; Enabled := true; Comment := "macOS 系统文件" |};
  {| Pattern := "Thumbs.db"; rule_Type := "glob"; IsDir := false; Enabled := true; Comment := "Windows 缩略图" |}
].

(** The directory rule for [bin] of the built-in set. *)
Definition bin_rule : ExcludeRule :=
  {| Pattern := "bin"; rule_Type := "glob"; IsDir := true; Enabled := true;
     Comment := ".NET 编译输出目录" |}.

(** A glob rule for files, and a rule given as a regular expression. *)
Definition glob_rule (pattern : string) : ExcludeRule :=
  {| Pattern := pattern; rule_Type := "glob"; IsDir := false; Enabled := true; Comment := "" |}.

Definition regex_rule (pattern : string) : ExcludeRule :=
  {| Pattern := pattern; rule_Type := "regex"; IsDir := false; Enabled := true; Comment := "" |}.

(** ** Notions used in the statements about [Compare] *)

Definition deleted_item (relPath : string) : DiffItem :=
  {| RelPath := relPath; item_Type := "deleted"; Selected := true; SourcePath := "" |}.

Definition modified_item (relPath workFilePath : string) : DiffItem :=
  {| RelPath := relPath; item_Type := "modified"; Selected := true;
     SourcePath := workFilePath |}.

Definition added_item (relPath workFilePath : string) : DiffItem :=
  {| RelPath := relPath; item_Type := "added"; Selected := true;
     SourcePath := workFilePath |}.

(** The items of a result that bear a given relative path. *)
Definition items_for (relPath : string) (r : CompareResult) : list DiffItem :=
  List.filter (λ it, String.eqb (RelPath it) relPath) (Items r).

Section CompareNotions.

Context `{RegexpEngine} `{Host}.

Variable c : Comparer.
Variable fs : FileSystem.

(** What the first loop appends for one entry of the archive listing,
    and the second for one entry of the working-directory listing. *)
Definition archive_entry_items (workFiles : gmap string string)
    (entry : string * zip_File) : list DiffItem :=
  if shouldExclude c entry.1 false then []
  else
    match workFiles !! entry.1 with
    | None => [deleted_item entry.1]
    | Some workFilePath =>
        match getZipFileHash entry.2, fileHash fs workFilePath with
        | Some zipHash, Some workHash =>
            if negb (String.eqb zipHash workHash)
            then [modified_item entry.1 workFilePath] else []
        | _, _ => []
        end
    end.

Definition work_entry_items (zipFiles : gmap string zip_File)
    (entry : string * string) : list DiffItem :=
  if shouldExclude c entry.1 false then []
  else
    match zipFiles !! entry.1 with
    | None => [added_item entry.1 entry.2]
    | Some _ => []
    end.

(** The paths of a listing that a loop examines: those not excluded. *)
Definition examined (paths : list string) : list string :=
  List.filter (λ p, negb (shouldExclude c p false)) paths.

(** One turn of either loop: the items grow by what the entry
    contributes, and the counter and the callback move exactly when the
    path is examined. *)
Definition turn {E} (step : progress_state → string * E → progress_state)
    (delta : string * E → list DiffItem) (total : nat) : Prop :=
  ∀ st e,
    Items (result (step st e)) = Items (result st) ++ delta e ∧
    processed (step st e)
      = (if shouldExclude c e.1 false then processed st else S (processed st)) ∧
    calls (step st e)
      = (if shouldExclude c e.1 false then calls st
         else emitProgress c (S (processed st)) total ("检查: " +:+ e.1) (calls st)).

End CompareNotions.

(** The calls a loop makes to the callback for the paths it examines,
    with the counter at [start] before the first. *)
Fixpoint progress_calls (start total : nat) (paths : list string) : list ProgressEvent :=
  match paths with
  | [] => []
  | p :: ps =>
      {| Current := S start; Total := total; Message := "检查: " +:+ p |}
        :: progress_calls (S start) total ps
  end.

(** ** A small world, for examples

    An archive [base.zip] wrapped in the folder [root], and a working
    directory [work]; [locked.txt] cannot be read from the archive. *)

Definition demo_archive : list zip_File := [
  {| Name := "root/"; mode_IsDir := true; entry_Data := None |};
  {| Name := "root/a.txt"; mode_IsDir := false; entry_Data := Some "1" |};
  {| Name := "root/b.txt"; mode_IsDir := false; entry_Data := Some "2" |};
  {| Name := "root/m.txt"; mode_IsDir := false; entry_Data := Some "old" |};
  {| Name := "root/bin/"; mode_IsDir := true; entry_Data := None |};
  {| Name := "root/bin/app.dll"; mode_IsDir := false; entry_Data := Some "v1" |};
  {| Name := "root/locked.txt"; mode_IsDir := false; entry_Data := None |}
].

Definition demo_walk : list (string * option bool) := [
  ("work", Some true);
  ("work/a.txt", Some false);
  ("work/bin", Some true);
  ("work/bin/app.dll", Some false);
  ("work/c.txt", Some false);
  ("work/locked.txt", Some false);
  ("work/m.txt", Some false)
].

Definition demo_fs : FileSystem :=
  <["work/a.txt" := "1"]> (<["work/bin/app.dll" := "v2"]> (<["work/c.txt" := "3"]>
    (<["work/locked.txt" := "x"]> (<["work/m.txt" := "new"]> ∅)))).

#[global] Instance demo_host : Host := {|
  zip_OpenReader p := if String.eqb p "base.zip" then Some demo_archive else None;
  filepath_Walk root := if String.eqb root "work" then demo_walk else [(root, None)];
  filepath_Rel root p :=
    if String.eqb p root then "." else strings.TrimPrefix p (root +:+ "/");
  filepath_Join dir p := dir +:+ "/" +:+ p;
  filepath_Dir p := p;
  os_MkdirAll p := negb (strings.HasPrefix p "/readonly");
  os_Create p := true;
  unreadable p := String.eqb p "work/bin";
  md5_Sum data := data;
  range V m := map_to_list m;
  range_perm V m := Permutation_refl (map_to_list m)
|}.

Definition demo_comparer : Comparer :=
  {| zipPath := "base.zip"; workDir := "work";
     excludeMatcher := Some (NewExcludeMatcher defaultExcludeRules);
     OnProgress := true |}.

Definition demo_reader : ZipReader := {| zr_path := "base.zip"; File := demo_archive |}.

Definition demo_workFiles : gmap string string :=
  <["a.txt" := "work/a.txt"]> (<["bin/app.dll" := "work/bin/app.dll"]>
    (<["c.txt" := "work/c.txt"]> (<["locked.txt" := "work/locked.txt"]>
      (<["m.txt" := "work/m.txt"]> ∅)))).

Definition demo_dirs : gmap string bool := <["bin" := true]> ∅.

(** ** Notions used in the statements about [ExportDiffs] *)

Section ExportNotions.

Context `{Host}.

Variable outputDir : string.

(** Where an item is copied to. *)
Definition destination (item : DiffItem) : string :=
  filepath_Join outputDir (RelPath item).

(** What is seen of the items the loop reaches, [i] items having come
    before: for each item the call of the callback, when there is one,
    and then the copy. *)
Fixpoint item_events (onProgress : bool) (i total : nat) (items : list DiffItem)
    : list export_event :=
  match items with
  | [] => []
  | item :: rest =>
      (if onProgress
       then [Progress {| Current := i + 1; Total := total;
                         Message := "导出: " +:+ RelPath item |}]
       else [])
      ++ CopyFile (SourcePath item) (destination item)
      :: item_events onProgress (S i) total rest
  end.

(** The file system after the items were copied one after the other. *)
Definition copy_all (fs : FileSystem) (items : list DiffItem) : FileSystem :=
  fold_left (λ fs item, (copyFile fs (SourcePath item) (destination item)).1) items fs.

(** The copy of an item can be made: the directory of its destination
    can be created, its source is a file that can be read, and its
    destination can be created. *)
Definition copy_ready (fs : FileSystem) (item : DiffItem) : bool :=
  os_MkdirAll (filepath_Dir (destination item))
  && bool_decide (is_Some (fs !! SourcePath item))
  && os_Create (destination item).

(** Every copy of the sequence succeeds. *)
Fixpoint copies_succeed (fs : FileSystem) (items : list DiffItem) : bool :=
  match items with
  | [] => true
  | item :: rest =>
      let '(fs', ok) := copyFile fs (SourcePath item) (destination item) in
      ok && copies_succeed fs' rest
  end.

End ExportNotions.

(** ** A differ for examples: equal texts are one span, different texts
    a deletion followed by an insertion. *)
Definition plain_differ : DiffMatchPatch := {|
  DiffMain old new _ :=
    if String.eqb old new
    then (if String.eqb old "" then [] else [{| diff_Type := DiffEqual; Text := old |}])
    else [{| diff_Type := DiffDelete; Text := old |}; {| diff_Type := DiffInsert; Text := new |}];
  DiffCleanupSemantic diffs := diffs
|}.

(** ** The glob language, as the specification words it

    A pattern is read from left to right into tokens: two stars in a
    row are [**], a single star is [*], the question mark is [?], and
    every other character stands for itself. *)

Inductive glob_token :=
| GLit (c : ascii)
| GAnyPath
| GAnySegment
| GOne.

Fixpoint glob_tokens (pattern : string) : list glob_token :=
  match pattern with
  | EmptyString => []
  | String c rest =>
      if Ascii.eqb c "*" then
        match rest with
        | String d rest' =>
            if Ascii.eqb d "*" then GAnyPath :: glob_tokens rest'
            else GAnySegment :: glob_tokens rest
        | EmptyString => [GAnySegment]
        end
      else if Ascii.eqb c "?" then GOne :: glob_tokens rest
      else GLit c :: glob_tokens rest
  end.

(** The texts a token sequence stands for: a literal is itself, [?] is
    one character, [*] any run of characters other than the slash, [**]
    any run of characters.  [any] tells which characters [?] and [**]
    range over. *)
Inductive glob_denotes (any : ascii → bool) : list glob_token → string → Prop :=
| denotes_nil : glob_denotes any [] ""
| denotes_lit c ts s :
    glob_denotes any ts s → glob_denotes any (GLit c :: ts) (String c s)
| denotes_one c ts s :
    any c = true → glob_denotes any ts s → glob_denotes any (GOne :: ts) (String c s)
| denotes_segment w ts s :
    all_chars (λ c, negb (Ascii.eqb c "/")) w = true →
    glob_denotes any ts s → glob_denotes any (GAnySegment :: ts) (w +:+ s)
| denotes_path w ts s :
    all_chars any w = true →
    glob_denotes any ts s → glob_denotes any (GAnyPath :: ts) (w +:+ s).

(** The reading of the specification: [?] and [**] range over every
    character. *)
Definition every_char : ascii → bool := λ _, true.

(** The reading of the compiled expression: the dot leaves the line
    feed out. *)
Definition not_line_feed : ascii → bool := λ c, negb (Ascii.eqb c "010").

(** What [globToRegex] writes for a token, and for a sequence. *)
Definition render_token (t : glob_token) : string :=
  match t with
  | GLit c => if special c then String "\" (String c "") else String c ""
  | GAnyPath => ".*"
  | GAnySegment => "[^/]*"
  | GOne => "."
  end.

Fixpoint render (ts : list glob_token) : string :=
  match ts with
  | [] => ""
  | t :: ts' => render_token t +:+ render ts'
  end.

(** The three replacements of [globToRegex], on tokens. *)
Fixpoint pass_any_path (ts : list glob_token) : list glob_token :=
  match ts with
  | GLit c :: rest =>
      if Ascii.eqb c "*" then
        match rest with
        | GLit d :: rest' =>
            if Ascii.eqb d "*" then GAnyPath :: pass_any_path rest'
            else GLit c :: pass_any_path rest
        | _ => GLit c :: pass_any_path rest
        end
      else GLit c :: pass_any_path rest
  | t :: rest => t :: pass_any_path rest
  | [] => []
  end.

Definition pass_any_segment (ts : list glob_token) : list glob_token :=
  map (λ t, match t with
            | GLit c => if Ascii.eqb c "*" then GAnySegment else t
            | _ => t
            end) ts.

Definition pass_one (ts : list glob_token) : list glob_token :=
  map (λ t, match t with
            | GLit c => if Ascii.eqb c "?" then GOne else t
            | _ => t
            end) ts.

(** The piece of the compiled expression for a token. *)
Definition piece_of (t : glob_token) : re2.piece :=
  match t with
  | GLit c => {| re2.p_atom := re2.Lit c; re2.p_star := false |}
  | GAnyPath => {| re2.p_atom := re2.AnyNotNL; re2.p_star := true |}
  | GAnySegment => {| re2.p_atom := re2.Class true ["/"%char]; re2.p_star := true |}
  | GOne => {| re2.p_atom := re2.AnyNotNL; re2.p_star := false |}
  end.

(** A pattern before the replacements: every character a literal. *)
Definition literals (pattern : string) : list glob_token :=
  map GLit (list_ascii_of_string pattern).

(** A token of ASCII: a literal of ASCII, or a wildcard. *)
Definition ascii_token (t : glob_token) : bool :=
  match t with
  | GLit c => is_ascii c
  | _ => true
  end.


(** ** Notions used in further statements *)

(** The number of items of a given type. *)
Definition count_type (ty : string) (items : list DiffItem) : nat :=
  length (List.filter (λ it, String.eqb (item_Type it) ty) items).

(** The counters of a result agree with its items. *)
Definition counters_agree (r : CompareResult) : Prop :=
  Added r = count_type "added" (Items r) ∧
  Modified r = count_type "modified" (Items r) ∧
  Deleted r = count_type "deleted" (Items r) ∧
  length (Items r) = Added r + Modified r + Deleted r.

(** A second small world: the archive [same.zip] and the working
    directory [work] hold the same two files. *)
Definition twin_archive : list zip_File := [
  {| Name := "root/a.txt"; mode_IsDir := false; entry_Data := Some "1" |};
  {| Name := "root/src/b.txt"; mode_IsDir := false; entry_Data := Some "2" |}
].

Definition twin_host : Host := {|
  zip_OpenReader p := if String.eqb p "same.zip" then Some twin_archive else None;
  filepath_Walk root :=
    if String.eqb root "work"
    then [("work", Some true); ("work/a.txt", Some false); ("work/src", Some true);
          ("work/src/b.txt", Some false)]
    else [(root, None)];
  filepath_Rel root p :=
    if String.eqb p root then "." else strings.TrimPrefix p (root +:+ "/");
  filepath_Join dir p := dir +:+ "/" +:+ p;
  filepath_Dir p := p;
  os_MkdirAll p := true;
  os_Create p := true;
  unreadable p := false;
  md5_Sum data := data;
  range V m := map_to_list m;
  range_perm V m := Permutation_refl (map_to_list m)
|}.

Definition twin_fs : FileSystem :=
  <["work/a.txt" := "1"]> (<["work/src/b.txt" := "2"]> ∅).

Definition twin_comparer : Comparer :=
  {| zipPath := "same.zip"; workDir := "work"; excludeMatcher := None; OnProgress := true |}.

Definition twin_reader : ZipReader := {| zr_path := "same.zip"; File := twin_archive |}.

Definition twin_workFiles : gmap string string :=
  <["a.txt" := "work/a.txt"]> (<["src/b.txt" := "work/src/b.txt"]> ∅).

Definition twin_dirs : gmap string bool := <["src" := true]> ∅.

(** ** Notions used in further statements about the archive *)

(** The entry [ListFiles] ends up holding under a key: the last entry of
    the archive that is not a directory and has that key. *)
Definition last_with_key (z : ZipReader) (key : string) : option zip_File :=
  List.find (λ f, negb (file_IsDir f) && String.eqb (listing_key (GetRootFolder z) f) key)
    (rev (File z)).

(** ** diff.go: which files are previewed as text *)

(** [getFileExt]: the scan from the end of the name stops at the first
    dot and returns the name from there on, or gives up at a slash or a
    backslash. *)
Fixpoint getFileExt (filename : string) : string :=
  match filename with
  | EmptyString => EmptyString
  | String c rest =>
      match getFileExt rest with
      | EmptyString =>
          if occurs "/" rest || occurs "\" rest then EmptyString
          else if Ascii.eqb c "." then filename else EmptyString
      | ext => ext
      end
  end.

(** [strings.ToLower] on ASCII text: the letters [A] to [Z] become [a]
    to [z].  (Go maps the other runes through the Unicode tables; the
    statements about [IsTextFile] are made for ASCII names.) *)
Definition lower (c : ascii) : ascii :=
  let n := nat_of_ascii c in
  if (65 <=? n)%nat && (n <=? 90)%nat then ascii_of_nat (n + 32) else c.

Fixpoint ToLower (s : string) : string :=
  match s with
  | EmptyString => EmptyString
  | String c s' => String (lower c) (ToLower s')
  end.

(** The keys of the map [textExtensions]. *)
Definition textExtensions : list string := [
  ".txt"; ".md"; ".json"; ".xml"; ".html"; ".htm"; ".css"; ".js"; ".ts"; ".go";
  ".py"; ".java"; ".c"; ".cpp"; ".h"; ".hpp"; ".cs"; ".vb"; ".sql"; ".sh"; ".bat";
  ".ps1"; ".yaml"; ".yml"; ".toml"; ".ini"; ".cfg"; ".conf"; ".log"; ".csv"; ".tsv";
  ".svg"; ".vue"; ".jsx"; ".tsx"; ".svelte"
].

(** [IsTextFile] *)
Definition IsTextFile (filename : string) : bool :=
  let ext := ToLower (getFileExt filename) in
  existsb (String.eqb ext) textExtensions.

(** The seven names of [defaultShouldExclude]. *)
Definition legacy_names : list string :=
  ["obj"; "bin"; ".idea"; ".vs"; "My Project"; "Service References"; "Properties"].

(** ** config.go: the manager of the configuration

    The rules of a configuration are a Go slice, a window on an array
    that other slices may share: the package variable
    [defaultExcludeRules] is one such slice, and [ResetExcludeRules]
    and [NewManager] store that very slice in the configuration.  The
    arrays live on a heap; [append] writes in place while the capacity
    lasts and moves to a fresh array when it does not. *)

Module config.

(** A slice: the array it looks at, where it starts there, its length
    and its capacity. *)
Record slice := {
  s_array : nat;
  s_off : nat;
  s_len : nat;
  s_cap : nat
}.

(** The arrays of rules, by address. *)
Abbreviation heap := (gmap nat (list ExcludeRule)).

(** The zero value of [ExcludeRule], in the unused slots of an array. *)
Definition zero_rule : ExcludeRule :=
  {| Pattern := ""; rule_Type := ""; IsDir := false; Enabled := false; Comment := "" |}.

(** The elements of a slice. *)
Definition elements (h : heap) (s : slice) : list ExcludeRule :=
  take (s_len s) (drop (s_off s) (default [] (h !! s_array s))).

(** [s[i:j]] *)
Definition reslice (s : slice) (i j : nat) : slice :=
  {| s_array := s_array s; s_off := s_off s + i; s_len := j - i; s_cap := s_cap s - i |}.

(** The elements [xs] written into an array from position [pos] on. *)
Fixpoint write (l : list ExcludeRule) (pos : nat) (xs : list ExcludeRule)
    : list ExcludeRule :=
  match xs with
  | [] => l
  | x :: xs' => write (<[pos := x]> l) (S pos) xs'
  end.

(** A slice is sound on a heap when its window lies inside its array. *)
Definition sound (h : heap) (s : slice) : Prop :=
  s_len s ≤ s_cap s ∧
  ∃ l, h !! s_array s = Some l ∧ s_off s + s_cap s ≤ length l.

(** [Config] of types.go and [Manager]; a nil [config] is [None]. *)
Record Config := {
  LastZipPath : string;
  LastWorkDir : string;
  LastOutputDir : string;
  ExcludeRules : slice
}.

Record Manager := {
  configPath : string;
  config : option Config
}.

(** What [Save] hands to [os.WriteFile]: the configuration with the
    elements its rules have at that moment ([None] for a nil
    configuration, written as [null]). *)
Record Saved := {
  sv_LastZipPath : string;
  sv_LastWorkDir : string;
  sv_LastOutputDir : string;
  sv_ExcludeRules : list ExcludeRule
}.

(** The heap and the writes made to the configuration file so far. *)
Record world := {
  arrays : heap;
  writes : list (option Saved)
}.

(** The package variable [defaultExcludeRules]: a slice over the array
    at address 0, which the slice literal fills. *)
Definition default_slice : slice :=
  {| s_array := 0; s_off := 0; s_len := length defaultExcludeRules;
     s_cap := length defaultExcludeRules |}.

Definition initial_heap : heap := {[ 0 := defaultExcludeRules ]}.

Section Manager.

(** The growth policy of the runtime: the capacity of the new array for
    an old capacity and a needed length. *)
Variable growslice : nat → nat → nat.

(** Whether [os.WriteFile] succeeds on a path. *)
Variable os_WriteFile : string → bool.

(** [append(s, xs...)]: the elements to append are read first; they are
    written behind the slice when the capacity allows, and otherwise
    the slice moves to a fresh array. *)
Definition append (h : heap) (s : slice) (xs : list ExcludeRule) : heap * slice :=
  let n := s_len s + length xs in
  if (n <=? s_cap s)%nat then
    (alter (λ l, write l (s_off s + s_len s) xs) (s_array s) h,
     {| s_array := s_array s; s_off := s_off s; s_len := n; s_cap := s_cap s |})
  else
    let address := fresh (dom h) in
    let newcap := growslice (s_cap s) n in
    (<[address := elements h s ++ xs ++ replicate (newcap - n) zero_rule]> h,
     {| s_array := address; s_off := 0; s_len := n; s_cap := newcap |}).

(** [Save]: the write is recorded; the result tells whether it
    succeeded. *)
Definition Save (w : world) (m : Manager) : world * bool :=
  let data :=
    match config m with
    | None => None
    | Some cfg =>
        Some {| sv_LastZipPath := LastZipPath cfg;
                sv_LastWorkDir := LastWorkDir cfg;
                sv_LastOutputDir := LastOutputDir cfg;
                sv_ExcludeRules := elements (arrays w) (ExcludeRules cfg) |}
    end in
  ({| arrays := arrays w; writes := writes w ++ [data] |}, os_WriteFile (configPath m)).

Definition with_rules (m : Manager) (cfg : Config) (s : slice) : Manager :=
  {| configPath := configPath m;
     config := Some {| LastZipPath := LastZipPath cfg; LastWorkDir := LastWorkDir cfg;
                       LastOutputDir := LastOutputDir cfg; ExcludeRules := s |} |}.

(** [GetExcludeRules]: the default slice for a nil configuration or an
    empty rule list. *)
Definition GetExcludeRules (m : Manager) : slice :=
  match config m with
  | None => default_slice
  | Some cfg =>
      if (s_len (ExcludeRules cfg) =? 0)%nat then default_slice else ExcludeRules cfg
  end.

(** The methods that change the rules.  Each returns the new world, the
    manager, and whether it returned without an error; [None] is the
    panic of a nil configuration. *)

(** [SetExcludeRules] *)
Definition SetExcludeRules (w : world) (m : Manager) (rules : slice)
    : option (world * Manager * bool) :=
  match config m with
  | None => None
  | Some cfg =>
      let m' := with_rules m cfg rules in
      let '(w', ok) := Save w m' in Some (w', m', ok)
  end.

(** [AddExcludeRule] *)
Definition AddExcludeRule (w : world) (m : Manager) (rule : ExcludeRule)
    : option (world * Manager * bool) :=
  match config m with
  | None => None
  | Some cfg =>
      let '(h', s') := append (arrays w) (ExcludeRules cfg) [rule] in
      let m' := with_rules m cfg s' in
      let '(w', ok) := Save {| arrays := h'; writes := writes w |} m' in
      Some (w', m', ok)
  end.

(** [RemoveExcludeRule]: an index out of range returns at once. *)
Definition RemoveExcludeRule (w : world) (m : Manager) (index : Z)
    : option (world * Manager * bool) :=
  match config m with
  | None => None
  | Some cfg =>
      let s := ExcludeRules cfg in
      if (index <? 0)%Z || (Z.of_nat (s_len s) <=? index)%Z then Some (w, m, true)
      else
        let i := Z.to_nat index in
        let tail := elements (arrays w) (reslice s (i + 1) (s_len s)) in
        let '(h', s') := append (arrays w) (reslice s 0 i) tail in
        let m' := with_rules m cfg s' in
        let '(w', ok) := Save {| arrays := h'; writes := writes w |} m' in
        Some (w', m', ok)
  end.

(** [ResetExcludeRules] *)
Definition ResetExcludeRules (w : world) (m : Manager)
    : option (world * Manager * bool) :=
  match config m with
  | None => None
  | Some cfg =>
      let m' := with_rules m cfg default_slice in
      let '(w', ok) := Save w m' in Some (w', m', ok)
  end.

End Manager.

(** The rules a manager would hand out now. *)
Definition current_rules (w : world) (m : Manager) : list ExcludeRule :=
  elements (arrays w) (GetExcludeRules m).

End config.

(** A manager as [NewManager] leaves it on a start without a
    configuration file: the configuration holds the slice of the
    built-in rules itself. *)
Definition fresh_world : config.world :=
  {| config.arrays := config.initial_heap; config.writes := [] |}.

Definition fresh_manager : config.Manager :=
  {| config.configPath := "config.json";
     config.config := Some {| config.LastZipPath := ""; config.LastWorkDir := "";
                              config.LastOutputDir := "";
                              config.ExcludeRules := config.default_slice |} |}.

(** A growth policy that doubles the needed length. *)
Definition doubling (c n : nat) : nat := 2 * n.

Definition always_written (path : string) : bool := true.

(** A rule to add. *)
Definition tmp_rule : ExcludeRule :=
  {| Pattern := "*.tmp"; rule_Type := "glob"; IsDir := false; Enabled := true;
     Comment := "" |}.

(** A heap with an array of one rule beside the built-in rules, and a
    manager whose configuration looks at it. *)
Definition single_world : config.world :=
  {| config.arrays := <[1 := [tmp_rule]]> config.initial_heap; config.writes := [] |}.

Definition single_manager : config.Manager :=
  {| config.configPath := "config.json";
     config.config := Some {| config.LastZipPath := ""; config.LastWorkDir := "";
                              config.LastOutputDir := "";
                              config.ExcludeRules :=
                                {| config.s_array := 1; config.s_off := 0;
                                   config.s_len := 1; config.s_cap := 1 |} |} |}.

(** ** archive.go and diff.go: reading an entry, comparing two files *)

(** [ReadFileContent]: [None] is an error, for a path the listing does
    not have or an entry that cannot be opened or read. *)
Definition ReadFileContent (z : ZipReader) (relPath : string) : option string :=
  match ListFiles z !! relPath with
  | None => None
  | Some f => entry_Data f
  end.

(** [CompareFiles]; [os.ReadFile] reads the file system. *)
Definition CompareFiles `{DiffMatchPatch} (zipReader : ZipReader)
    (relPath workFilePath : string) (fs : FileSystem) : option TextDiff :=
  match ReadFileContent zipReader relPath with
  | None => None
  | Some oldContent =>
      match fs !! workFilePath with
      | None => None
      | Some newContent => Some (CompareTexts oldContent newContent)
      end
  end.

(** ** Go's strings and runes

    A Go string is a sequence of bytes; the conversion [[]rune(s)]
    reads it as UTF-8 and gives its code points, with U+FFFD for every
    byte that does not begin a well-formed sequence, and the conversion
    [string(runes)] writes the code points back as UTF-8. *)

Module utf8.

Definition RuneError : N := 65533.

Definition byte (c : ascii) : N := N_of_ascii c.

Definition between (lo b hi : N) : bool := ((lo <=? b) && (b <=? hi))%N.

(** The six low bits of a continuation byte. *)
Definition low6 (b : N) : N := N.land b 63.

(** [[]rune(s)]: the first byte tells the length of a sequence and the
    range of its second byte; a sequence cut short or with a byte out
    of range gives U+FFFD for its first byte alone. *)
Fixpoint runes (s : string) : list N :=
  match s with
  | EmptyString => []
  | String c0 s1 =>
      let b0 := byte c0 in
      if (b0 <? 128)%N then b0 :: runes s1
      else if between 194 b0 223 then
        match s1 with
        | String c1 s2 =>
            if between 128 (byte c1) 191
            then N.lor (N.shiftl (N.land b0 31) 6) (low6 (byte c1)) :: runes s2
            else RuneError :: runes s1
        | _ => RuneError :: runes s1
        end
      else if between 224 b0 239 then
        match s1 with
        | String c1 (String c2 s3) =>
            if between (if (b0 =? 224)%N then 160 else 128) (byte c1)
                       (if (b0 =? 237)%N then 159 else 191)
               && between 128 (byte c2) 191
            then N.lor (N.shiftl (N.land b0 15) 12)
                   (N.lor (N.shiftl (low6 (byte c1)) 6) (low6 (byte c2))) :: runes s3
            else RuneError :: runes s1
        | _ => RuneError :: runes s1
        end
      else if between 240 b0 244 then
        match s1 with
        | String c1 (String c2 (String c3 s4)) =>
            if between (if (b0 =? 240)%N then 144 else 128) (byte c1)
                       (if (b0 =? 244)%N then 143 else 191)
               && between 128 (byte c2) 191 && between 128 (byte c3) 191
            then N.lor (N.shiftl (N.land b0 7) 18)
                   (N.lor (N.shiftl (low6 (byte c1)) 12)
                      (N.lor (N.shiftl (low6 (byte c2)) 6) (low6 (byte c3)))) :: runes s4
            else RuneError :: runes s1
        | _ => RuneError :: runes s1
        end
      else RuneError :: runes s1
  end.

Definition char (n : N) : ascii := ascii_of_N n.

(** The bytes of one rune; a surrogate or a value above U+10FFFF is
    written as U+FFFD. *)
Definition encode (r : N) : string :=
  if (r <=? 127)%N then String (char r) ""
  else if (r <=? 2047)%N then
    String (char (N.lor 192 (N.shiftr r 6))) (String (char (N.lor 128 (low6 r))) "")
  else if (1114111 <? r)%N || between 55296 r 57343 then
    String (char 239) (String (char 191) (String (char 189) ""))
  else if (r <=? 65535)%N then
    String (char (N.lor 224 (N.shiftr r 12)))
      (String (char (N.lor 128 (low6 (N.shiftr r 6))))
         (String (char (N.lor 128 (low6 r))) ""))
  else
    String (char (N.lor 240 (N.shiftr r 18)))
      (String (char (N.lor 128 (low6 (N.shiftr r 12))))
         (String (char (N.lor 128 (low6 (N.shiftr r 6))))
            (String (char (N.lor 128 (low6 r))) ""))).

(** [string(runes)] *)
Fixpoint string_of_runes (rs : list N) : string :=
  match rs with
  | [] => ""
  | r :: rs' => encode r +:+ string_of_runes rs'
  end.

End utf8.

(** What [diffmatchpatch] answers on two texts with the same runes:
    [DiffMain] converts both texts to runes and, the runes being the
    same, returns at once, one equal span holding the runes written
    back as a string, or no span when there is no rune; and
    [DiffCleanupSemantic] has nothing to do on such a list. *)
Definition equal_answer (text : string) : list Diff :=
  match utf8.runes text with
  | [] => []
  | rs => [{| diff_Type := DiffEqual; Text := utf8.string_of_runes rs |}]
  end.

(** A differ that answers so on texts with the same runes and lists of
    at most one span, and as [other] does elsewhere. *)
Definition rune_differ (other : DiffMatchPatch) : DiffMatchPatch := {|
  DiffMain text1 text2 checklines :=
    if bool_decide (utf8.runes text1 = utf8.runes text2) then equal_answer text1
    else DiffMain text1 text2 checklines;
  DiffCleanupSemantic diffs :=
    match diffs with
    | [] | [_] => diffs
    | _ => DiffCleanupSemantic diffs
    end
|}.

(** The line feed as a string. *)
Definition LF : string := String "010" "".
Example Split_empty : strings.Split "" "/" = [""].
Proof. reflexivity. Qed.

Example Split_path : strings.Split "a/b//c.txt" "/" = ["a"; "b"; ""; "c.txt"].
Proof. reflexivity. Qed.

Example Base_examples :
  filepath.Base "dir/app.log" = "app.log" ∧ filepath.Base "a/b/" = "b" ∧
  filepath.Base "" = "." ∧ filepath.Base "///" = "/" ∧ filepath.Base "x" = "x".
Proof. repeat split; reflexivity. Qed.

Example Ext_examples :
  filepath.Ext "a/b.c/d.vbproj" = ".vbproj" ∧ filepath.Ext "a.b/c" = "" ∧
  filepath.Ext "x.tar.gz" = ".gz" ∧ filepath.Ext "noext" = "".
Proof. repeat split; reflexivity. Qed.

Example ReplaceAll_examples :
  strings.ReplaceAll "aaa" "aa" "b" = "ba" ∧
  strings.ReplaceAll "x.y.z" "." "::" = "x::y::z" ∧
  strings.ReplaceAll "ab" "" "-" = "-a-b-".
Proof. repeat split; reflexivity. Qed.

Example globToRegex_examples :
  globToRegex "*.log" = "^[^/]*\.log$" ∧
  globToRegex "**/test" = "^.*/test$" ∧
  globToRegex "a?c" = "^a.c$" ∧
  globToRegex "***" = "^.*[^/]*$" ∧
  globToRegex "My Project" = "^My Project$" ∧
  globToRegex "[x]\*" = "^\[x\]\\[^/]*$".
Proof. repeat split; reflexivity. Qed.

Example defaultShouldExclude_examples :
  defaultShouldExclude "src/bin/x.dll" = true ∧
  defaultShouldExclude "a/b.csproj" = true ∧
  defaultShouldExclude "a/b.vbproj.user" = true ∧
  defaultShouldExclude "a/b.txt" = false.
Proof. repeat split; reflexivity. Qed.

Example glob_log_examples :
  glob_matches "*.log" "app.log" = true ∧
  glob_matches "*.log" (filepath.Base "dir/app.log") = true ∧
  glob_matches "*.log" "app.log.bak" = false ∧
  glob_matches "**/test" "a/b/test" = true ∧
  glob_matches "*/test" "a/b/test" = false ∧
  glob_matches "*" "a/b" = false.
Proof. repeat split; reflexivity. Qed.

Example regexp_unanchored :
  (λ re, MatchString re "cabinbin") <$> regexp_Compile "bin" = Some true ∧
  (λ re, MatchString re "cabinbin") <$> regexp_Compile "^bin" = Some false ∧
  (λ re, MatchString re "cabinbin") <$> regexp_Compile "n$" = Some true ∧
  regexp_Compile "a**" = None ∧ regexp_Compile "*a" = None ∧ regexp_Compile "a\" = None.
Proof. repeat split; reflexivity. Qed.

(** ** Splitting and joining paths *)

Section SplitJoin.

Variable sep : ascii.

Lemma Split_nonempty s : strings.Split s sep ≠ [].
Proof.
  destruct s as [|c s]; simpl; [done|].
  destruct (Ascii.eqb c sep); [done|].
  destruct (strings.Split s sep); done.
Qed.

Lemma Split_no_sep w : occurs sep w = false → strings.Split w sep = [w].
Proof.
  unfold occurs. induction w as [|c w IH]; simpl; [done|].
  intros Hc. apply orb_false_iff in Hc as [Hc Hw].
  rewrite Ascii.eqb_sym, Hc, (IH Hw). done.
Qed.

Lemma Split_app_sep w rest :
  occurs sep w = false →
  strings.Split (w +:+ String sep rest) sep = w :: strings.Split rest sep.
Proof.
  unfold occurs. induction w as [|c w IH]; simpl.
  - intros _. by rewrite Ascii.eqb_refl.
  - intros Hc. apply orb_false_iff in Hc as [Hc Hw].
    rewrite Ascii.eqb_sym, Hc, (IH Hw). done.
Qed.

(** Splitting a path put together from separator-free segments gives
    the segments back. *)
Lemma Split_Join segs :
  segs ≠ [] →
  Forall (λ w, occurs sep w = false) segs →
  strings.Split (strings.Join segs (String sep "")) sep = segs.
Proof.
  induction segs as [|w ws IH]; [done|].
  intros _ Hall. inversion Hall as [|? ? Hw Hws]; subst.
  destruct ws as [|w' ws'].
  - simpl. by apply Split_no_sep.
  - change (strings.Join (w :: w' :: ws') (String sep ""))
      with (w +:+ String sep (strings.Join (w' :: ws') (String sep ""))).
    rewrite Split_app_sep by done. f_equal. by apply IH.
Qed.

End SplitJoin.

(** ** The exclusion matcher *)

Section MatcherProperties.

Context `{RegexpEngine}.

Lemma rule_compile_rule r : rule (compile_rule r) = r.
Proof. unfold compile_rule. by destruct (String.eqb _ _). Qed.

(** The rules are OR'd: the matcher excludes a path exactly when one of
    its rules hits it. *)
Lemma ShouldExclude_rules_spec rs path isDir :
  ShouldExclude_rules (compile rs) path isDir = existsb (λ r, rule_hits r path isDir) rs.
Proof.
  induction rs as [|r rs IH]; simpl; [done|].
  unfold rule_hits at 1.
  destruct (Enabled r); simpl; [|done].
  unfold pathContainsDir. rewrite rule_compile_rule.
  destruct (regex (compile_rule r)) as [re|]; simpl; [|done].
  destruct (IsDir r), isDir; simpl; rewrite IH;
    by repeat match goal with |- context [if ?b then _ else _] => destruct b end.
Qed.

Lemma ShouldExclude_spec rs path isDir :
  ShouldExclude (NewExcludeMatcher rs) path isDir = existsb (λ r, rule_hits r path isDir) rs.
Proof. apply ShouldExclude_rules_spec. Qed.

Lemma rule_hits_compiled_ok r path isDir :
  rule_hits r path isDir = compiled_ok r && rule_hits r path isDir.
Proof.
  unfold rule_hits, compiled_ok. destruct (Enabled r); simpl; [|done].
  destruct (regex (compile_rule r)) as [re|]; [|by rewrite andb_false_r].
  rewrite (bool_decide_eq_true_2 (is_Some (Some re))); [done|by eexists].
Qed.

Lemma existsb_filter {A} (f g : A → bool) l :
  existsb g (List.filter f l) = existsb (λ x, f x && g x) l.
Proof.
  induction l as [|x l IH]; simpl; [done|].
  destruct (f x); simpl; by rewrite IH.
Qed.

Lemma compile_length rs : length (compile rs) = length (List.filter Enabled rs).
Proof.
  induction rs as [|r rs IH]; simpl; [done|].
  destruct (Enabled r); simpl; by rewrite IH.
Qed.

(** C8. A rule whose pattern fails to compile is inert: the matcher is
    built all the same, with one compiled rule per enabled rule, and
    for every path and either hint [ShouldExclude] answers what the
    matcher built from the successfully compiled rules alone answers. *)
Theorem C8_failed_pattern_inert rs path isDir :
  length (compiledRules (NewExcludeMatcher rs)) = length (List.filter Enabled rs) ∧
  ShouldExclude (NewExcludeMatcher rs) path isDir
  = ShouldExclude (NewExcludeMatcher (List.filter compiled_ok rs)) path isDir.
Proof.
  split; [apply compile_length|].
  rewrite !ShouldExclude_spec, existsb_filter.
  induction rs as [|r rs IH]; simpl; [done|].
  by rewrite IH, <- (rule_hits_compiled_ok r path isDir).
Qed.

Lemma dir_rule_hits (rs : list ExcludeRule) (r : ExcludeRule) re path (isDir : bool) :
  In r rs → Enabled r = true → IsDir r = true → regex (compile_rule r) = Some re →
  existsb (MatchString re)
    (if isDir then strings.Split path "/" else removelast (strings.Split path "/")) = true →
  ShouldExclude (NewExcludeMatcher rs) path isDir = true.
Proof.
  intros Hin Hen Hdir Hre Hm. rewrite ShouldExclude_spec.
  apply existsb_exists. exists r. split; [done|].
  unfold rule_hits. by rewrite Hen, Hre, Hdir.
Qed.

(** C3. A directory rule propagates: on a path made of the segments
    [segs], an enabled directory-scoped rule whose expression matches
    the segment [seg] excludes the path as a file when [seg] is one of
    its ancestor segments (all but the last), and as a directory when
    [seg] is any of its segments. *)
Theorem C3_directory_rule_propagates (rs : list ExcludeRule) (r : ExcludeRule) re
    (segs : list string) (seg : string) :
  In r rs → Enabled r = true → IsDir r = true →
  regex (compile_rule r) = Some re →
  segs ≠ [] → Forall segment segs →
  MatchString re seg = true →
  (In seg (removelast segs) →
     ShouldExclude (NewExcludeMatcher rs) (strings.Join segs "/") false = true) ∧
  (In seg segs →
     ShouldExclude (NewExcludeMatcher rs) (strings.Join segs "/") true = true).
Proof.
  intros Hin Hen Hdir Hre Hne Hsegs Hm.
  split; intros Hseg; eapply dir_rule_hits; try done;
    rewrite (Split_Join "/" segs Hne Hsegs); apply existsb_exists; eauto.
Qed.

(** C10. A file is tested on its strict ancestors only: when every
    enabled rule is directory-scoped, a path made of the segments
    [segs], taken as a file, is excluded exactly when some enabled rule
    that compiled matches one of the segments before the last; the last
    segment, the file's own name, plays no part. *)
Theorem C10_file_name_not_tested (rs : list ExcludeRule) (segs : list string) :
  Forall (λ r, Enabled r = true → IsDir r = true) rs →
  segs ≠ [] → Forall segment segs →
  ShouldExclude (NewExcludeMatcher rs) (strings.Join segs "/") false
  = existsb (λ r, Enabled r &&
               match regex (compile_rule r) with
               | Some re => existsb (MatchString re) (removelast segs)
               | None => false
               end) rs.
Proof.
  intros Hall Hne Hsegs. rewrite ShouldExclude_spec.
  induction Hall as [|r rs Hr Hrs IH]; simpl; [done|].
  rewrite IH. f_equal.
  unfold rule_hits. destruct (Enabled r); simpl; [|done].
  rewrite (Hr eq_refl). destruct (regex (compile_rule r)); [|done].
  by rewrite (Split_Join "/" segs Hne Hsegs).
Qed.

End MatcherProperties.

Lemma C3_directory_rule_propagates_witness :
  ShouldExclude (NewExcludeMatcher defaultExcludeRules) "src/bin/Debug/app.dll" false = true ∧
  ShouldExclude (NewExcludeMatcher defaultExcludeRules) "src/bin" true = true.
Proof.
  split.
  - refine (proj1 (C3_directory_rule_propagates (H := re2_engine) defaultExcludeRules bin_rule
             {| re2.bol := true; re2.eol := true;
                re2.pieces := [ {| re2.p_atom := re2.Lit "b"; re2.p_star := false |};
                                {| re2.p_atom := re2.Lit "i"; re2.p_star := false |};
                                {| re2.p_atom := re2.Lit "n"; re2.p_star := false |} ] |}
             ["src"; "bin"; "Debug"; "app.dll"] "bin" _ _ _ _ _ _ _) _);
      try reflexivity; simpl; auto; try discriminate.
    repeat constructor.
  - refine (proj2 (C3_directory_rule_propagates (H := re2_engine) defaultExcludeRules bin_rule
             {| re2.bol := true; re2.eol := true;
                re2.pieces := [ {| re2.p_atom := re2.Lit "b"; re2.p_star := false |};
                                {| re2.p_atom := re2.Lit "i"; re2.p_star := false |};
                                {| re2.p_atom := re2.Lit "n"; re2.p_star := false |} ] |}
             ["src"; "bin"] "bin" _ _ _ _ _ _ _) _);
      try reflexivity; simpl; auto; try discriminate.
    repeat constructor.
Defined.

Lemma C10_file_name_not_tested_witness :
  ShouldExclude (NewExcludeMatcher [bin_rule]) "bin" false = false ∧
  ShouldExclude (NewExcludeMatcher [bin_rule]) "src/bin" false = false.
Proof.
  split.
  - refine (eq_trans (C10_file_name_not_tested (H := re2_engine) [bin_rule] ["bin"] _ _ _) _).
    + repeat constructor.
    + discriminate.
    + repeat constructor.
    + reflexivity.
  - refine (eq_trans (C10_file_name_not_tested (H := re2_engine) [bin_rule] ["src"; "bin"] _ _ _) _).
    + repeat constructor.
    + discriminate.
    + repeat constructor.
    + reflexivity.
Defined.

(** The directory rule for [bin] of the built-in set: it excludes the
    directory [bin] wherever it lies, and every file that has a [bin]
    among its ancestor directories. *)
Lemma bin_rule_excludes (dirs : list string) (name : string) :
  Forall segment dirs → segment name → In "bin" dirs →
  ShouldExclude (NewExcludeMatcher defaultExcludeRules)
    (strings.Join (dirs ++ [name]) "/") false = true ∧
  ShouldExclude (NewExcludeMatcher defaultExcludeRules)
    (strings.Join dirs "/") true = true.
Proof.
  intros Hdirs Hname Hbin.
  assert (Hre : regex (compile_rule bin_rule)
    = Some {| re2.bol := true; re2.eol := true;
              re2.pieces := [ {| re2.p_atom := re2.Lit "b"; re2.p_star := false |};
                              {| re2.p_atom := re2.Lit "i"; re2.p_star := false |};
                              {| re2.p_atom := re2.Lit "n"; re2.p_star := false |} ] |})
    by reflexivity.
  split.
  - eapply (dir_rule_hits defaultExcludeRules bin_rule); try exact Hre; try reflexivity.
    { simpl. auto. }
    rewrite (Split_Join "/" (dirs ++ [name])).
    + rewrite removelast_last. apply existsb_exists. exists "bin". by split.
    + by destruct dirs.
    + apply Forall_app. split; [done|by constructor].
  - eapply (dir_rule_hits defaultExcludeRules bin_rule); try exact Hre; try reflexivity.
    { simpl. auto. }
    rewrite (Split_Join "/" dirs); [|by destruct dirs|done].
    apply existsb_exists. exists "bin". by split.
Qed.

(** ** The comparison loops *)

Section RangeProperties.

Context `{Host}.

Lemma range_lookup {V} (m : gmap string V) k v : (k, v) ∈ range m ↔ m !! k = Some v.
Proof. rewrite (range_perm V m). apply elem_of_map_to_list. Qed.

Lemma range_NoDup {V} (m : gmap string V) : NoDup (range m).*1.
Proof. rewrite (range_perm V m). apply NoDup_fst_map_to_list. Qed.

Lemma range_length {V} (m : gmap string V) : length (range m) = size m.
Proof. rewrite (range_perm V m). apply length_map_to_list. Qed.

Lemma range_keys {V} (m : gmap string V) k : k ∈ (range m).*1 ↔ is_Some (m !! k).
Proof.
  rewrite list_elem_of_fmap. split.
  - intros [[k' v] [-> Hin]]. apply range_lookup in Hin. by eexists.
  - intros [v Hv]. exists (k, v). split; [done|]. by apply range_lookup.
Qed.

End RangeProperties.

Section KeyedItems.

Context {E : Type}.
Variable delta : string * E → list DiffItem.
Hypothesis delta_key : ∀ e it, it ∈ delta e → RelPath it = e.1.

Lemma filter_delta e p :
  List.filter (λ it, String.eqb (RelPath it) p) (delta e)
  = if String.eqb e.1 p then delta e else [].
Proof using delta_key.
  specialize (delta_key e). induction (delta e) as [|it l IH]; simpl.
  - by destruct (String.eqb e.1 p).
  - rewrite (delta_key it) by left.
    rewrite IH by (intros; apply delta_key; by right).
    by destruct (String.eqb e.1 p).
Qed.

Lemma filter_flat_map_absent (l : list (string * E)) p :
  p ∉ l.*1 →
  List.filter (λ it, String.eqb (RelPath it) p) (flat_map delta l) = [].
Proof using delta_key.
  induction l as [|e l IH]; simpl; [done|].
  intros Hp. apply not_elem_of_cons in Hp as [Hne Hl].
  rewrite List.filter_app, filter_delta, (IH Hl).
  destruct (String.eqb_spec e.1 p); [congruence|done].
Qed.

Lemma filter_flat_map_present (l : list (string * E)) p v :
  NoDup l.*1 → (p, v) ∈ l →
  List.filter (λ it, String.eqb (RelPath it) p) (flat_map delta l) = delta (p, v).
Proof using delta_key.
  induction l as [|e l IH]; simpl; [by intros _ ?%elem_of_nil|].
  intros [Hne Hnd]%NoDup_cons Hin. rewrite List.filter_app, filter_delta.
  apply elem_of_cons in Hin as [<-|Hin].
  - simpl. rewrite String.eqb_refl, filter_flat_map_absent by done.
    by rewrite app_nil_r.
  - destruct (String.eqb_spec e.1 p) as [Heq|_].
    + destruct Hne. rewrite Heq. apply list_elem_of_fmap. by exists (p, v).
    + by apply IH.
Qed.

End KeyedItems.

Section CompareProperties.

Context `{RegexpEngine} `{Host}.

Variable c : Comparer.
Variable fs : FileSystem.

Lemma archive_turn workFiles total :
  turn c (compare_archive_entry c fs workFiles total) (archive_entry_items c fs workFiles) total.
Proof.
  intros st [relPath zipFile].
  unfold compare_archive_entry, archive_entry_items; simpl.
  destruct (shouldExclude c relPath false); [by rewrite app_nil_r|].
  destruct (workFiles !! relPath) as [w|]; [|done].
  destruct (getZipFileHash zipFile) as [zh|]; [|by rewrite app_nil_r].
  destruct (fileHash fs w) as [wh|]; [|by rewrite app_nil_r].
  destruct (String.eqb zh wh); simpl; [by rewrite app_nil_r|done].
Qed.

Lemma work_turn zipFiles total :
  turn c (compare_work_entry c zipFiles total) (work_entry_items c zipFiles) total.
Proof.
  intros st [relPath w].
  unfold compare_work_entry, work_entry_items, filepath.ToSlash; simpl.
  destruct (shouldExclude c relPath false); [by rewrite app_nil_r|].
  destruct (zipFiles !! relPath); [by rewrite app_nil_r|done].
Qed.

Lemma loop_spec {E} step (delta : string * E → list DiffItem) total :
  turn c step delta total →
  ∀ l st,
    let st' := fold_left step l st in
    Items (result st') = Items (result st) ++ flat_map delta l ∧
    processed st' = processed st + length (examined c l.*1) ∧
    calls st' = calls st ++
      (if OnProgress c then progress_calls (processed st) total (examined c l.*1) else []).
Proof.
  intros Hturn. induction l as [|e l IH]; intros st; simpl.
  - split; [by rewrite app_nil_r|]. split; [lia|].
    destruct (OnProgress c); by rewrite app_nil_r.
  - destruct (Hturn st e) as (Hi & Hp & Hc).
    destruct (IH (step st e)) as (Hi' & Hp' & Hc'). simpl in *.
    rewrite Hi', Hp', Hc', Hi, Hp, Hc. unfold examined; simpl.
    rewrite <- app_assoc. split; [done|].
    destruct (shouldExclude c e.1 false); simpl; [done|].
    split; [by rewrite Nat.add_succ_r|]. unfold emitProgress.
    destruct (OnProgress c); [|done]. by rewrite <- app_assoc.
Qed.

Lemma archive_items_key workFiles e it :
  it ∈ archive_entry_items c fs workFiles e → RelPath it = e.1.
Proof.
  unfold archive_entry_items.
  repeat case_match; intros Hin;
    repeat (apply elem_of_cons in Hin as [->|Hin]); try done;
    by apply elem_of_nil in Hin.
Qed.

Lemma work_items_key zipFiles e it :
  it ∈ work_entry_items c zipFiles e → RelPath it = e.1.
Proof.
  unfold work_entry_items.
  repeat case_match; intros Hin;
    repeat (apply elem_of_cons in Hin as [->|Hin]); try done;
    by apply elem_of_nil in Hin.
Qed.

(** The state both loops leave. *)
Lemma compare_listings_spec zipFiles workFiles :
  let st := compare_listings c fs zipFiles workFiles in
  let total := size zipFiles + size workFiles in
  let first := examined c (range zipFiles).*1 in
  let second := examined c (range workFiles).*1 in
  Items (result st)
    = flat_map (archive_entry_items c fs workFiles) (range zipFiles)
      ++ flat_map (work_entry_items c zipFiles) (range workFiles) ∧
  calls st
    = (if OnProgress c
       then progress_calls 0 total first ++ progress_calls (length first) total second
       else []).
Proof.
  unfold compare_listings. simpl.
  set (total := size zipFiles + size workFiles).
  set (st0 := {| result := _; processed := 0; calls := [] |}).
  destruct (loop_spec _ _ total (archive_turn workFiles total) (range zipFiles) st0)
    as (Hi & Hp & Hc).
  set (st1 := fold_left _ (range zipFiles) st0) in *.
  destruct (loop_spec _ _ total (work_turn zipFiles total) (range workFiles) st1)
    as (Hi' & Hp' & Hc').
  simpl in *. rewrite Hi', Hc', Hi, Hc, Hp. simpl.
  split; [done|]. by destruct (OnProgress c).
Qed.

(** [Compare] succeeds as soon as the archive opens and the walk ends
    without an error. *)
Lemma Compare_ok z workFiles dirs :
  NewZipReader (zipPath c) = Ok z →
  getAllFilesAndDirs (workDir c) = (workFiles, dirs, true) →
  Compare c fs = (Ok (result (compare_listings c fs (ListFiles z) workFiles)),
                  calls (compare_listings c fs (ListFiles z) workFiles)).
Proof. intros Hz Hw. unfold Compare. by rewrite Hz, Hw. Qed.

Lemma items_for_archive_only zipFiles workFiles p zf :
  zipFiles !! p = Some zf → workFiles !! p = None →
  items_for p (result (compare_listings c fs zipFiles workFiles))
  = archive_entry_items c fs workFiles (p, zf).
Proof.
  intros Hz Hw. unfold items_for.
  destruct (compare_listings_spec zipFiles workFiles) as [-> _].
  rewrite List.filter_app.
  rewrite (filter_flat_map_present _ (archive_items_key workFiles) _ p zf);
    [|apply range_NoDup|by apply range_lookup].
  rewrite (filter_flat_map_absent _ (work_items_key zipFiles));
    [by rewrite app_nil_r|].
  rewrite range_keys, Hw. by intros [? ?].
Qed.

Lemma items_for_work_only zipFiles workFiles p w :
  zipFiles !! p = None → workFiles !! p = Some w →
  items_for p (result (compare_listings c fs zipFiles workFiles))
  = work_entry_items c zipFiles (p, w).
Proof.
  intros Hz Hw. unfold items_for.
  destruct (compare_listings_spec zipFiles workFiles) as [-> _].
  rewrite List.filter_app.
  rewrite (filter_flat_map_absent _ (archive_items_key workFiles)).
  - apply (filter_flat_map_present _ (work_items_key zipFiles));
      [apply range_NoDup|by apply range_lookup].
  - rewrite range_keys, Hz. by intros [? ?].
Qed.

Lemma items_for_both zipFiles workFiles p zf w :
  zipFiles !! p = Some zf → workFiles !! p = Some w →
  items_for p (result (compare_listings c fs zipFiles workFiles))
  = archive_entry_items c fs workFiles (p, zf).
Proof.
  intros Hz Hw. unfold items_for.
  destruct (compare_listings_spec zipFiles workFiles) as [-> _].
  rewrite List.filter_app.
  rewrite (filter_flat_map_present _ (archive_items_key workFiles) _ p zf);
    [|apply range_NoDup|by apply range_lookup].
  rewrite (filter_flat_map_present _ (work_items_key zipFiles) _ p w);
    [|apply range_NoDup|by apply range_lookup].
  unfold work_entry_items; simpl. rewrite Hz.
  destruct (shouldExclude c p false); by rewrite app_nil_r.
Qed.

End CompareProperties.

Lemma progress_calls_app start total a b :
  progress_calls start total (a ++ b)
  = progress_calls start total a ++ progress_calls (start + length a) total b.
Proof.
  revert start. induction a as [|p a IH]; intros start; simpl.
  - by rewrite Nat.add_0_r.
  - by rewrite IH, Nat.add_succ_r.
Qed.

Lemma progress_calls_Total start total ps :
  Forall (λ e, Total e = total) (progress_calls start total ps).
Proof. revert start. induction ps; intros start; simpl; constructor; auto. Qed.

Lemma progress_calls_Current start total ps :
  map Current (progress_calls start total ps) = seq (S start) (length ps).
Proof. revert start. induction ps as [|p ps IH]; intros start; simpl; [done|]. by rewrite IH. Qed.

Lemma progress_calls_Message start total ps :
  map Message (progress_calls start total ps) = map (λ p, "检查: " +:+ p) ps.
Proof. revert start. induction ps as [|p ps IH]; intros start; simpl; [done|]. by rewrite IH. Qed.

Lemma progress_calls_length start total ps :
  length (progress_calls start total ps) = length ps.
Proof. revert start. induction ps as [|p ps IH]; intros start; simpl; [done|]. by rewrite IH. Qed.

Section CompareClaims.

Context `{RegexpEngine} `{Host}.

(** C1, as amended.  When the archive opens and the walk succeeds,
    [Compare] returns a result in which, for a relative path [p]:
    - if [p] is not excluded, is in the archive listing and absent from
      the working-directory listing, the items for [p] are exactly one
      Deleted item;
    - if [p] is not excluded, is in the working-directory listing and
      absent from the archive listing, exactly one Added item, whose
      source is the working-directory path;
    - if [p] is not excluded, is in both listings, and the two MD5
      digests are computed and differ, exactly one Modified item, whose
      source is the working-directory path;
    - if [p] is in both listings with the same bytes on both sides,
      no item at all. *)
Theorem C1_classification (c : Comparer) (fs : FileSystem) z workFiles dirs p :
  NewZipReader (zipPath c) = Ok z →
  getAllFilesAndDirs (workDir c) = (workFiles, dirs, true) →
  ∃ res calls, Compare c fs = (Ok res, calls) ∧
    (∀ zf, shouldExclude c p false = false →
       ListFiles z !! p = Some zf → workFiles !! p = None →
       items_for p res = [deleted_item p]) ∧
    (∀ w, shouldExclude c p false = false →
       ListFiles z !! p = None → workFiles !! p = Some w →
       items_for p res = [added_item p w]) ∧
    (∀ zf w zipHash workHash, shouldExclude c p false = false →
       ListFiles z !! p = Some zf → workFiles !! p = Some w →
       getZipFileHash zf = Some zipHash → fileHash fs w = Some workHash →
       zipHash ≠ workHash →
       items_for p res = [modified_item p w]) ∧
    (∀ zf w data,
       ListFiles z !! p = Some zf → workFiles !! p = Some w →
       entry_Data zf = Some data → fs !! w = Some data →
       items_for p res = []).
Proof.
  intros Hz Hw. eexists _, _. split; [by apply (Compare_ok c fs z workFiles dirs)|].
  repeat split.
  - intros zf Hex Hzf Hwf. rewrite (items_for_archive_only c fs _ _ p zf) by done.
    unfold archive_entry_items; simpl. by rewrite Hex, Hwf.
  - intros w Hex Hzf Hwf. rewrite (items_for_work_only c fs _ _ p w) by done.
    unfold work_entry_items; simpl. by rewrite Hex, Hzf.
  - intros zf w zh wh Hex Hzf Hwf Hzh Hwh Hne.
    rewrite (items_for_both c fs _ _ p zf w) by done.
    unfold archive_entry_items; simpl. rewrite Hex, Hwf, Hzh, Hwh.
    by destruct (String.eqb_spec zh wh).
  - intros zf w data Hzf Hwf Hd Hfs.
    rewrite (items_for_both c fs _ _ p zf w) by done.
    unfold archive_entry_items, getZipFileHash, fileHash; simpl.
    rewrite Hwf, Hd, Hfs; simpl. rewrite String.eqb_refl; simpl.
    by destruct (shouldExclude c p false).
Qed.

(** C5. A path in both listings for which the digest of either side
    cannot be computed yields no item, and the run succeeds all the
    same: every entry of both listings still contributes its items. *)
Theorem C5_hash_failure_skipped (c : Comparer) (fs : FileSystem) z workFiles dirs p zf w :
  NewZipReader (zipPath c) = Ok z →
  getAllFilesAndDirs (workDir c) = (workFiles, dirs, true) →
  ListFiles z !! p = Some zf → workFiles !! p = Some w →
  getZipFileHash zf = None ∨ fileHash fs w = None →
  ∃ res calls, Compare c fs = (Ok res, calls) ∧
    items_for p res = [] ∧
    Items res
    = flat_map (archive_entry_items c fs workFiles) (range (ListFiles z))
      ++ flat_map (work_entry_items c (ListFiles z)) (range workFiles).
Proof.
  intros Hz Hw Hzf Hwf Hfail. eexists _, _. split; [by apply (Compare_ok c fs z workFiles dirs)|]. split.
  - rewrite (items_for_both c fs _ _ p zf w) by done.
    unfold archive_entry_items; simpl. rewrite Hwf.
    destruct (shouldExclude c p false); [done|].
    destruct Hfail as [-> | ->]; [done|]. by destruct (getZipFileHash zf).
  - apply compare_listings_spec.
Qed.

(** C6. Every call of the progress callback carries the total
    [|archive listing| + |working-directory listing|]; the running
    counter of the calls is 1, 2, 3, ...; and the calls are, in order,
    one for each examined (not excluded) path of the archive listing
    and then one for each examined path of the working-directory
    listing, with a message that names the path.  Without a callback
    there is no call. *)
Theorem C6_progress_calls (c : Comparer) (fs : FileSystem) z workFiles dirs :
  NewZipReader (zipPath c) = Ok z →
  getAllFilesAndDirs (workDir c) = (workFiles, dirs, true) →
  ∃ res calls, Compare c fs = (Ok res, calls) ∧
    Forall (λ e, Total e = size (ListFiles z) + size workFiles) calls ∧
    map Current calls = seq 1 (length calls) ∧
    (OnProgress c = true →
       map Message calls
       = map (λ p, "检查: " +:+ p)
           (examined c (range (ListFiles z)).*1 ++ examined c (range workFiles).*1)) ∧
    (OnProgress c = false → calls = []).
Proof.
  intros Hz Hw. eexists _, _. split; [by apply (Compare_ok c fs z workFiles dirs)|].
  destruct (compare_listings_spec c fs (ListFiles z) workFiles) as [_ ->].
  rewrite <- (progress_calls_app 0).
  destruct (OnProgress c).
  - split; [apply progress_calls_Total|].
    split; [by rewrite progress_calls_Current, progress_calls_length|].
    split; [intros _; apply progress_calls_Message|done].
  - repeat split; done.
Qed.

End CompareClaims.

(** The small world satisfies what the statements about [Compare]
    assume. *)
Lemma demo_opens : NewZipReader (zipPath demo_comparer) = Ok demo_reader.
Proof. reflexivity. Qed.

Lemma demo_walks :
  getAllFilesAndDirs (workDir demo_comparer) = (demo_workFiles, demo_dirs, true).
Proof. vm_compute. reflexivity. Qed.

Lemma C1_classification_witness :
  ∃ res, (Compare demo_comparer demo_fs).1 = Ok res ∧
    items_for "b.txt" res = [deleted_item "b.txt"] ∧
    items_for "c.txt" res = [added_item "c.txt" "work/c.txt"] ∧
    items_for "m.txt" res = [modified_item "m.txt" "work/m.txt"] ∧
    items_for "a.txt" res = [].
Proof.
  destruct (C1_classification demo_comparer demo_fs demo_reader demo_workFiles
              demo_dirs "b.txt" demo_opens demo_walks) as (res & calls & Hrun & Hdel & _).
  destruct (C1_classification demo_comparer demo_fs demo_reader demo_workFiles
              demo_dirs "c.txt" demo_opens demo_walks) as (res1 & calls1 & Hrun1 & _ & Hadd & _).
  destruct (C1_classification demo_comparer demo_fs demo_reader demo_workFiles
              demo_dirs "m.txt" demo_opens demo_walks) as (res2 & calls2 & Hrun2 & _ & _ & Hmod & _).
  destruct (C1_classification demo_comparer demo_fs demo_reader demo_workFiles
              demo_dirs "a.txt" demo_opens demo_walks) as (res3 & calls3 & Hrun3 & _ & _ & _ & Hsame).
  rewrite Hrun in Hrun1, Hrun2, Hrun3.
  injection Hrun1 as <- _. injection Hrun2 as <- _. injection Hrun3 as <- _.
  exists res. split; [by rewrite Hrun|].
  split; [eapply Hdel; reflexivity|].
  split; [eapply Hadd; reflexivity|].
  split; [eapply Hmod; [reflexivity..|discriminate]|].
  eapply Hsame; reflexivity.
Defined.

(** C1, as it was stated, fails on an excluded path: [bin/app.dll] is in
    both listings with different digests, and no item is emitted. *)
Lemma C1_counterexample :
  ListFiles demo_reader !! "bin/app.dll"
    = Some {| Name := "root/bin/app.dll"; mode_IsDir := false; entry_Data := Some "v1" |} ∧
  demo_workFiles !! "bin/app.dll" = Some "work/bin/app.dll" ∧
  getZipFileHash {| Name := "root/bin/app.dll"; mode_IsDir := false; entry_Data := Some "v1" |}
    = Some "v1" ∧
  fileHash demo_fs "work/bin/app.dll" = Some "v2" ∧
  ∃ res calls, Compare demo_comparer demo_fs = (Ok res, calls) ∧
    items_for "bin/app.dll" res = [].
Proof. repeat split. eexists _, _. split; reflexivity. Qed.

Lemma C5_hash_failure_skipped_witness :
  ∃ res, (Compare demo_comparer demo_fs).1 = Ok res ∧ items_for "locked.txt" res = [].
Proof.
  destruct (C5_hash_failure_skipped demo_comparer demo_fs demo_reader demo_workFiles
              demo_dirs "locked.txt"
              {| Name := "root/locked.txt"; mode_IsDir := false; entry_Data := None |}
              "work/locked.txt" demo_opens demo_walks eq_refl eq_refl (or_introl eq_refl))
    as (res & calls & Hrun & Hnone & _).
  exists res. split; [by rewrite Hrun|done].
Defined.

Lemma C6_progress_calls_witness :
  ∃ calls, (Compare demo_comparer demo_fs).2 = calls ∧
    Forall (λ e, Total e = size (ListFiles demo_reader) + size demo_workFiles) calls ∧
    map Current calls = seq 1 (length calls).
Proof.
  destruct (C6_progress_calls demo_comparer demo_fs demo_reader demo_workFiles
              demo_dirs demo_opens demo_walks) as (res & calls & Hrun & Htotal & Hcur & _).
  exists calls. split; [by rewrite Hrun|]. split; [exact Htotal|exact Hcur].
Defined.

(** The run on the small world, in full: three items for ten listed
    paths and eight calls of the callback. *)
Example Compare_demo :
  Compare demo_comparer demo_fs
  = (Ok {| Items := [modified_item "m.txt" "work/m.txt"; deleted_item "b.txt";
                     added_item "c.txt" "work/c.txt"];
           TotalFiles := 3; Added := 1; Modified := 1; Deleted := 1 |},
     [{| Current := 1; Total := 10; Message := "检查: m.txt" |};
      {| Current := 2; Total := 10; Message := "检查: a.txt" |};
      {| Current := 3; Total := 10; Message := "检查: b.txt" |};
      {| Current := 4; Total := 10; Message := "检查: locked.txt" |};
      {| Current := 5; Total := 10; Message := "检查: c.txt" |};
      {| Current := 6; Total := 10; Message := "检查: m.txt" |};
      {| Current := 7; Total := 10; Message := "检查: a.txt" |};
      {| Current := 8; Total := 10; Message := "检查: locked.txt" |}]).
Proof. vm_compute. reflexivity. Qed.

(** ** The archive listing *)

Lemma append_nil_l a : "" +:+ a = a.
Proof. reflexivity. Qed.

Lemma append_cons x a b : String x a +:+ b = String x (a +:+ b).
Proof. reflexivity. Qed.

Lemma append_assoc a b c : (a +:+ b) +:+ c = a +:+ (b +:+ c).
Proof.
  induction a as [|x a IH]; [done|].
  by rewrite !append_cons, IH.
Qed.

Lemma append_nil_r a : a +:+ "" = a.
Proof.
  induction a as [|x a IH]; [done|].
  by rewrite append_cons, IH.
Qed.

Lemma prefix_app p t : String.prefix p (p +:+ t) = true.
Proof.
  induction p as [|c p IH]; [by destruct t|].
  rewrite append_cons. simpl.
  destruct (ascii_dec c c); [done|congruence].
Qed.

Lemma drop_app p t : strings.drop (String.length p) (p +:+ t) = t.
Proof.
  induction p as [|c p IH]; [by destruct t|].
  by rewrite append_cons.
Qed.

Lemma TrimPrefix_app p t : strings.TrimPrefix (p +:+ t) p = t.
Proof. unfold strings.TrimPrefix, strings.HasPrefix. by rewrite prefix_app, drop_app. Qed.

(** The key of an entry: the root folder and a slash are taken off the
    front of a name that starts with them, when the root folder is not
    empty; every other name is the key as it is. *)
Lemma listing_key_strip root f tail :
  root ≠ "" → Name f = root +:+ "/" +:+ tail → listing_key root f = tail.
Proof.
  intros Hroot Hname. unfold listing_key, filepath.ToSlash, strings.HasPrefix.
  destruct (String.eqb_spec root ""); [done|].
  rewrite Hname, <- (append_assoc root "/" tail).
  rewrite prefix_app, TrimPrefix_app. done.
Qed.

Lemma listing_key_keep root f :
  root = "" ∨ strings.HasPrefix (Name f) (root +:+ "/") = false →
  listing_key root f = Name f.
Proof.
  unfold listing_key, filepath.ToSlash. intros [-> | ->]; [done|].
  by rewrite andb_false_r.
Qed.

Lemma ListFiles_loop_lookup root entries files k f :
  ListFiles_loop root entries files !! k = Some f →
  files !! k = Some f ∨
  (In f entries ∧ file_IsDir f = false ∧ listing_key root f = k ∧ k ≠ "").
Proof.
  revert files. induction entries as [|e entries IH]; intros files; simpl; [by left|].
  destruct (file_IsDir e) eqn:Hdir.
  { intros [?|(?&?&?&?)]%IH; [by left|right; auto]. }
  destruct (String.eqb_spec (listing_key root e) "") as [Hk|Hk]; simpl.
  { intros [?|(?&?&?&?)]%IH; [by left|right; auto]. }
  intros [Hl|(?&?&?&?)]%IH; [|right; auto].
  rewrite lookup_insert in Hl. case_decide as Heq; [|by left].
  injection Hl as <-. right. subst k. auto.
Qed.

Lemma ListFiles_loop_keeps root entries files k :
  is_Some (files !! k) → is_Some (ListFiles_loop root entries files !! k).
Proof.
  revert files. induction entries as [|e entries IH]; intros files Hk; simpl; [done|].
  destruct (file_IsDir e); [by apply IH|].
  destruct (String.eqb (listing_key root e) ""); simpl; apply IH; [done|].
  rewrite lookup_insert. case_decide; [by eexists|done].
Qed.

Lemma ListFiles_loop_enters root entries files f :
  In f entries → file_IsDir f = false → listing_key root f ≠ "" →
  is_Some (ListFiles_loop root entries files !! listing_key root f).
Proof.
  revert files. induction entries as [|e entries IH]; intros files; simpl; [done|].
  intros [->|Hin] Hdir Hk.
  - rewrite Hdir. destruct (String.eqb_spec (listing_key root f) ""); [done|]. simpl.
    apply ListFiles_loop_keeps. rewrite lookup_insert_eq. by eexists.
  - destruct (file_IsDir e); [by apply IH|].
    destruct (String.eqb (listing_key root e) ""); by apply IH.
Qed.

(** C4, as amended.  In an archive with at least one entry the root
    folder is the first segment of the first entry's name, one leading
    slash set aside.  When that segment is not empty, it and a slash
    are taken off the front of the names that start with them; a name
    that does not start with them, and every name when the segment is
    empty, is kept as it is.  What the listing holds under a key is an
    entry of the archive that is not a directory and has that key, and
    every entry that is not a directory and has a non-empty key has its
    key in the listing. *)
Theorem C4_root_folder_stripping (z : ZipReader) (first : zip_File) (rest : list zip_File) :
  File z = first :: rest →
  GetRootFolder z
    = hd "" (strings.Split (strings.TrimPrefix (Name first) "/") "/") ∧
  (∀ f tail, GetRootFolder z ≠ "" →
     Name f = GetRootFolder z +:+ "/" +:+ tail →
     listing_key (GetRootFolder z) f = tail) ∧
  (∀ f, GetRootFolder z = "" ∨
        strings.HasPrefix (Name f) (GetRootFolder z +:+ "/") = false →
     listing_key (GetRootFolder z) f = Name f) ∧
  (∀ k f, ListFiles z !! k = Some f →
     In f (File z) ∧ file_IsDir f = false ∧ listing_key (GetRootFolder z) f = k) ∧
  (∀ f, In f (File z) → file_IsDir f = false →
     listing_key (GetRootFolder z) f ≠ "" →
     is_Some (ListFiles z !! listing_key (GetRootFolder z) f)).
Proof.
  intros Hfile. split; [|split; [|split; [|split]]].
  - unfold GetRootFolder. rewrite Hfile.
    by destruct (strings.Split _ _).
  - intros f tail. apply listing_key_strip.
  - intros f. apply listing_key_keep.
  - intros k f [Hl|(?&?&?&?)]%ListFiles_loop_lookup; [|done].
    by rewrite lookup_empty in Hl.
  - intros f. apply ListFiles_loop_enters.
Qed.

Lemma C4_root_folder_stripping_witness :
  GetRootFolder demo_reader = "root" ∧
  ListFiles demo_reader !! "bin/app.dll"
    = Some {| Name := "root/bin/app.dll"; mode_IsDir := false; entry_Data := Some "v1" |} ∧
  ListFiles demo_reader !! "bin" = None.
Proof.
  destruct (C4_root_folder_stripping demo_reader
              {| Name := "root/"; mode_IsDir := true; entry_Data := None |}
              (tl demo_archive) eq_refl) as (Hroot & Hstrip & Hkeep & Hin & Hall).
  split; [by rewrite Hroot|]. split; vm_compute; reflexivity.
Defined.

(** C4, as it was stated, fails when the first segment is empty: the
    archive starts with the entry [/], the root folder is empty, the
    name [/a.txt] starts with the root folder and a slash, and it is
    listed under [/a.txt], not under [a.txt]. *)
Lemma C4_counterexample :
  let z := {| zr_path := "abs.zip";
              File := [ {| Name := "/"; mode_IsDir := true; entry_Data := None |};
                        {| Name := "/a.txt"; mode_IsDir := false; entry_Data := Some "1" |} ] |} in
  GetRootFolder z = "" ∧
  strings.HasPrefix "/a.txt" (GetRootFolder z +:+ "/") = true ∧
  ListFiles z !! "/a.txt"
    = Some {| Name := "/a.txt"; mode_IsDir := false; entry_Data := Some "1" |} ∧
  ListFiles z !! "a.txt" = None.
Proof. vm_compute. repeat split. Qed.

(** ** The exporter *)

Section ExportProperties.

Context `{Host}.

(** A copy touches its destination only. *)
Lemma copyFile_frame fs src dest p :
  dest ≠ p → (copyFile fs src dest).1 !! p = fs !! p.
Proof.
  intros Hne. unfold copyFile. repeat case_match; simpl; try done;
    by rewrite ?lookup_insert_ne.
Qed.

(** A copy whose source is not its destination succeeds exactly when
    the three steps before the read do and the source can be read, and
    then puts the bytes of the source at the destination. *)
Lemma copyFile_success fs src dest fs' :
  src ≠ dest →
  copyFile fs src dest = (fs', true) →
  ∃ data, fs !! src = Some data ∧ fs' = <[dest := data]> fs ∧
    os_MkdirAll (filepath_Dir dest) = true ∧ os_Create dest = true.
Proof.
  intros Hne. unfold copyFile.
  destruct (os_MkdirAll (filepath_Dir dest)); [|done].
  destruct (bool_decide (is_Some (fs !! src)) || unreadable src); [|done].
  destruct (os_Create dest); [|done]. cbn [negb].
  rewrite lookup_insert_ne by done.
  destruct (fs !! src) as [data|]; [|done].
  intros [= <-]. exists data. by rewrite insert_insert_eq.
Qed.



Lemma export_loop_cons outputDir onProgress total item rest i fs log :
  export_loop (item :: rest) i total outputDir onProgress fs log
  = let log' := log ++ item_events outputDir onProgress i total [item] in
    match copyFile fs (SourcePath item) (destination outputDir item) with
    | (fs', true) => export_loop rest (S i) total outputDir onProgress fs' log'
    | (fs', false) => (Error ("failed to copy file " +:+ RelPath item), fs', log')
    end.
Proof.
  simpl. unfold destination.
  destruct onProgress; simpl; by rewrite <- ?app_assoc.
Qed.

Lemma item_events_cons outputDir onProgress total item rest i :
  item_events outputDir onProgress i total (item :: rest)
  = item_events outputDir onProgress i total [item]
    ++ item_events outputDir onProgress (S i) total rest.
Proof. simpl. destruct onProgress; simpl; done. Qed.

Lemma item_events_app outputDir onProgress total done rest i :
  item_events outputDir onProgress i total (done ++ rest)
  = item_events outputDir onProgress i total done
    ++ item_events outputDir onProgress (i + length done) total rest.
Proof.
  revert i. induction done as [|item done IH]; intros i.
  - by rewrite Nat.add_0_r.
  - change ((item :: done) ++ rest) with (item :: (done ++ rest)).
    rewrite (item_events_cons _ _ _ item (done ++ rest)), IH.
    rewrite (item_events_cons _ _ _ item done), <- app_assoc.
    simpl length. by rewrite Nat.add_succ_r.
Qed.

(** The loop, for every list: all copies succeed, or the loop stops at
    the first that fails, with the file system that copy leaves. *)
Lemma export_loop_spec outputDir onProgress total sel i fs log :
  (copies_succeed outputDir fs sel = true ∧
   export_loop sel i total outputDir onProgress fs log
   = (Ok tt, copy_all outputDir fs sel,
      log ++ item_events outputDir onProgress i total sel)) ∨
  (∃ done item rest,
     sel = done ++ item :: rest ∧
     copies_succeed outputDir fs done = true ∧
     (copyFile (copy_all outputDir fs done) (SourcePath item)
        (destination outputDir item)).2 = false ∧
     export_loop sel i total outputDir onProgress fs log
     = (Error ("failed to copy file " +:+ RelPath item),
        (copyFile (copy_all outputDir fs done) (SourcePath item)
           (destination outputDir item)).1,
        log ++ item_events outputDir onProgress i total (done ++ [item]))).
Proof.
  revert i fs log. induction sel as [|item sel IH]; intros i fs log.
  { left. simpl. by rewrite app_nil_r. }
  rewrite export_loop_cons. cbv zeta.
  destruct (copyFile fs (SourcePath item) (destination outputDir item))
    as [fs' [|]] eqn:Hcopy.
  - destruct (IH (S i) fs' (log ++ item_events outputDir onProgress i total [item]))
      as [[Hok Hrun] | (done & it & rest & -> & Hok & Hfail & Hrun)].
    + left. split.
      * simpl. by rewrite Hcopy.
      * rewrite Hrun, <- app_assoc, <- item_events_cons.
        unfold copy_all; simpl. by rewrite Hcopy.
    + right. exists (item :: done), it, rest.
      split; [done|]. split; [simpl; by rewrite Hcopy|].
      assert (copy_all outputDir fs (item :: done) = copy_all outputDir fs' done) as ->
        by (unfold copy_all; simpl; by rewrite Hcopy).
      split; [done|].
      rewrite Hrun, <- app_assoc.
      change ((item :: done) ++ [it]) with (item :: (done ++ [it])).
      by rewrite (item_events_cons _ _ _ item (done ++ [it])).
  - right. exists [], item, sel.
    split; [done|]. split; [done|].
    unfold copy_all; simpl. rewrite Hcopy; simpl. done.
Qed.

Lemma copy_all_cons outputDir fs item rest :
  copy_all outputDir fs (item :: rest)
  = copy_all outputDir (copyFile fs (SourcePath item) (destination outputDir item)).1 rest.
Proof. done. Qed.

Lemma copy_all_frame outputDir fs sel p :
  (∀ it, it ∈ sel → destination outputDir it ≠ p) →
  copy_all outputDir fs sel !! p = fs !! p.
Proof.
  revert fs. induction sel as [|item sel IH]; intros fs Hp; [done|].
  rewrite copy_all_cons, IH.
  - apply copyFile_frame. apply Hp. by left.
  - intros it Hit. apply Hp. by right.
Qed.

Lemma copies_succeed_cons outputDir fs item rest :
  SourcePath item ≠ destination outputDir item →
  copies_succeed outputDir fs (item :: rest) = true →
  ∃ data, fs !! SourcePath item = Some data ∧ copy_ready outputDir fs item = true ∧
    (copyFile fs (SourcePath item) (destination outputDir item)).1
      = <[destination outputDir item := data]> fs ∧
    copies_succeed outputDir (<[destination outputDir item := data]> fs) rest = true.
Proof.
  intros Hne. cbn [copies_succeed].
  destruct (copyFile fs (SourcePath item) (destination outputDir item)) as [fs' ok] eqn:Hc.
  intros [-> Hrest]%andb_true_iff.
  apply copyFile_success in Hc as (data & Hsrc & -> & Hdir & Hnew); [|done].
  exists data. split; [done|]. split; [|done].
  unfold copy_ready. rewrite Hdir, Hnew, Hsrc.
  by rewrite bool_decide_eq_true_2 by by eexists.
Qed.

(** When the destinations are pairwise different and none of them is a
    source, a sequence of copies that succeed leaves at each
    destination the bytes its source had at the start. *)
Lemma copy_all_content outputDir fs sel :
  copies_succeed outputDir fs sel = true →
  NoDup (destination outputDir <$> sel) →
  (∀ it it', it ∈ sel → it' ∈ sel → destination outputDir it ≠ SourcePath it') →
  ∀ it, it ∈ sel →
    is_Some (fs !! SourcePath it) ∧ copy_ready outputDir fs it = true ∧
    copy_all outputDir fs sel !! destination outputDir it = fs !! SourcePath it.
Proof.
  revert fs. induction sel as [|item sel IH]; intros fs Hok Hnd Hsep it Hit.
  { by apply elem_of_nil in Hit. }
  apply copies_succeed_cons in Hok as (data & Hsrc & Hready & Hfs & Hok).
  2:{ intros Heq. apply (Hsep item item); by try left. }
  rewrite fmap_cons in Hnd. apply NoDup_cons in Hnd as [Hfresh Hnd].
  rewrite copy_all_cons, Hfs.
  apply elem_of_cons in Hit as [->|Hit].
  - split; [by eexists|]. split; [done|]. rewrite copy_all_frame.
    + by rewrite lookup_insert_eq.
    + intros it' Hit' Heq. apply Hfresh. rewrite <- Heq.
      apply list_elem_of_fmap. eauto.
  - destruct (IH (<[destination outputDir item := data]> fs) Hok Hnd) with (it := it)
      as (Hsome & Hrd & Hcopy); [|done|].
    { intros a b Ha Hb. apply Hsep; by right. }
    assert (Hne : destination outputDir item ≠ SourcePath it).
    { apply Hsep; [by left|by right]. }
    unfold copy_ready in Hrd |- *.
    rewrite lookup_insert_ne in Hsome, Hcopy, Hrd by done. done.
Qed.


End ExportProperties.





(** An export that goes through: the deleted item is passed over, and
    each of the two others sees the callback and then its copy. *)
Example ExportDiffs_demo :
  ExportDiffs [modified_item "m.txt" "work/m.txt"; deleted_item "b.txt";
               added_item "c.txt" "work/c.txt"] "out" true demo_fs
  = (Ok tt,
     <["out/c.txt" := "3"]> (<["out/m.txt" := "new"]> demo_fs),
     [Progress {| Current := 1; Total := 2; Message := "导出: m.txt" |};
      CopyFile "work/m.txt" "out/m.txt";
      Progress {| Current := 2; Total := 2; Message := "导出: c.txt" |};
      CopyFile "work/c.txt" "out/c.txt"]).
Proof. vm_compute. reflexivity. Qed.

(** An export that fails on its second item, whose source is gone: the
    first copy stays, the third item is not reached. *)
Example ExportDiffs_abort :
  ExportDiffs [added_item "c.txt" "work/c.txt"; modified_item "gone.txt" "work/gone.txt";
               modified_item "m.txt" "work/m.txt"] "out" true demo_fs
  = (Error "failed to copy file gone.txt",
     <["out/c.txt" := "3"]> demo_fs,
     [Progress {| Current := 1; Total := 3; Message := "导出: c.txt" |};
      CopyFile "work/c.txt" "out/c.txt";
      Progress {| Current := 2; Total := 3; Message := "导出: gone.txt" |};
      CopyFile "work/gone.txt" "out/gone.txt"]).
Proof. vm_compute. reflexivity. Qed.

(** An export that fails on a source that opens and cannot be read, a
    directory: the destination has been created and stays empty. *)
Example ExportDiffs_unreadable :
  ExportDiffs [added_item "c.txt" "work/c.txt"; added_item "bin" "work/bin"] "out" false
    demo_fs
  = (Error "failed to copy file bin",
     <["out/bin" := ""]> (<["out/c.txt" := "3"]> demo_fs),
     [CopyFile "work/c.txt" "out/c.txt"; CopyFile "work/bin" "out/bin"]).
Proof. vm_compute. reflexivity. Qed.

(** ** The text differ *)

Lemma span_lines_Type ty ls : Forall (λ l, line_Type l = ty) (span_lines ty ls).
Proof.
  induction ls as [|w [|w' ws] IH]; simpl.
  - constructor.
  - destruct (String.eqb w ""); repeat constructor.
  - constructor; [done|apply IH].
Qed.

(** The contents of the lines of a span are its pieces, the last one
    left out when it is empty. *)
Lemma span_lines_Content ty ls :
  ls ≠ [] →
  map Content (span_lines ty ls) = ls ∨ map Content (span_lines ty ls) ++ [""] = ls.
Proof.
  induction ls as [|w [|w' ws] IH]; [done| |]; intros _.
  - simpl. destruct (String.eqb_spec w "") as [->|]; [by right|by left].
  - destruct IH as [IH|IH]; [done| |].
    + left. change (map Content (span_lines ty (w :: w' :: ws)))
        with (w :: map Content (span_lines ty (w' :: ws))). by rewrite IH.
    + right. change (map Content (span_lines ty (w :: w' :: ws)))
        with (w :: map Content (span_lines ty (w' :: ws))).
      by rewrite <- app_comm_cons, IH.
Qed.

Lemma Join_cons w ws sep :
  ws ≠ [] → strings.Join (w :: ws) sep = w +:+ sep +:+ strings.Join ws sep.
Proof. by destruct ws. Qed.

Lemma Join_Split s sep : strings.Join (strings.Split s sep) (String sep "") = s.
Proof.
  induction s as [|c s IH]; [done|]. simpl.
  destruct (Ascii.eqb_spec c sep) as [->|Hne].
  - rewrite Join_cons by apply Split_nonempty. by rewrite IH.
  - pose proof (Split_nonempty sep s) as Hs.
    destruct (strings.Split s sep) as [|w ws]; [done|].
    destruct ws as [|w' ws].
    + simpl in *. by rewrite IH.
    + rewrite Join_cons in IH by done. rewrite Join_cons by done.
      by rewrite append_cons, IH.
Qed.

Lemma Join_snoc_empty ws sep :
  ws ≠ [] → strings.Join (ws ++ [""]) sep = strings.Join ws sep +:+ sep.
Proof.
  induction ws as [|w [|w' ws] IH]; [done| |]; intros _.
  - simpl. by rewrite append_nil_r.
  - change ((w :: w' :: ws) ++ [""]) with (w :: ((w' :: ws) ++ [""])).
    rewrite Join_cons by done. rewrite IH by done.
    rewrite (Join_cons w (w' :: ws)) by done.
    by rewrite !append_assoc.
Qed.

Example runes_examples :
  utf8.runes "go" = [103; 111]%N ∧
  utf8.runes "检查" = [26816; 26597]%N ∧
  utf8.string_of_runes (utf8.runes "检查: a.txt") = "检查: a.txt" ∧
  utf8.runes (String "255" "") = [utf8.RuneError] ∧
  utf8.string_of_runes (utf8.runes (String "255" ""))
    = String "239" (String "191" (String "189" "")) ∧
  utf8.runes (String "237" (String "160" (String "128" "")))
    = [utf8.RuneError; utf8.RuneError; utf8.RuneError] ∧
  utf8.runes (String "192" (String "128" "")) = [utf8.RuneError; utf8.RuneError] ∧
  utf8.runes (String "240" (String "159" (String "152" (String "128" "")))) = [128512]%N.
Proof. vm_compute. repeat split. Qed.

(** The contents of the lines of a span are its pieces, the last one
    left out when it is empty. *)
Lemma span_lines_dropped ty ls :
  ls ≠ [] → map Content (span_lines ty (ls ++ [""])) = ls.
Proof.
  induction ls as [|w [|w' ws] IH]; [done| |]; intros _.
  - done.
  - change (map Content (span_lines ty ((w :: w' :: ws) ++ [""])))
      with (w :: map Content (span_lines ty ((w' :: ws) ++ [""]))).
    by rewrite IH.
Qed.

Lemma span_lines_kept ty ls :
  last ls ≠ Some "" → map Content (span_lines ty ls) = ls.
Proof.
  induction ls as [|w [|w' ws] IH]; [done| |]; intros Hlast.
  - simpl. destruct (String.eqb_spec w "") as [->|]; done.
  - change (map Content (span_lines ty (w :: w' :: ws)))
      with (w :: map Content (span_lines ty (w' :: ws))).
    by rewrite IH.
Qed.

(** A text that ends in the separator has an empty last piece, and
    only such a text and the empty text have one. *)
Lemma Split_snoc_sep s sep :
  strings.Split (s +:+ String sep "") sep = strings.Split s sep ++ [""].
Proof.
  induction s as [|c s IH].
  - simpl. by rewrite Ascii.eqb_refl.
  - rewrite append_cons. cbn [strings.Split]. rewrite IH.
    destruct (Ascii.eqb c sep); [done|].
    pose proof (Split_nonempty sep s) as Hs.
    by destruct (strings.Split s sep).
Qed.

Lemma Split_last_empty s sep :
  last (strings.Split s sep) = Some "" → s = "" ∨ ∃ B, s = B +:+ String sep "".
Proof.
  induction s as [|c s IH]; [by left|].
  cbn [strings.Split]. pose proof (Split_nonempty sep s) as Hs.
  destruct (Ascii.eqb_spec c sep) as [->|Hne].
  - intros Hl. right. rewrite last_cons in Hl.
    destruct (last (strings.Split s sep)) as [l|] eqn:Hlast.
    + destruct (IH Hl) as [->|[B ->]].
      * by exists "".
      * exists (String sep B). by rewrite append_cons.
    + apply last_None in Hlast. done.
  - destruct (strings.Split s sep) as [|w ws] eqn:Hsp; [done|].
    destruct ws as [|w' ws]; [simpl; intros [=]|].
    change (last (String c w :: w' :: ws)) with (last (w :: w' :: ws)).
    intros Hl. right. destruct (IH Hl) as [->|[B ->]]; [simpl in Hsp; congruence|].
    exists (String c B). by rewrite append_cons.
Qed.

Section DifferProperties.

Context `{DiffMatchPatch}.

(** C9. Let [diffmatchpatch] answer on equal inputs as it does, with the
    runes of the text written back as one equal span, and let [A] be a
    text that the conversion to runes and back gives again, as every
    valid UTF-8 text is.  Then every line of [CompareTexts A A] is of
    type "equal"; there is no line for the empty text; for a text that
    ends in a line feed the lines are those of the text before that
    line feed, the empty line behind it being dropped, and joined by
    line feeds and followed by one they give [A]; and for any other
    text the lines are those of [A] and joined by line feeds they give
    [A]. *)
Theorem C9_equal_inputs_round_trip (A : string) :
  DiffCleanupSemantic (DiffMain A A true) = equal_answer A →
  utf8.string_of_runes (utf8.runes A) = A →
  let contents := map Content (Lines (CompareTexts A A)) in
  Forall (λ l, line_Type l = "equal") (Lines (CompareTexts A A)) ∧
  (A = "" → contents = []) ∧
  (∀ B, A = B +:+ LF →
     contents = strings.Split B "010" ∧ strings.Join contents LF +:+ LF = A) ∧
  (A ≠ "" → (∀ B, A ≠ B +:+ LF) →
     contents = strings.Split A "010" ∧ strings.Join contents LF = A).
Proof.
  intros Hlib Hvalid contents. unfold contents, CompareTexts, LF. rewrite Hlib. clear Hlib.
  unfold equal_answer. cbn [Lines].
  destruct (utf8.runes A) as [|r rs] eqn:Hrunes.
  { simpl in Hvalid. subst A. split; [constructor|]. split; [done|]. split.
    - intros B HB. by destruct B.
    - intros Hne. done. }
  rewrite Hvalid. cbn [flat_map Text diff_Type diffType]. rewrite app_nil_r.
  split; [apply span_lines_Type|]. split; [by intros ->|]. split.
  - intros B ->. rewrite Split_snoc_sep.
    rewrite span_lines_dropped by apply Split_nonempty.
    split; [done|]. by rewrite Join_Split.
  - intros Hne Hend. rewrite span_lines_kept.
    + split; [done|]. apply Join_Split.
    + intros Hlast. apply Split_last_empty in Hlast as [->|[B ->]]; [done|].
      by apply (Hend B).
Qed.

End DifferProperties.

(** Every text of ASCII comes back from the conversion to runes. *)
Lemma ascii_runes_back A :
  all_chars is_ascii A = true → utf8.string_of_runes (utf8.runes A) = A.
Proof.
  induction A as [|c A IH]; [done|].
  change (all_chars is_ascii (String c A)) with (is_ascii c && all_chars is_ascii A).
  intros [Hc HA]%andb_true_iff.
  assert (Hb : (utf8.byte c <? 128)%N = true).
  { destruct c as [[] [] [] [] [] [] [] []]; vm_compute in Hc |- *; congruence. }
  cbn [utf8.runes]. cbv zeta. rewrite Hb. cbn [utf8.string_of_runes].
  rewrite (IH HA). unfold utf8.encode.
  assert (Hle : (utf8.byte c <=? 127)%N = true).
  { apply N.leb_le. apply N.ltb_lt in Hb. lia. }
  rewrite Hle. unfold utf8.char, utf8.byte. by rewrite ascii_N_embedding.
Qed.

Lemma rune_differ_equal other A :
  DiffCleanupSemantic (DiffMatchPatch := rune_differ other)
    (DiffMain (DiffMatchPatch := rune_differ other) A A true) = equal_answer A.
Proof.
  cbn [DiffMain DiffCleanupSemantic rune_differ].
  rewrite bool_decide_eq_true_2 by done.
  unfold equal_answer. by destruct (utf8.runes A).
Qed.

(** The byte 255 is not UTF-8: the library hands it back as U+FFFD, and
    the one line of the result does not give the text back, with or
    without a line feed behind it. *)
Lemma C9_counterexample :
  let A := String "255" "" in
  let res := CompareTexts (H := rune_differ plain_differ) A A in
  map Content (Lines res) = [String "239" (String "191" (String "189" ""))] ∧
  strings.Join (map Content (Lines res)) LF ≠ A ∧
  strings.Join (map Content (Lines res)) LF +:+ LF ≠ A.
Proof. vm_compute. repeat split; discriminate. Qed.

Lemma C9_equal_inputs_round_trip_witness :
  let A := String "a" (String "010" (String "010" (String "b" (String "010" "")))) in
  map Content (Lines (CompareTexts (H := rune_differ plain_differ) A A)) = ["a"; ""; "b"] ∧
  Forall (λ l, line_Type l = "equal")
    (Lines (CompareTexts (H := rune_differ plain_differ) A A)).
Proof.
  intros A.
  destruct (C9_equal_inputs_round_trip (H := rune_differ plain_differ) A
              (rune_differ_equal plain_differ A) (ascii_runes_back A eq_refl))
    as (Heq & _ & Hend & _).
  split; [|exact Heq].
  exact (proj1 (Hend (String "a" (String "010" (String "010" "b"))) eq_refl)).
Defined.

(** ** The translation of globs *)

Lemma prefix_cons a p b s :
  String.prefix (String a p) (String b s) = Ascii.eqb a b && String.prefix p s.
Proof.
  simpl. destruct (ascii_dec a b) as [->|Hne].
  - by rewrite Ascii.eqb_refl.
  - by apply Ascii.eqb_neq in Hne as ->.
Qed.

Lemma prefix_nil_l s : String.prefix "" s = true.
Proof. by destruct s. Qed.

Lemma prefix_nil_r a p : String.prefix (String a p) "" = false.
Proof. done. Qed.

(** One step of the scan of [ReplaceAll] at a position where nothing is
    left to pass over. *)
Lemma replace_scan_step a old' new c s :
  strings.replace_scan (String a old') new 0 (String c s)
  = if Ascii.eqb a c && String.prefix old' s
    then new +:+ strings.replace_scan (String a old') new (String.length old') s
    else String c (strings.replace_scan (String a old') new 0 s).
Proof.
  cbn [strings.replace_scan]. rewrite prefix_cons.
  replace (String.length (String a old') - 1) with (String.length old'); [done|].
  simpl. lia.
Qed.

Lemma replace_scan_skip old new k c s :
  strings.replace_scan old new (S k) (String c s) = strings.replace_scan old new k s.
Proof. done. Qed.

Lemma special_cases c :
  special c = true ↔
  c ∈ (["\"; "."; "+"; "*"; "?"; "("; ")"; "|"; "["; "]"; "{"; "}"; "^"; "$"]%char : list ascii).
Proof.
  unfold special. rewrite existsb_exists. split.
  - intros (x & Hin & Heq). apply Ascii.eqb_eq in Heq as ->. by apply list_elem_of_In.
  - intros Hin. exists c. split; [by apply list_elem_of_In|apply Ascii.eqb_refl].
Qed.

Lemma plain_not_special (c x : ascii) : special c = false → special x = true → Ascii.eqb x c = false.
Proof.
  intros Hc Hx. apply Ascii.eqb_neq. intros ->. congruence.
Qed.

(** No rendering starts with a star or a question mark: both are
    always written behind a backslash. *)
Lemma render_head (x : ascii) ts rest :
  x = "*"%char ∨ x = "?"%char → String.prefix (String x "") (render ts +:+ rest) = true →
  ts = [] ∧ String.prefix (String x "") rest = true.
Proof.
  intros Hx. destruct ts as [|t ts]; [done|].
  cbn [render]. rewrite append_assoc.
  destruct t as [c| | |]; cbn [render_token].
  - destruct (special c) eqn:Hc.
    + rewrite !append_cons, prefix_cons. destruct Hx as [-> | ->]; done.
    + rewrite !append_cons, prefix_cons, (plain_not_special c x Hc); [done|].
      destruct Hx as [-> | ->]; done.
  - rewrite !append_cons, prefix_cons. destruct Hx as [-> | ->]; done.
  - rewrite !append_cons, prefix_cons. destruct Hx as [-> | ->]; done.
  - rewrite !append_cons, prefix_cons. destruct Hx as [-> | ->]; done.
Qed.

Lemma render_no_head (x : ascii) ts :
  x = "*"%char ∨ x = "?"%char → String.prefix (String x "") (render ts) = false.
Proof.
  intros Hx. destruct (String.prefix (String x "") (render ts)) eqn:Hp; [|done].
  rewrite <- (append_nil_r (render ts)) in Hp.
  by apply render_head in Hp as [_ ?].
Qed.

Lemma render_cons t ts : render (t :: ts) = render_token t +:+ render ts.
Proof. done. Qed.

(** The second and the third replacement: a backslash and [x] become
    what is written for the token [T]. *)
Lemma replace_single (x : ascii) (T : glob_token) ts :
  (x = "*"%char ∧ T = GAnySegment) ∨ (x = "?"%char ∧ T = GOne) →
  strings.replace_scan (String "\" (String x "")) (render_token T) 0 (render ts)
  = render (map (λ t, match t with
                      | GLit c => if Ascii.eqb c x then T else t
                      | _ => t
                      end) ts).
Proof.
  intros HxT.
  assert (Hx : x = "*"%char ∨ x = "?"%char) by (destruct HxT as [[-> _]|[-> _]]; auto).
  assert (Hsx : special x = true) by (destruct Hx as [-> | ->]; done).
  induction ts as [|t ts IH]; [done|].
  cbn [map]. rewrite !render_cons.
  destruct t as [c| | |].
  - destruct (Ascii.eqb_spec c x) as [->|Hne].
    + cbn [render_token]. rewrite Hsx, !append_cons, append_nil_l.
      rewrite replace_scan_step, Ascii.eqb_refl, prefix_cons, Ascii.eqb_refl, prefix_nil_l.
      cbn [andb String.length]. by rewrite replace_scan_skip, IH.
    + cbn [render_token]. destruct (special c) eqn:Hc.
      * rewrite !append_cons, !append_nil_l.
        rewrite replace_scan_step, prefix_cons.
        assert (Ascii.eqb x c = false) as -> by (apply Ascii.eqb_neq; congruence).
        rewrite andb_false_r. cbn [andb]. f_equal.
        rewrite replace_scan_step, (render_no_head x ts Hx), andb_false_r.
        by rewrite IH.
      * rewrite !append_cons, !append_nil_l.
        rewrite replace_scan_step, (plain_not_special c "\" Hc eq_refl).
        cbn [andb]. by rewrite IH.
  - cbn [render_token]. rewrite !append_cons, !append_nil_l.
    rewrite !replace_scan_step. cbn. by rewrite IH.
  - cbn [render_token]. rewrite !append_cons, !append_nil_l.
    rewrite !replace_scan_step. cbn. by rewrite IH.
  - cbn [render_token]. rewrite !append_cons, !append_nil_l.
    rewrite !replace_scan_step. cbn. by rewrite IH.
Qed.

Lemma prefix_head_false (x : ascii) q s :
  String.prefix (String x "") s = false → String.prefix (String x q) s = false.
Proof.
  destruct s as [|c s]; [done|]. rewrite !prefix_cons, prefix_nil_l, andb_true_r.
  by intros ->.
Qed.

(** Only a literal star is written with a backslash and a star in
    front. *)
Lemma render_escaped_star ts :
  String.prefix "\*" (render ts) = true → ∃ ts', ts = GLit "*" :: ts'.
Proof.
  destruct ts as [|t ts]; [done|]. rewrite render_cons.
  destruct t as [c| | |]; cbn [render_token]; try done.
  destruct (special c) eqn:Hc.
  - rewrite !append_cons, !prefix_cons, prefix_nil_l, andb_true_r.
    intros [_ ->%Ascii.eqb_eq]%andb_true_iff. eauto.
  - rewrite !append_cons, !prefix_cons, (plain_not_special c "\" Hc eq_refl). done.
Qed.

Lemma pass_any_path_lit c ts :
  (c ≠ "*"%char ∨ ∀ ts', ts ≠ GLit "*" :: ts') →
  pass_any_path (GLit c :: ts) = GLit c :: pass_any_path ts.
Proof.
  intros Hc. cbn [pass_any_path].
  destruct (Ascii.eqb_spec c "*") as [->|]; [|done].
  destruct Hc as [|Hts]; [done|].
  destruct ts as [|[d| | |] ts']; try done.
  destruct (Ascii.eqb_spec d "*") as [->|]; [|done].
  by destruct (Hts ts').
Qed.

Lemma render_token_star : render_token (GLit "*") = "\*".
Proof. reflexivity. Qed.

Lemma replace_two_stars r :
  strings.replace_scan "\*\*" ".*" 0 ("\*" +:+ "\*" +:+ r)
  = ".*" +:+ strings.replace_scan "\*\*" ".*" 0 r.
Proof.
  rewrite !append_cons, !append_nil_l.
  rewrite replace_scan_step, !prefix_cons, prefix_nil_l.
  cbn [Ascii.eqb Bool.eqb andb String.length].
  by rewrite !replace_scan_skip.
Qed.

(** The first replacement: two escaped stars in a row become [.*]. *)
Lemma replace_any_path_bounded n ts :
  length ts ≤ n →
  strings.replace_scan "\*\*" ".*" 0 (render ts) = render (pass_any_path ts).
Proof.
  revert ts. induction n as [|n IH]; intros ts Hn.
  { destruct ts; [done|simpl in Hn; lia]. }
  destruct ts as [|t ts]; [done|]. simpl in Hn.
  assert (Hts : strings.replace_scan "\*\*" ".*" 0 (render ts) = render (pass_any_path ts))
    by (apply IH; lia).
  destruct t as [c| | |].
  - destruct (String.prefix "\*" (render ts)) eqn:Hnext.
    + (* the next token is a literal star *)
      destruct (render_escaped_star ts Hnext) as [ts' ->].
      destruct (Ascii.eqb_spec c "*") as [->|Hne].
      * change (pass_any_path (GLit "*" :: GLit "*" :: ts'))
          with (GAnyPath :: pass_any_path ts').
        rewrite !render_cons, render_token_star.
        change (render_token GAnyPath) with ".*".
        rewrite replace_two_stars, (IH ts') by (simpl in Hn; lia). done.
      * rewrite pass_any_path_lit by auto.
        rewrite !(render_cons (GLit c)). cbn [render_token].
        destruct (special c) eqn:Hc.
        -- rewrite !append_cons, !append_nil_l.
           rewrite replace_scan_step, prefix_cons.
           assert (Ascii.eqb "*" c = false) as -> by (apply Ascii.eqb_neq; congruence).
           rewrite andb_false_r. cbn [andb]. f_equal.
           rewrite replace_scan_step.
           rewrite (prefix_head_false "*" _ _ (render_no_head "*" _ (or_introl eq_refl))).
           by rewrite andb_false_r, Hts.
        -- rewrite !append_cons, !append_nil_l.
           rewrite replace_scan_step, (plain_not_special c "\" Hc eq_refl).
           cbn [andb]. by rewrite Hts.
    + (* the next token is not a literal star *)
      rewrite pass_any_path_lit.
      2:{ right. intros ts' ->.
          rewrite render_cons, render_token_star, prefix_app in Hnext. done. }
      rewrite !(render_cons (GLit c)). cbn [render_token].
      destruct (special c) eqn:Hc.
      * rewrite !append_cons, !append_nil_l.
        rewrite replace_scan_step, prefix_cons.
        change "\*" with (String "\" (String "*" "")) in Hnext.
        rewrite Hnext, andb_false_r, andb_false_r. f_equal.
        rewrite replace_scan_step.
        rewrite (prefix_head_false "*" _ _ (render_no_head "*" _ (or_introl eq_refl))).
        by rewrite andb_false_r, Hts.
      * rewrite !append_cons, !append_nil_l.
        rewrite replace_scan_step, (plain_not_special c "\" Hc eq_refl).
        cbn [andb]. by rewrite Hts.
  - cbn [pass_any_path]. rewrite !render_cons. cbn [render_token].
    rewrite !append_cons, !append_nil_l, !replace_scan_step. cbn. by rewrite Hts.
  - cbn [pass_any_path]. rewrite !render_cons. cbn [render_token].
    rewrite !append_cons, !append_nil_l, !replace_scan_step. cbn. by rewrite Hts.
  - cbn [pass_any_path]. rewrite !render_cons. cbn [render_token].
    rewrite !append_cons, !append_nil_l, !replace_scan_step. cbn. by rewrite Hts.
Qed.

Lemma replace_any_path ts :
  strings.replace_scan "\*\*" ".*" 0 (render ts) = render (pass_any_path ts).
Proof. by apply (replace_any_path_bounded (length ts)). Qed.

Lemma QuoteMeta_render p : QuoteMeta p = render (literals p).
Proof.
  induction p as [|c p IH]; [done|].
  change (literals (String c p)) with (GLit c :: literals p).
  rewrite render_cons. cbn [QuoteMeta render_token].
  destruct (special c); by rewrite !append_cons, append_nil_l, IH.
Qed.

Lemma literals_cons c p : literals (String c p) = GLit c :: literals p.
Proof. done. Qed.

(** The three replacements in a row read the pattern into its tokens. *)
Lemma glob_tokens_passes_bounded n p :
  String.length p ≤ n →
  pass_one (pass_any_segment (pass_any_path (literals p))) = glob_tokens p.
Proof.
  revert p. induction n as [|n IH]; intros p Hn.
  { destruct p; [done|simpl in Hn; lia]. }
  destruct p as [|c p]; [done|]. simpl in Hn.
  pose proof (IH p ltac:(lia)) as Hp.
  rewrite literals_cons. cbn [glob_tokens].
  destruct (Ascii.eqb_spec c "*") as [->|Hstar].
  - destruct p as [|d p'].
    + done.
    + rewrite literals_cons.
      destruct (Ascii.eqb_spec d "*") as [->|Hd].
      * change (pass_any_path (GLit "*" :: GLit "*" :: literals p'))
          with (GAnyPath :: pass_any_path (literals p')).
        cbn [pass_any_segment pass_one map]. f_equal.
        apply IH. simpl in Hn. lia.
      * rewrite pass_any_path_lit.
        2:{ right. intros ts' [= ->]. done. }
        rewrite <- literals_cons.
        change (pass_one (pass_any_segment (GLit "*" :: ?l)))
          with (GAnySegment :: pass_one (pass_any_segment l)).
        by rewrite Hp.
  - rewrite pass_any_path_lit by auto.
    unfold pass_one, pass_any_segment in *. cbn [map].
    apply Ascii.eqb_neq in Hstar. rewrite Hstar. cbn [map].
    rewrite Hp. by destruct (Ascii.eqb c "?").
Qed.

Lemma glob_tokens_passes p :
  pass_one (pass_any_segment (pass_any_path (literals p))) = glob_tokens p.
Proof. by apply (glob_tokens_passes_bounded (String.length p)). Qed.

(** [globToRegex] writes the tokens of the pattern between [^] and [$]. *)
Lemma globToRegex_render p :
  globToRegex p = "^" +:+ render (glob_tokens p) +:+ "$".
Proof.
  unfold globToRegex, strings.ReplaceAll.
  rewrite QuoteMeta_render, replace_any_path.
  rewrite (replace_single "*" GAnySegment) by auto.
  rewrite (replace_single "?" GOne) by auto.
  by rewrite <- glob_tokens_passes.
Qed.

(** ** Compiling and matching a translated glob *)

Lemma special_escapable c :
  special c = true → (nat_of_ascii c <? 128)%nat && negb (re2.is_alnum c) = true.
Proof.
  intros Hc%special_cases.
  repeat (apply elem_of_cons in Hc as [->|Hc]; [done|]).
  by apply elem_of_nil in Hc.
Qed.

Lemma parse_render acc ts :
  re2.parse re2.Top acc (render ts +:+ "$") = Some (rev acc ++ map piece_of ts, true).
Proof.
  revert acc. induction ts as [|t ts IH]; intros acc.
  { simpl. by rewrite app_nil_r. }
  rewrite render_cons, append_assoc.
  assert (Hnext : ∀ pc, re2.parse re2.Top (pc :: acc) (render ts +:+ "$")
                        = Some (rev acc ++ pc :: map piece_of ts, true)).
  { intros pc. rewrite IH. simpl. by rewrite <- app_assoc. }
  destruct t as [c| | |]; cbn [render_token map piece_of].
  - destruct (special c) eqn:Hc.
    + rewrite !append_cons, append_nil_l.
      cbn [re2.parse Ascii.eqb Bool.eqb]. cbn iota.
      rewrite (special_escapable c Hc). apply Hnext.
    + rewrite !append_cons, append_nil_l.
      cbn [re2.parse].
      rewrite (Ascii.eqb_sym c "\"), (plain_not_special c "\" Hc eq_refl).
      rewrite (Ascii.eqb_sym c "."), (plain_not_special c "." Hc eq_refl).
      rewrite (Ascii.eqb_sym c "["), (plain_not_special c "[" Hc eq_refl).
      rewrite (Ascii.eqb_sym c "*"), (plain_not_special c "*" Hc eq_refl).
      rewrite (Ascii.eqb_sym c "$"), (plain_not_special c "$" Hc eq_refl), Hc.
      apply Hnext.
  - rewrite !append_cons, append_nil_l. cbn. apply Hnext.
  - rewrite !append_cons, append_nil_l. cbn. apply Hnext.
  - rewrite !append_cons, append_nil_l. cbn [re2.parse Ascii.eqb Bool.eqb]. cbn iota.
    apply Hnext.
Qed.

Lemma all_chars_nil P : all_chars P "" = true.
Proof. done. Qed.

Lemma all_chars_cons P c w : all_chars P (String c w) = P c && all_chars P w.
Proof. done. Qed.

Lemma all_chars_ext P Q w : (∀ c, P c = Q c) → all_chars P w = all_chars Q w.
Proof.
  intros HPQ. induction w as [|c w IH]; [done|].
  by rewrite !all_chars_cons, HPQ, IH.
Qed.

Lemma all_chars_app P w s : all_chars P (w +:+ s) = all_chars P w && all_chars P s.
Proof.
  induction w as [|c w IH]; [done|].
  by rewrite append_cons, !all_chars_cons, IH, andb_assoc.
Qed.

Lemma render_ascii ts : all_chars is_ascii (render ts) = forallb ascii_token ts.
Proof.
  induction ts as [|t ts IH]; [done|].
  rewrite render_cons, all_chars_app, IH. cbn [forallb]. f_equal.
  destruct t as [c| | |]; try done.
  cbn [render_token ascii_token]. destruct (special c); [|by rewrite all_chars_cons, andb_true_r].
  by rewrite !all_chars_cons, andb_true_r.
Qed.

Lemma glob_tokens_ascii_bounded n p :
  String.length p ≤ n → forallb ascii_token (glob_tokens p) = all_chars is_ascii p.
Proof.
  revert p. induction n as [|n IH]; intros p Hn.
  { destruct p; [done|simpl in Hn; lia]. }
  destruct p as [|c p]; [done|]. simpl in Hn.
  pose proof (IH p ltac:(lia)) as Hp.
  cbn [glob_tokens]. rewrite all_chars_cons.
  destruct (Ascii.eqb_spec c "*") as [->|Hstar].
  - destruct p as [|d p']; [done|].
    destruct (Ascii.eqb_spec d "*") as [->|Hd].
    + cbn [forallb ascii_token]. rewrite all_chars_cons.
      rewrite IH by (simpl in Hn; lia). done.
    + cbn [forallb ascii_token]. by rewrite Hp.
  - destruct (Ascii.eqb_spec c "?") as [->|Hq]; cbn [forallb ascii_token]; by rewrite Hp.
Qed.

Lemma globToRegex_ascii p :
  all_chars is_ascii (globToRegex p) = all_chars is_ascii p.
Proof.
  rewrite globToRegex_render, !all_chars_app, render_ascii.
  rewrite (glob_tokens_ascii_bounded (String.length p)) by done.
  by rewrite andb_true_r.
Qed.

(** Every translated glob of ASCII compiles, to an expression anchored
    at both ends with one piece for each token of the pattern. *)
Lemma Compile_globToRegex p :
  all_chars is_ascii p = true →
  regexp_Compile (globToRegex p)
  = Some {| re2.bol := true; re2.eol := true;
            re2.pieces := map piece_of (glob_tokens p) |}.
Proof.
  intros Hp. cbn [regexp_Compile re2_engine]. unfold re2.Compile.
  rewrite globToRegex_ascii, Hp. cbn [negb].
  rewrite globToRegex_render, !append_cons, append_nil_l.
  by rewrite (parse_render [] (glob_tokens p)).
Qed.

Lemma all_chars_not_slash w :
  all_chars (re2.atom_ok (re2.Class true ["/"%char])) w
  = all_chars (λ c, negb (Ascii.eqb c "/")) w.
Proof.
  apply all_chars_ext. intros c. cbn [re2.atom_ok existsb].
  rewrite orb_false_r. by destruct (Ascii.eqb c "/").
Qed.

(** [a*] followed by [k] matches [s] exactly when [s] splits into a run
    of characters of [a] and a rest that [k] accepts. *)
Lemma star_loop_spec a k s :
  re2.star_loop a k s = true ↔
  ∃ w r, s = w +:+ r ∧ all_chars (re2.atom_ok a) w = true ∧ k r = true.
Proof.
  induction s as [|c s IH].
  - simpl. rewrite orb_false_r. split.
    + intros Hk. by exists "", "".
    + intros (w & r & Hs & _ & Hk). destruct w; [|done].
      rewrite append_nil_l in Hs. by subst r.
  - cbn [re2.star_loop]. rewrite orb_true_iff, andb_true_iff, IH. split.
    + intros [Hk | [Hc (w & r & -> & Hw & Hk)]].
      * by exists "", (String c s).
      * exists (String c w), r. rewrite all_chars_cons, Hc, Hw. by rewrite append_cons.
    + intros (w & r & Hs & Hw & Hk). destruct w as [|d w].
      * rewrite append_nil_l in Hs. subst r. by left.
      * rewrite append_cons in Hs. injection Hs as <- ->.
        rewrite all_chars_cons in Hw. apply andb_true_iff in Hw as [Hd Hw].
        right. split; [done|]. by exists w, r.
Qed.

(** The compiled pieces of a token sequence match, from the head of the
    text to its end, the texts the sequence stands for with the dot
    read as "every character but the line feed". *)
Lemma match_here_denotes ts s :
  re2.match_here (map piece_of ts) true s = true ↔ glob_denotes not_line_feed ts s.
Proof.
  revert s. induction ts as [|t ts IH]; intros s.
  { simpl. rewrite String.eqb_eq. split; [intros ->; constructor|by inversion 1]. }
  destruct t as [c| | |]; cbn [map piece_of re2.match_here re2.p_star re2.p_atom].
  - destruct s as [|d s]; [split; [done|inversion 1]|].
    cbn [re2.atom_ok]. rewrite andb_true_iff, Ascii.eqb_eq, IH. split.
    + intros [-> Hs]. by constructor.
    + inversion 1; subst. done.
  - rewrite star_loop_spec. split.
    + intros (w & r & -> & Hw & Hr). apply denotes_path; [done|by apply IH].
    + inversion 1; subst. eexists _, _. split; [done|]. split; [done|by apply IH].
  - rewrite star_loop_spec. split.
    + intros (w & r & -> & Hw & Hr). apply denotes_segment; [|by apply IH].
      by rewrite <- all_chars_not_slash.
    + inversion 1 as [| | |w r' s' Hw Hr|]; subst.
      eexists _, _. split; [done|]. split; [|by apply IH].
      by rewrite all_chars_not_slash.
  - destruct s as [|d s]; [split; [done|inversion 1]|].
    cbn [re2.atom_ok]. rewrite andb_true_iff, IH. split.
    + intros [Hd Hs]. by constructor.
    + inversion 1; subst. done.
Qed.

(** What a glob rule of ASCII matches, in full: the texts its tokens
    stand for when [?] and [**] range over every character but the line
    feed. *)
Lemma glob_matches_denotes p s :
  all_chars is_ascii p = true →
  glob_matches p s = true ↔ glob_denotes not_line_feed (glob_tokens p) s.
Proof.
  intros Hp. unfold glob_matches. rewrite Compile_globToRegex by done.
  cbn [MatchString re2_engine re2.MatchString re2.bol re2.eol re2.pieces].
  apply match_here_denotes.
Qed.

Lemma occurs_cons x c s : occurs x (String c s) = Ascii.eqb x c || occurs x s.
Proof. done. Qed.

Lemma occurs_app x w s : occurs x (w +:+ s) = occurs x w || occurs x s.
Proof.
  induction w as [|c w IH]; [done|].
  by rewrite append_cons, !occurs_cons, IH, orb_assoc.
Qed.

Lemma all_chars_not_line_feed w :
  occurs "010" w = false → all_chars not_line_feed w = true.
Proof.
  induction w as [|c w IH]; [done|].
  rewrite occurs_cons, all_chars_cons. intros [Hc Hw]%orb_false_iff.
  unfold not_line_feed at 1. by rewrite Ascii.eqb_sym, Hc, IH.
Qed.

(** On a text without a line feed the two readings agree. *)
Lemma glob_denotes_line_feed_free ts s :
  occurs "010" s = false →
  glob_denotes not_line_feed ts s ↔ glob_denotes every_char ts s.
Proof.
  intros Hs. split; intros Hd.
  - induction Hd; try (constructor; auto; fail).
    + rewrite occurs_cons in Hs. apply orb_false_iff in Hs as [_ Hs].
      constructor. auto.
    + rewrite occurs_cons in Hs. apply orb_false_iff in Hs as [_ Hs].
      constructor; [done|auto].
    + rewrite occurs_app in Hs. apply orb_false_iff in Hs as [_ Hs].
      apply denotes_segment; auto.
    + rewrite occurs_app in Hs. apply orb_false_iff in Hs as [_ Hs].
      apply denotes_path; [|auto]. clear. by induction w.
  - induction Hd.
    + constructor.
    + rewrite occurs_cons in Hs. apply orb_false_iff in Hs as [_ Hs].
      constructor. auto.
    + rewrite occurs_cons in Hs. apply orb_false_iff in Hs as [Hc Hs].
      constructor; [|auto]. unfold not_line_feed. by rewrite Ascii.eqb_sym, Hc.
    + rewrite occurs_app in Hs. apply orb_false_iff in Hs as [_ Hs].
      apply denotes_segment; auto.
    + rewrite occurs_app in Hs. apply orb_false_iff in Hs as [Hw Hs].
      apply denotes_path; [|auto]. by apply all_chars_not_line_feed.
Qed.

(** The translation of globs is right on every ASCII text without a
    line feed: for a pattern of ASCII, the compiled matcher accepts the
    text exactly when the pattern, read as the specification reads it,
    stands for it. *)
Theorem glob_refines_spec p s :
  all_chars is_ascii p = true → all_chars is_ascii s = true →
  occurs "010" s = false →
  glob_matches p s = true ↔ glob_denotes every_char (glob_tokens p) s.
Proof.
  intros Hp _ Hs. rewrite glob_matches_denotes by done.
  by apply glob_denotes_line_feed_free.
Qed.

Lemma glob_refines_spec_witness : glob_matches "**/test" "a/b/test" = true.
Proof.
  apply (glob_refines_spec "**/test" "a/b/test" eq_refl eq_refl eq_refl).
  apply (denotes_path every_char "a/b" [GLit "/"; GLit "t"; GLit "e"; GLit "s"; GLit "t"]
           "/test" eq_refl).
  repeat constructor.
Defined.

(** C2. The translation reads [?] and [**] as the dot of the compiled
    expression, and the dot does not match the line feed: the glob
    [a?c] does not match the three characters [a], line feed, [c],
    although [?] stands for exactly one character, and the glob
    [**/test] does not match a path whose first directory has a line
    feed in its name, although [**] stands for any run of characters;
    a path with a line feed slips through a rule that should exclude
    it.  (The examples of the claim hold: [*.log] matches [app.log] and
    the base name of [dir/app.log] but not [app.log.bak], [**/test]
    matches [a/b/test], and [*/test] does not.) *)
Theorem C2_line_feed_not_matched :
  glob_matches "a?c" (String "a" (String "010" "c")) = false ∧
  glob_denotes every_char (glob_tokens "a?c") (String "a" (String "010" "c")) ∧
  glob_matches "**/test" (String "a" (String "010" "b/test")) = false ∧
  glob_denotes every_char (glob_tokens "**/test") (String "a" (String "010" "b/test")) ∧
  ShouldExclude (NewExcludeMatcher [glob_rule "a?c"]) (String "a" (String "010" "c")) false
    = false ∧
  glob_matches "*.log" "app.log" = true ∧
  glob_matches "*.log" (filepath.Base "dir/app.log") = true ∧
  glob_matches "*.log" "app.log.bak" = false ∧
  glob_matches "**/test" "a/b/test" = true ∧
  glob_matches "*/test" "a/b/test" = false.
Proof.
  split; [reflexivity|]. split; [repeat constructor|].
  split; [reflexivity|]. split.
  { apply (denotes_path every_char (String "a" (String "010" "b"))
             [GLit "/"; GLit "t"; GLit "e"; GLit "s"; GLit "t"] "/test" eq_refl).
    repeat constructor. }
  repeat split; reflexivity.
Qed.

(** ** Further properties of the exclusion matcher *)

Lemma existsb_Permutation {A} (f : A → bool) (l l' : list A) :
  l ≡ₚ l' → existsb f l = existsb f l'.
Proof.
  induction 1 as [|x l l' _ IH|x y l|l l' l'' _ IH _ IH']; simpl.
  - done.
  - by rewrite IH.
  - by rewrite !orb_assoc, (orb_comm (f y)).
  - by rewrite IH.
Qed.

Section MatcherExtras.

Context `{RegexpEngine}.

(** X1. The order of the rules does not matter: two rule sets that are
    permutations of each other exclude the same paths. *)
Theorem X1_rule_order_irrelevant (rs rs' : list ExcludeRule) path isDir :
  rs ≡ₚ rs' →
  ShouldExclude (NewExcludeMatcher rs) path isDir
  = ShouldExclude (NewExcludeMatcher rs') path isDir.
Proof.
  intros Hperm. rewrite !ShouldExclude_spec. by apply existsb_Permutation.
Qed.

(** X2. What lies under an excluded directory is excluded: when every
    enabled rule is directory-scoped and the directory made of the
    segments [dirs] is excluded, so is every file directly or deeper
    below it. *)
Theorem X2_descendants_excluded (rs : list ExcludeRule) (dirs below : list string)
    (name : string) :
  Forall (λ r, Enabled r = true → IsDir r = true) rs →
  dirs ≠ [] → Forall segment dirs → Forall segment below → segment name →
  ShouldExclude (NewExcludeMatcher rs) (strings.Join dirs "/") true = true →
  ShouldExclude (NewExcludeMatcher rs) (strings.Join (dirs ++ below ++ [name]) "/") false
  = true.
Proof.
  intros Hall Hne Hdirs Hbelow Hname. rewrite !ShouldExclude_spec.
  rewrite !existsb_exists. intros (r & Hin & Hhit). exists r. split; [done|].
  unfold rule_hits in *. destruct (Enabled r) eqn:Hen; [|done]. simpl in *.
  rewrite Forall_forall in Hall.
  rewrite (Hall r (proj2 (list_elem_of_In _ _) Hin) Hen) in *.
  destruct (regex (compile_rule r)) as [re|]; [|done].
  rewrite (Split_Join "/" dirs Hne Hdirs) in Hhit.
  rewrite (Split_Join "/" (dirs ++ below ++ [name])).
  - rewrite app_assoc, removelast_last.
    rewrite existsb_app, Hhit. done.
  - by destruct dirs.
  - repeat (apply Forall_app; split); auto.
Qed.

End MatcherExtras.

Lemma X1_rule_order_irrelevant_witness :
  ShouldExclude (NewExcludeMatcher [glob_rule "*.log"; bin_rule]) "bin/app.dll" false
  = ShouldExclude (NewExcludeMatcher [bin_rule; glob_rule "*.log"]) "bin/app.dll" false.
Proof.
  apply (X1_rule_order_irrelevant (H := re2_engine)). apply perm_swap.
Defined.

Lemma X2_descendants_excluded_witness :
  ShouldExclude (NewExcludeMatcher [bin_rule]) "src/bin/Debug/net8/app.dll" false = true.
Proof.
  refine (X2_descendants_excluded (H := re2_engine) [bin_rule] ["src"; "bin"]
            ["Debug"; "net8"] "app.dll" _ _ _ _ _ _);
    try reflexivity; try discriminate; repeat constructor.
Defined.

(** ** Further properties of the translation of globs *)

Lemma glob_tokens_plain p :
  occurs "*" p = false → occurs "?" p = false → glob_tokens p = literals p.
Proof.
  induction p as [|c p IH]; [done|].
  rewrite !occurs_cons. intros [Hc Hp]%orb_false_iff [Hc' Hp']%orb_false_iff.
  rewrite literals_cons. cbn [glob_tokens].
  rewrite (Ascii.eqb_sym c "*"), Hc, (Ascii.eqb_sym c "?"), Hc'. by rewrite IH.
Qed.

Lemma denotes_literals any p s : glob_denotes any (literals p) s ↔ s = p.
Proof.
  revert s. induction p as [|c p IH]; intros s.
  - split; [by inversion 1|intros ->; constructor].
  - rewrite literals_cons. split.
    + inversion 1 as [|? ? s' Hs'| | |]; subst. f_equal. by apply IH.
    + intros ->. constructor. by apply IH.
Qed.

(** X3. What a glob rule matches, in full, for a pattern and a text of
    ASCII: the text is matched exactly when it can be cut along the
    tokens of the pattern, a plain character standing for itself, [?]
    for one character other than the line feed, [*] for any run of
    characters other than the slash, and [**] for any run of characters
    other than the line feed. *)
Theorem X3_glob_meaning (p s : string) :
  all_chars is_ascii p = true → all_chars is_ascii s = true →
  glob_matches p s = true ↔ glob_denotes not_line_feed (glob_tokens p) s.
Proof. intros Hp _. by apply glob_matches_denotes. Qed.

Lemma X3_glob_meaning_witness :
  glob_matches "a?c" "abc" = true ∧
  ¬ glob_denotes not_line_feed (glob_tokens "a?c") (String "a" (String "010" "c")).
Proof.
  split.
  - apply (X3_glob_meaning "a?c" "abc" eq_refl eq_refl). repeat constructor.
  - intros Hd.
    apply (X3_glob_meaning "a?c" (String "a" (String "010" "c")) eq_refl eq_refl) in Hd.
    discriminate Hd.
Defined.

(** X4. A glob of ASCII without [*] and [?] matches, among the texts
    of ASCII, its own text and nothing else: the characters that mean
    something in a regular expression (the dot, brackets, the plus
    sign, ...) are taken literally. *)
Theorem X4_plain_glob_matches_itself (p s : string) :
  all_chars is_ascii p = true → all_chars is_ascii s = true →
  occurs "*" p = false → occurs "?" p = false →
  glob_matches p s = true ↔ s = p.
Proof.
  intros Hp _ Hstar Hq. rewrite glob_matches_denotes, glob_tokens_plain by done.
  apply denotes_literals.
Qed.

Lemma X4_plain_glob_matches_itself_witness :
  glob_matches "Thumbs.db" "Thumbs.db" = true ∧ glob_matches "Thumbs.db" "Thumbsxdb" = false.
Proof.
  split.
  - by apply (X4_plain_glob_matches_itself "Thumbs.db" "Thumbs.db"
                eq_refl eq_refl eq_refl eq_refl).
  - destruct (glob_matches "Thumbs.db" "Thumbsxdb") eqn:Hm; [|done].
    by apply (X4_plain_glob_matches_itself "Thumbs.db" "Thumbsxdb"
                eq_refl eq_refl eq_refl eq_refl) in Hm.
Defined.

(** X5. A glob rule of ASCII is never inert: whatever characters of
    ASCII its pattern is made of, the translated expression compiles,
    so every such enabled rule that is not of type "regex" takes part
    in [ShouldExclude]. *)
Theorem X5_glob_rule_compiles (r : ExcludeRule) :
  all_chars is_ascii (Pattern r) = true →
  String.eqb (rule_Type r) "regex" = false →
  Enabled r = true →
  compiled_ok r = true.
Proof.
  intros Hp Hty Hen. unfold compiled_ok, compile_rule. rewrite Hty, Hen. cbn [regex].
  rewrite Compile_globToRegex by done.
  apply bool_decide_eq_true_2. by eexists.
Qed.

Lemma X5_glob_rule_compiles_witness : compiled_ok (glob_rule "[*](+") = true.
Proof. apply (X5_glob_rule_compiles (glob_rule "[*](+") eq_refl eq_refl eq_refl). Defined.

Lemma all_chars_not (x : ascii) w :
  all_chars (λ c, negb (Ascii.eqb c x)) w = negb (occurs x w).
Proof.
  induction w as [|c w IH]; [done|].
  rewrite all_chars_cons, occurs_cons, IH, negb_orb. by rewrite (Ascii.eqb_sym c x).
Qed.

(** X6. A single star stays inside one path segment: a glob made of a
    star followed by plain text of ASCII matches, among the texts of
    ASCII, exactly those that end in that text and have no slash before
    it. *)
Theorem X6_star_suffix_glob (suffix s : string) :
  all_chars is_ascii suffix = true → all_chars is_ascii s = true →
  occurs "*" suffix = false → occurs "?" suffix = false →
  glob_matches (String "*" suffix) s = true ↔
  ∃ w, s = w +:+ suffix ∧ occurs "/" w = false.
Proof.
  intros Hp _ Hstar Hq. rewrite glob_matches_denotes by done.
  assert (Htok : glob_tokens (String "*" suffix) = GAnySegment :: literals suffix).
  { cbn [glob_tokens Ascii.eqb Bool.eqb]. cbn iota.
    rewrite <- (glob_tokens_plain suffix Hstar Hq).
    destruct suffix as [|d suffix']; [done|].
    rewrite occurs_cons in Hstar. apply orb_false_iff in Hstar as [Hd _].
    by rewrite (Ascii.eqb_sym d "*"), Hd. }
  rewrite Htok. split.
  - inversion 1 as [| | |w ts s' Hw Hs'|]; subst. apply denotes_literals in Hs' as ->.
    exists w. split; [done|].
    rewrite all_chars_not in Hw. by apply negb_true_iff in Hw.
  - intros (w & -> & Hw). apply denotes_segment; [|by apply denotes_literals].
    by rewrite all_chars_not, Hw.
Qed.

Lemma X6_star_suffix_glob_witness :
  glob_matches "*.log" "app.log" = true.
Proof.
  apply (X6_star_suffix_glob ".log" "app.log" eq_refl eq_refl eq_refl eq_refl).
  by exists "app".
Defined.

(** ** Further properties of [Compare] *)

Lemma count_type_app ty l l' :
  count_type ty (l ++ l') = count_type ty l + count_type ty l'.
Proof. unfold count_type. by rewrite List.filter_app, length_app. Qed.

Section CompareExtras.

Context `{RegexpEngine} `{Host}.

Variable c : Comparer.
Variable fs : FileSystem.

Lemma archive_step_counters workFiles total st e :
  counters_agree (result st) →
  counters_agree (result (compare_archive_entry c fs workFiles total st e)).
Proof.
  intros (Ha & Hm & Hd & Hl). destruct e as [relPath zipFile].
  unfold compare_archive_entry.
  destruct (shouldExclude c relPath false); [done|].
  destruct (workFiles !! relPath) as [w|].
  - destruct (getZipFileHash zipFile) as [zh|]; [|done].
    destruct (fileHash fs w) as [wh|]; [|done].
    destruct (String.eqb zh wh); [done|].
    unfold counters_agree; simpl. rewrite !count_type_app, length_app.
    unfold count_type at 2 4 6; simpl. lia.
  - unfold counters_agree; simpl. rewrite !count_type_app, length_app.
    unfold count_type at 2 4 6; simpl. lia.
Qed.

Lemma work_step_counters zipFiles total st e :
  counters_agree (result st) →
  counters_agree (result (compare_work_entry c zipFiles total st e)).
Proof.
  intros (Ha & Hm & Hd & Hl). destruct e as [relPath w].
  unfold compare_work_entry, filepath.ToSlash.
  destruct (shouldExclude c relPath false); [done|].
  destruct (zipFiles !! relPath); [done|].
  unfold counters_agree; simpl. rewrite !count_type_app, length_app.
  unfold count_type at 2 4 6; simpl. lia.
Qed.

Lemma fold_left_invariant {S E} (P : S → Prop) (step : S → E → S) l st :
  (∀ st e, P st → P (step st e)) → P st → P (fold_left step l st).
Proof.
  intros Hstep. revert st. induction l as [|e l IH]; intros st Hst; simpl; auto.
Qed.

Lemma compare_listings_counters zipFiles workFiles :
  let r := result (compare_listings c fs zipFiles workFiles) in
  counters_agree r ∧ TotalFiles r = length (Items r).
Proof.
  unfold compare_listings. simpl. split; [|done].
  set (P := λ st : progress_state, counters_agree (result st)).
  assert (HP : P (fold_left (compare_work_entry c zipFiles (size zipFiles + size workFiles))
                    (range workFiles)
                    (fold_left (compare_archive_entry c fs workFiles
                                  (size zipFiles + size workFiles))
                       (range zipFiles)
                       {| result := {| Items := []; TotalFiles := 0; Added := 0;
                                       Modified := 0; Deleted := 0 |};
                          processed := 0; calls := [] |}))).
  { apply (fold_left_invariant P); [intros; by apply work_step_counters|].
    apply (fold_left_invariant P); [intros; by apply archive_step_counters|].
    repeat split. }
  exact HP.
Qed.

(** X7. The counters of a result are tallied from its items: the three
    counters are the numbers of items of the three types, they add up
    to the number of items, and [TotalFiles] is that number. *)
Theorem X7_counters_agree z workFiles dirs :
  NewZipReader (zipPath c) = Ok z →
  getAllFilesAndDirs (workDir c) = (workFiles, dirs, true) →
  ∃ res calls, Compare c fs = (Ok res, calls) ∧
    Added res = count_type "added" (Items res) ∧
    Modified res = count_type "modified" (Items res) ∧
    Deleted res = count_type "deleted" (Items res) ∧
    TotalFiles res = length (Items res) ∧
    TotalFiles res = Added res + Modified res + Deleted res.
Proof.
  intros Hz Hw. eexists _, _. split; [by apply (Compare_ok c fs z workFiles dirs)|].
  destruct (compare_listings_counters (ListFiles z) workFiles)
    as [(Ha & Hm & Hd & Hl) Ht].
  rewrite Ht. repeat split; done.
Qed.

(** X8. Every item of a result is accounted for: its path is not
    excluded, it is selected, and it is either a "deleted" item without
    a source for a path of the archive listing that the working
    directory lacks, or a "modified" item for a path of both listings,
    or an "added" item for a path of the working directory that the
    archive lacks; the source of the last two is the working file. *)
Theorem X8_items_accounted_for z workFiles dirs :
  NewZipReader (zipPath c) = Ok z →
  getAllFilesAndDirs (workDir c) = (workFiles, dirs, true) →
  ∃ res calls, Compare c fs = (Ok res, calls) ∧
    ∀ it, it ∈ Items res →
      shouldExclude c (RelPath it) false = false ∧ Selected it = true ∧
      ((item_Type it = "deleted" ∧ SourcePath it = "" ∧
        is_Some (ListFiles z !! RelPath it) ∧ workFiles !! RelPath it = None) ∨
       (item_Type it = "modified" ∧ workFiles !! RelPath it = Some (SourcePath it) ∧
        is_Some (ListFiles z !! RelPath it)) ∨
       (item_Type it = "added" ∧ workFiles !! RelPath it = Some (SourcePath it) ∧
        ListFiles z !! RelPath it = None)).
Proof.
  intros Hz Hw. eexists _, _. split; [by apply (Compare_ok c fs z workFiles dirs)|].
  destruct (compare_listings_spec c fs (ListFiles z) workFiles) as [-> _].
  intros it [Hit|Hit]%elem_of_app.
  - apply list_elem_of_In, in_flat_map in Hit as ([p zf] & Hin & Hit).
    apply list_elem_of_In, range_lookup in Hin. apply list_elem_of_In in Hit.
    unfold archive_entry_items in Hit. simpl in Hit.
    destruct (shouldExclude c p false) eqn:Hex; [by apply elem_of_nil in Hit|].
    destruct (workFiles !! p) as [w|] eqn:Hwf.
    + destruct (getZipFileHash zf), (fileHash fs w); try by apply elem_of_nil in Hit.
      destruct (negb _); [|by apply elem_of_nil in Hit].
      apply list_elem_of_singleton in Hit as ->. simpl.
      repeat split; try done. right; left. by rewrite Hin.
    + apply list_elem_of_singleton in Hit as ->. simpl.
      repeat split; try done. left. by rewrite Hin.
  - apply list_elem_of_In, in_flat_map in Hit as ([p w] & Hin & Hit).
    apply list_elem_of_In, range_lookup in Hin. apply list_elem_of_In in Hit.
    unfold work_entry_items in Hit. simpl in Hit.
    destruct (shouldExclude c p false) eqn:Hex; [by apply elem_of_nil in Hit|].
    destruct (ListFiles z !! p) eqn:Hzf; [by apply elem_of_nil in Hit|].
    apply list_elem_of_singleton in Hit as ->. simpl.
    repeat split; try done. right; right. done.
Qed.

(** X9. The items come in two runs: first those of the archive side
    ("deleted" and "modified"), then the "added" ones. *)
Theorem X9_archive_side_first z workFiles dirs :
  NewZipReader (zipPath c) = Ok z →
  getAllFilesAndDirs (workDir c) = (workFiles, dirs, true) →
  ∃ res calls first second, Compare c fs = (Ok res, calls) ∧
    Items res = first ++ second ∧
    Forall (λ it, item_Type it = "deleted" ∨ item_Type it = "modified") first ∧
    Forall (λ it, item_Type it = "added") second.
Proof.
  intros Hz Hw. eexists _, _, _, _.
  split; [by apply (Compare_ok c fs z workFiles dirs)|].
  split; [apply compare_listings_spec|]. split.
  - apply Forall_forall. intros it Hit.
    apply list_elem_of_In, in_flat_map in Hit as ([p zf] & _ & Hit).
    unfold archive_entry_items in Hit.
    repeat case_match; simpl in Hit; try done;
      destruct Hit as [<-|?]; try done; auto.
  - apply Forall_forall. intros it Hit.
    apply list_elem_of_In, in_flat_map in Hit as ([p w] & _ & Hit).
    unfold work_entry_items in Hit.
    repeat case_match; simpl in Hit; try done;
      destruct Hit as [<-|?]; try done; auto.
Qed.

End CompareExtras.

Section CompareExtras2.

Context `{RegexpEngine} `{Host}.

Variable c : Comparer.
Variable fs : FileSystem.

Lemma flat_map_nil {A B} (f : A → list B) l :
  (∀ x, x ∈ l → f x = []) → flat_map f l = [].
Proof.
  induction l as [|x l IH]; [done|]. intros Hf. simpl.
  rewrite (Hf x) by left. apply IH. intros y Hy. apply Hf. by right.
Qed.

(** X10. Two trees with the same relative paths and, path by path, the
    same readable bytes compare to an empty result with all counters at
    zero, whatever the exclusion rules. *)
Theorem X10_identical_trees z workFiles dirs :
  NewZipReader (zipPath c) = Ok z →
  getAllFilesAndDirs (workDir c) = (workFiles, dirs, true) →
  (∀ p zf, ListFiles z !! p = Some zf →
     ∃ w data, workFiles !! p = Some w ∧ entry_Data zf = Some data ∧ fs !! w = Some data) →
  (∀ p w, workFiles !! p = Some w → is_Some (ListFiles z !! p)) →
  ∃ calls, Compare c fs
    = (Ok {| Items := []; TotalFiles := 0; Added := 0; Modified := 0; Deleted := 0 |},
       calls).
Proof.
  intros Hz Hw Hsame Hdom. eexists.
  rewrite (Compare_ok c fs z workFiles dirs Hz Hw). f_equal. f_equal.
  destruct (compare_listings_spec c fs (ListFiles z) workFiles) as [Hitems _].
  destruct (compare_listings_counters c fs (ListFiles z) workFiles)
    as [(Ha & Hm & Hd & _) Ht].
  rewrite flat_map_nil, flat_map_nil in Hitems.
  - destruct (result (compare_listings c fs (ListFiles z) workFiles))
      as [items total a m d]. simpl in *. subst. done.
  - intros [p w] Hin%range_lookup. unfold work_entry_items; simpl.
    destruct (shouldExclude c p false); [done|].
    by destruct (Hdom p w Hin) as [zf ->].
  - intros [p zf] Hin%range_lookup. unfold archive_entry_items; simpl.
    destruct (shouldExclude c p false); [done|].
    destruct (Hsame p zf Hin) as (w & data & -> & Hd' & Hfs).
    unfold getZipFileHash, fileHash. rewrite Hd', Hfs. simpl.
    by rewrite String.eqb_refl.
Qed.

Lemma walk_callback_ok root visits files dirs :
  (walk_callback root visits files dirs).2 = true ↔ Forall (λ v, is_Some v.2) visits.
Proof.
  revert files dirs. induction visits as [|[path [isDir|]] visits IH]; intros files dirs.
  - simpl. split; [constructor|done].
  - cbn [walk_callback]. rewrite Forall_cons.
    destruct (String.eqb _ "."); [|destruct isDir]; rewrite IH; simpl;
      split; try tauto; intros ?; (split; [by eexists|done]).
  - simpl. split; [done|]. intros [[? ?] _]%Forall_cons. done.
Qed.

(** X11. [Compare] fails exactly when the archive cannot be opened or
    some visit of the walk reports an error (one unreadable entry
    aborts the scan), and a run that fails has not called the progress
    callback. *)
Theorem X11_failure_modes :
  ((∃ res, (Compare c fs).1 = Ok res) ↔
   is_Some (zip_OpenReader (zipPath c)) ∧
   Forall (λ v, is_Some v.2) (filepath_Walk (workDir c))) ∧
  (∀ msg, (Compare c fs).1 = Error msg → (Compare c fs).2 = []).
Proof.
  unfold Compare, NewZipReader, getAllFilesAndDirs.
  pose proof (walk_callback_ok (workDir c) (filepath_Walk (workDir c)) ∅ ∅) as Hwalk.
  destruct (zip_OpenReader (zipPath c)) as [entries|]; simpl.
  - destruct (walk_callback _ _ _ _) as [[files dirs] [|]]; simpl in *.
    + split; [|done]. split; [|by eexists].
      intros _. split; [by eexists|]. by apply Hwalk.
    + split; [|done]. split; [by intros [? ?]|].
      intros [_ Hall]. apply Hwalk in Hall. done.
  - split; [|done]. split; [by intros [? ?]|]. by intros [[? ?] _].
Qed.

Lemma examined_length (l : list string) : length (examined c l) ≤ length l.
Proof.
  unfold examined. induction l as [|p l IH]; simpl; [done|].
  destruct (negb _); simpl; lia.
Qed.

Lemma progress_calls_bound start total ps :
  Forall (λ e, Current e ≤ start + length ps) (progress_calls start total ps).
Proof.
  revert start. induction ps as [|p ps IH]; intros start; simpl; constructor.
  - simpl. lia.
  - eapply Forall_impl; [apply IH|]. simpl. intros; lia.
Qed.

(** X12. The progress never runs past its total: on every call the
    running counter is at most the total. *)
Theorem X12_progress_within_total z workFiles dirs :
  NewZipReader (zipPath c) = Ok z →
  getAllFilesAndDirs (workDir c) = (workFiles, dirs, true) →
  ∃ res calls, Compare c fs = (Ok res, calls) ∧
    Forall (λ e, 1 ≤ Current e ∧ Current e ≤ Total e) calls.
Proof.
  intros Hz Hw. eexists _, _. split; [by apply (Compare_ok c fs z workFiles dirs)|].
  destruct (compare_listings_spec c fs (ListFiles z) workFiles) as [_ ->].
  rewrite <- (progress_calls_app 0).
  destruct (OnProgress c); [|constructor].
  set (ps := examined c (range (ListFiles z)).*1 ++ examined c (range workFiles).*1).
  assert (Hlen : length ps ≤ size (ListFiles z) + size workFiles).
  { unfold ps. rewrite length_app.
    pose proof (examined_length (range (ListFiles z)).*1).
    pose proof (examined_length (range workFiles).*1).
    rewrite !length_fmap, !range_length in *. lia. }
  pose proof (progress_calls_bound 0 (size (ListFiles z) + size workFiles) ps) as Hb.
  pose proof (progress_calls_Total 0 (size (ListFiles z) + size workFiles) ps) as Ht.
  pose proof (progress_calls_Current 0 (size (ListFiles z) + size workFiles) ps) as Hc.
  apply Forall_forall. intros e He.
  rewrite Forall_forall in Hb, Ht. rewrite (Ht e He).
  split; [|specialize (Hb e He); simpl in Hb; lia].
  assert (Hin : Current e ∈ seq 1 (length ps)).
  { rewrite <- Hc. apply list_elem_of_fmap. eauto. }
  apply elem_of_seq in Hin. lia.
Qed.

End CompareExtras2.

Lemma X7_counters_agree_witness :
  ∃ res, (Compare demo_comparer demo_fs).1 = Ok res ∧
    TotalFiles res = Added res + Modified res + Deleted res.
Proof.
  destruct (X7_counters_agree demo_comparer demo_fs demo_reader demo_workFiles demo_dirs
              demo_opens demo_walks) as (res & calls & Hrun & _ & _ & _ & _ & Hsum).
  exists res. split; [by rewrite Hrun|exact Hsum].
Defined.

Lemma X8_items_accounted_for_witness :
  ∃ res, (Compare demo_comparer demo_fs).1 = Ok res ∧
    Forall (λ it, Selected it = true) (Items res).
Proof.
  destruct (X8_items_accounted_for demo_comparer demo_fs demo_reader demo_workFiles
              demo_dirs demo_opens demo_walks) as (res & calls & Hrun & Hall).
  exists res. split; [by rewrite Hrun|].
  apply Forall_forall. intros it Hit. by destruct (Hall it Hit) as (_ & ? & _).
Defined.

Lemma X9_archive_side_first_witness :
  ∃ res first second, (Compare demo_comparer demo_fs).1 = Ok res ∧
    Items res = first ++ second ∧ Forall (λ it, item_Type it = "added") second.
Proof.
  destruct (X9_archive_side_first demo_comparer demo_fs demo_reader demo_workFiles
              demo_dirs demo_opens demo_walks)
    as (res & calls & first & second & Hrun & Hitems & _ & Hsecond).
  exists res, first, second. split; [by rewrite Hrun|].
  split; [exact Hitems|exact Hsecond].
Defined.

Lemma twin_opens : NewZipReader (H := twin_host) (zipPath twin_comparer) = Ok twin_reader.
Proof. reflexivity. Qed.

Lemma twin_walks :
  getAllFilesAndDirs (H := twin_host) (workDir twin_comparer)
  = (twin_workFiles, twin_dirs, true).
Proof. vm_compute. reflexivity. Qed.

Lemma twin_listing :
  map_to_list (ListFiles twin_reader)
  = [("src/b.txt", {| Name := "root/src/b.txt"; mode_IsDir := false;
                      entry_Data := Some "2" |});
     ("a.txt", {| Name := "root/a.txt"; mode_IsDir := false; entry_Data := Some "1" |})].
Proof. vm_compute. reflexivity. Qed.

Lemma twin_work_listing :
  map_to_list twin_workFiles = [("src/b.txt", "work/src/b.txt"); ("a.txt", "work/a.txt")].
Proof. vm_compute. reflexivity. Qed.

Lemma X10_identical_trees_witness :
  ∃ calls, Compare (H0 := twin_host) twin_comparer twin_fs
    = (Ok {| Items := []; TotalFiles := 0; Added := 0; Modified := 0; Deleted := 0 |},
       calls).
Proof.
  apply (X10_identical_trees (H0 := twin_host) twin_comparer twin_fs twin_reader
           twin_workFiles twin_dirs twin_opens twin_walks).
  - intros p zf Hl. apply elem_of_map_to_list in Hl. rewrite twin_listing in Hl.
    apply elem_of_cons in Hl as [Hl|Hl].
    { injection Hl as -> ->. exists "work/src/b.txt", "2".
      repeat split; vm_compute; reflexivity. }
    apply elem_of_cons in Hl as [Hl|Hl].
    { injection Hl as -> ->. exists "work/a.txt", "1".
      repeat split; vm_compute; reflexivity. }
    by apply elem_of_nil in Hl.
  - intros p w Hl. apply elem_of_map_to_list in Hl. rewrite twin_work_listing in Hl.
    apply elem_of_cons in Hl as [Hl|Hl].
    { injection Hl as -> ->. vm_compute. by eexists. }
    apply elem_of_cons in Hl as [Hl|Hl].
    { injection Hl as -> ->. vm_compute. by eexists. }
    by apply elem_of_nil in Hl.
Defined.

Lemma X12_progress_within_total_witness :
  ∃ calls, (Compare demo_comparer demo_fs).2 = calls ∧
    Forall (λ e, 1 ≤ Current e ∧ Current e ≤ Total e) calls.
Proof.
  destruct (X12_progress_within_total demo_comparer demo_fs demo_reader demo_workFiles
              demo_dirs demo_opens demo_walks) as (res & calls & Hrun & Hall).
  exists calls. split; [by rewrite Hrun|exact Hall].
Defined.

(** ** Further properties of the archive listing *)

Lemma find_app {A} (P : A → bool) l l' :
  List.find P (l ++ l') = match List.find P l with
                          | Some x => Some x
                          | None => List.find P l'
                          end.
Proof. induction l as [|x l IH]; simpl; [done|]. by destruct (P x). Qed.

Lemma ListFiles_loop_last root entries files key :
  key ≠ "" →
  ListFiles_loop root entries files !! key
  = match List.find (λ f, negb (file_IsDir f) && String.eqb (listing_key root f) key)
            (rev entries) with
    | Some f => Some f
    | None => files !! key
    end.
Proof.
  intros Hkey. revert files. induction entries as [|e entries IH]; intros files; [done|].
  cbn [ListFiles_loop rev]. rewrite find_app. cbn [List.find].
  destruct (file_IsDir e); cbn [negb andb].
  { rewrite IH. by destruct (List.find _ _). }
  destruct (String.eqb_spec (listing_key root e) "") as [Hempty|Hne]; cbn [negb].
  { rewrite IH. destruct (List.find _ _); [done|].
    destruct (String.eqb_spec (listing_key root e) key); [congruence|done]. }
  rewrite IH. destruct (List.find _ _); [done|].
  destruct (String.eqb_spec (listing_key root e) key) as [<-|Hk].
  - by rewrite lookup_insert_eq.
  - by rewrite lookup_insert_ne.
Qed.

Lemma listing_last_with_key (z : ZipReader) (key : string) :
  key ≠ "" → ListFiles z !! key = last_with_key z key.
Proof.
  intros Hne. unfold ListFiles, last_with_key.
  rewrite ListFiles_loop_last by done. rewrite lookup_empty.
  by destruct (List.find _ _).
Qed.

(** X13. When several entries fall on the same key the later one wins:
    what the listing holds under a non-empty key is the last entry of
    the archive that is not a directory and has that key, and the empty
    key is never listed. *)
Theorem X13_listing_last_wins (z : ZipReader) (key : string) :
  ListFiles z !! key = (if String.eqb key "" then None else last_with_key z key).
Proof.
  unfold ListFiles, last_with_key.
  destruct (String.eqb_spec key "") as [->|Hne].
  - destruct (ListFiles_loop _ _ _ !! "") as [f|] eqn:Hl; [|done].
    apply ListFiles_loop_lookup in Hl as [Hl|(_ & _ & _ & Hk)]; [|done].
    by rewrite lookup_empty in Hl.
  - rewrite ListFiles_loop_last by done. rewrite lookup_empty.
    by destruct (List.find _ _).
Qed.

Lemma find_unique {A} (P : A → bool) l x :
  x ∈ l → P x = true → (∀ y, y ∈ l → P y = true → y = x) → List.find P l = Some x.
Proof.
  intros Hin HP Huniq. destruct (List.find P l) as [y|] eqn:Hf.
  - apply find_some in Hf as [Hy HPy]. f_equal. apply Huniq; [by apply list_elem_of_In|done].
  - apply list_elem_of_In in Hin. by rewrite (find_none _ _ Hf x Hin) in HP.
Qed.

Lemma elem_of_rev {A} (x : A) l : x ∈ rev l ↔ x ∈ l.
Proof. rewrite !list_elem_of_In. symmetry. apply in_rev. Qed.

Lemma length_append a b : String.length (a +:+ b) = String.length a + String.length b.
Proof.
  induction a as [|c a IH]; [done|]. rewrite append_cons. simpl. by rewrite IH.
Qed.

Lemma HasSuffix_app a b : strings.HasSuffix (a +:+ b) b = true.
Proof.
  unfold strings.HasSuffix. rewrite length_append.
  replace (String.length a + String.length b - String.length b) with (String.length a) by lia.
  rewrite drop_app, String.eqb_refl, andb_true_r. apply Nat.leb_le. lia.
Qed.

(** X14. In an archive wrapped in one folder nothing is lost: when the
    root folder is not empty, every name starts with the root folder
    and a slash, and no two entries have the same name, each entry that
    is not a directory is listed under its name without that prefix. *)
Theorem X14_wrapped_archive_listing (z : ZipReader) (f : zip_File) (tail : string) :
  GetRootFolder z ≠ "" →
  (∀ g, g ∈ File z → ∃ t, Name g = GetRootFolder z +:+ "/" +:+ t) →
  NoDup (Name <$> File z) →
  f ∈ File z → file_IsDir f = false →
  Name f = GetRootFolder z +:+ "/" +:+ tail →
  ListFiles z !! tail = Some f.
Proof.
  intros Hroot Hwrapped Hnodup Hf Hdir Hname.
  assert (Htail : tail ≠ "").
  { intros ->. unfold file_IsDir in Hdir. apply orb_false_iff in Hdir as [_ Hs].
    rewrite Hname in Hs. rewrite <- (append_assoc _ "/" "") in Hs.
    rewrite append_nil_r in Hs. by rewrite (HasSuffix_app (GetRootFolder z) "/") in Hs. }
  rewrite listing_last_with_key by done. unfold last_with_key.
  apply find_unique.
  - by apply elem_of_rev.
  - rewrite Hdir. cbn [negb andb]. apply String.eqb_eq.
    by apply listing_key_strip.
  - intros g Hg [Hgdir Hgkey%String.eqb_eq]%andb_true_iff.
    apply (proj1 (elem_of_rev _ _)) in Hg.
    destruct (Hwrapped g Hg) as [t Ht].
    rewrite (listing_key_strip _ g t Hroot Ht) in Hgkey. subst t.
    assert (Hnames : Name g = Name f) by congruence.
    clear -Hnodup Hg Hf Hnames.
    induction (File z) as [|h l IH]; [by apply elem_of_nil in Hg|].
    rewrite fmap_cons in Hnodup. apply NoDup_cons in Hnodup as [Hh Hl].
    apply elem_of_cons in Hg as [->|Hg], Hf as [->|Hf]; auto.
    + destruct Hh. rewrite Hnames. apply list_elem_of_fmap. eauto.
    + destruct Hh. rewrite <- Hnames. apply list_elem_of_fmap. eauto.
Qed.

Lemma X14_wrapped_archive_listing_witness :
  ListFiles demo_reader !! "bin/app.dll"
  = Some {| Name := "root/bin/app.dll"; mode_IsDir := false; entry_Data := Some "v1" |}.
Proof.
  apply (X14_wrapped_archive_listing demo_reader
           {| Name := "root/bin/app.dll"; mode_IsDir := false; entry_Data := Some "v1" |}
           "bin/app.dll").
  - discriminate.
  - intros g Hg. change (GetRootFolder demo_reader) with "root".
    repeat (apply elem_of_cons in Hg as [->|Hg]; [by eexists|]).
    by apply elem_of_nil in Hg.
  - apply (bool_decide_unpack _). vm_compute. reflexivity.
  - apply list_elem_of_In. simpl. auto 10.
  - reflexivity.
  - reflexivity.
Defined.

(** Two entries on one key: the archive has no wrapping folder, its
    first entry is the file [a.txt], and a later entry [a.txt/a.txt]
    lands on the key of the first and replaces it. *)
Example listing_collision :
  let z := {| zr_path := "flat.zip";
              File := [ {| Name := "a.txt"; mode_IsDir := false; entry_Data := Some "1" |};
                        {| Name := "a.txt/a.txt"; mode_IsDir := false;
                           entry_Data := Some "2" |} ] |} in
  GetRootFolder z = "a.txt" ∧
  ListFiles z !! "a.txt"
  = Some {| Name := "a.txt/a.txt"; mode_IsDir := false; entry_Data := Some "2" |} ∧
  size (ListFiles z) = 1.
Proof. vm_compute. repeat split. Qed.

(** ** Further properties of the exporter *)

Section ExportExtras.

Context `{Host}.

Lemma export_loop_frame outputDir onProgress total sel i fs log p :
  (∀ it, it ∈ sel → destination outputDir it ≠ p) →
  (export_loop sel i total outputDir onProgress fs log).1.2 !! p = fs !! p.
Proof.
  intros Hp.
  destruct (export_loop_spec outputDir onProgress total sel i fs log)
    as [[_ ->] | (copied & item & rest & -> & _ & _ & ->)]; cbn [fst snd].
  - by apply copy_all_frame.
  - rewrite copyFile_frame.
    + apply copy_all_frame. intros it Hit. apply Hp. apply elem_of_app. by left.
    + apply Hp. apply elem_of_app. right. by left.
Qed.

(** X15. An export touches nothing but its destinations: a path that is
    not the destination of a selected item other than a "deleted" one
    reads the same before and after, whether the export succeeds or
    stops on an error. *)
Theorem X15_export_leaves_other_paths (items : list DiffItem) (outputDir : string)
    (onProgress : bool) (fs : FileSystem) (p : string) :
  (∀ it, it ∈ items → exportable it = true → destination outputDir it ≠ p) →
  (ExportDiffs items outputDir onProgress fs).1.2 !! p = fs !! p.
Proof.
  intros Hp. unfold ExportDiffs. destruct (negb (os_MkdirAll outputDir)); [done|].
  apply export_loop_frame. intros it Hit.
  apply list_elem_of_In, filter_In in Hit as [Hin Hex].
  apply Hp; [by apply list_elem_of_In|done].
Qed.

(** X16. A successful export delivers the right bytes: when the
    destinations of the exported items are pairwise different and none
    of them is the source of an exported item, every selected item other
    than a "deleted" one had a readable source, and its destination
    holds the bytes of that source. *)
Theorem X16_export_copies_content (items : list DiffItem) (outputDir : string)
    (onProgress : bool) (fs : FileSystem) (it : DiffItem) :
  (ExportDiffs items outputDir onProgress fs).1.1 = Ok tt →
  NoDup (destination outputDir <$> List.filter exportable items) →
  (∀ a b, a ∈ items → b ∈ items → exportable a = true → exportable b = true →
     destination outputDir a ≠ SourcePath b) →
  it ∈ items → exportable it = true →
  is_Some (fs !! SourcePath it) ∧
  (ExportDiffs items outputDir onProgress fs).1.2 !! destination outputDir it
  = fs !! SourcePath it.
Proof.
  unfold ExportDiffs. destruct (negb (os_MkdirAll outputDir)); [done|].
  intros Hok Hnd Hsep Hit Hex.
  destruct (export_loop_spec outputDir onProgress (length (List.filter exportable items))
              (List.filter exportable items) 0 fs [])
    as [[Hall Hrun] | (copied & item & rest & _ & _ & _ & Hrun)];
    rewrite Hrun in Hok |- *; [|discriminate]. simpl.
  destruct (copy_all_content outputDir fs (List.filter exportable items) Hall Hnd) with (it := it)
    as (Hsome & _ & Hcopy); try done.
  - intros a b [Ha Hea]%list_elem_of_In%filter_In [Hb Heb]%list_elem_of_In%filter_In.
    apply Hsep; by try apply list_elem_of_In.
  - apply list_elem_of_In, filter_In. split; [by apply list_elem_of_In|done].
Qed.

End ExportExtras.

Lemma X15_export_leaves_other_paths_witness :
  (ExportDiffs [modified_item "m.txt" "work/m.txt"; deleted_item "b.txt"] "out" true
     demo_fs).1.2 !! "work/m.txt" = Some "new".
Proof.
  refine (eq_trans (X15_export_leaves_other_paths (H := demo_host)
            [modified_item "m.txt" "work/m.txt"; deleted_item "b.txt"] "out" true demo_fs
            "work/m.txt" _) _).
  - intros it Hit Hex.
    apply elem_of_cons in Hit as [->|Hit]; [discriminate|].
    apply elem_of_cons in Hit as [->|Hit]; [discriminate|].
    by apply elem_of_nil in Hit.
  - vm_compute. reflexivity.
Defined.

Lemma X16_export_copies_content_witness :
  (ExportDiffs [modified_item "m.txt" "work/m.txt"; deleted_item "b.txt"] "out" true
     demo_fs).1.2 !! "out/m.txt" = Some "new".
Proof.
  refine (eq_trans (proj2 (X16_export_copies_content (H := demo_host)
            [modified_item "m.txt" "work/m.txt"; deleted_item "b.txt"] "out" true demo_fs
            (modified_item "m.txt" "work/m.txt") _ _ _ _ _)) _).
  - vm_compute. reflexivity.
  - apply (bool_decide_unpack _). vm_compute. reflexivity.
  - intros a b Ha Hb Hea Heb.
    apply elem_of_cons in Ha as [->|Ha];
      [|apply elem_of_cons in Ha as [->|Ha]; [discriminate|by apply elem_of_nil in Ha]].
    apply elem_of_cons in Hb as [->|Hb];
      [|apply elem_of_cons in Hb as [->|Hb]; [discriminate|by apply elem_of_nil in Hb]].
    discriminate.
  - by left.
  - reflexivity.
  - vm_compute. reflexivity.
Defined.

(** ** Further properties of the text differ *)

Lemma Split_pieces s sep : Forall (λ w, occurs sep w = false) (strings.Split s sep).
Proof.
  induction s as [|c s IH]; [by repeat constructor|].
  cbn [strings.Split]. destruct (Ascii.eqb_spec c sep) as [->|Hne].
  - by constructor.
  - pose proof (Split_nonempty sep s) as Hs.
    destruct (strings.Split s sep) as [|w ws]; [done|].
    apply Forall_cons in IH as [Hw Hws]. constructor; [|done].
    rewrite occurs_cons, Hw, orb_false_r. apply Ascii.eqb_neq. congruence.
Qed.

Lemma span_lines_sub ty ls l :
  l ∈ span_lines ty ls → line_Type l = ty ∧ Content l ∈ ls.
Proof.
  induction ls as [|w [|w' ws] IH]; simpl.
  - by intros ?%elem_of_nil.
  - destruct (String.eqb w ""); [by intros ?%elem_of_nil|].
    intros ->%list_elem_of_singleton. split; [done|by left].
  - intros [->|Hl]%elem_of_cons; [split; [done|by left]|].
    destruct (IH Hl) as [? ?]. split; [done|by right].
Qed.

Section DifferExtras.

Context `{DiffMatchPatch}.

(** X17. Whatever spans the diff library returns, [CompareTexts] hands
    back the two texts it was given, and each of its records is one
    line: its content has no line feed, and its type is "equal",
    "insert" or "delete". *)
Theorem X17_lines_are_single_lines (oldText newText : string) :
  OldContent (CompareTexts oldText newText) = oldText ∧
  NewContent (CompareTexts oldText newText) = newText ∧
  Forall (λ l, occurs "010" (Content l) = false ∧
               (line_Type l = "equal" ∨ line_Type l = "insert" ∨ line_Type l = "delete"))
    (Lines (CompareTexts oldText newText)).
Proof.
  split; [done|]. split; [done|].
  unfold CompareTexts. simpl. apply Forall_forall. intros l Hl.
  apply list_elem_of_In, in_flat_map in Hl as (d & _ & Hl).
  apply list_elem_of_In, span_lines_sub in Hl as [Hty Hc]. split.
  - pose proof (Split_pieces (Text d) "010") as Hp.
    rewrite Forall_forall in Hp. by apply Hp.
  - rewrite Hty. destruct (diff_Type d); simpl; auto.
Qed.

End DifferExtras.

(** ** Which files are previewed as text *)

Lemma getFileExt_cons c rest :
  getFileExt (String c rest)
  = match getFileExt rest with
    | EmptyString =>
        if occurs "/" rest || occurs "\" rest then EmptyString
        else if Ascii.eqb c "." then String c rest else EmptyString
    | ext => ext
    end.
Proof. done. Qed.

Lemma getFileExt_empty rest :
  getFileExt rest = "" → occurs "/" rest = false → occurs "\" rest = false →
  occurs "." rest = false.
Proof.
  induction rest as [|d r IH]; [done|].
  rewrite getFileExt_cons, !occurs_cons.
  intros Hext [Hd Hs]%orb_false_iff [Hd' Hb]%orb_false_iff.
  rewrite Hs, Hb in Hext. simpl in Hext.
  destruct (getFileExt r) eqn:Hr; [|done].
  rewrite (IH eq_refl Hs Hb), orb_false_r.
  destruct (Ascii.eqb_spec d ".") as [->|Hne]; [done|].
  apply Ascii.eqb_neq. congruence.
Qed.

(** X18. The extension [getFileExt] returns is empty, or it is the end
    of the name from its last dot on, with no slash and no backslash
    behind that dot. *)
Theorem X18_getFileExt_shape (filename : string) :
  getFileExt filename = "" ∨
  ∃ front e, filename = front +:+ String "." e ∧ getFileExt filename = String "." e ∧
    occurs "." e = false ∧ occurs "/" e = false ∧ occurs "\" e = false.
Proof.
  induction filename as [|c rest IH]; [by left|].
  rewrite getFileExt_cons.
  destruct IH as [Hempty|(front & e & Hrest & -> & Hd & Hs & Hb)].
  - rewrite Hempty.
    destruct (occurs "/" rest || occurs "\" rest) eqn:Hsep; [by left|].
    apply orb_false_iff in Hsep as [Hs Hb].
    destruct (Ascii.eqb_spec c ".") as [->|]; [|by left].
    right. exists "", rest. repeat split; try done.
    by apply getFileExt_empty.
  - right. exists (String c front), e. rewrite Hrest. repeat split; done.
Qed.

(** X19. The directory part of a path plays no part in the extension:
    for a name without slash or backslash, [getFileExt] and
    [IsTextFile] give on [dir/name] what they give on [name], also when
    the directory has dots in it and the name has none. *)
Theorem X19_extension_of_last_element (dir name : string) :
  occurs "/" name = false → occurs "\" name = false →
  getFileExt (dir +:+ String "/" name) = getFileExt name ∧
  IsTextFile (dir +:+ String "/" name) = IsTextFile name.
Proof.
  intros Hs Hb.
  assert (Hslash : getFileExt (String "/" name) = getFileExt name).
  { rewrite getFileExt_cons, Hs, Hb. simpl. by destruct (getFileExt name). }
  assert (Hocc : occurs "/" (String "/" name) = true) by done.
  assert (Hext : getFileExt (dir +:+ String "/" name) = getFileExt name).
  { rewrite <- Hslash. clear Hslash.
    remember (getFileExt (String "/" name)) as e eqn:He.
    induction dir as [|c dir IH]; [by rewrite He|].
    rewrite append_cons, getFileExt_cons, IH, occurs_app, Hocc, orb_true_r.
    by destruct e. }
  split; [done|]. unfold IsTextFile. by rewrite Hext.
Qed.

Lemma X19_extension_of_last_element_witness :
  getFileExt "my.dir/README" = "" ∧ IsTextFile "v1.2/notes.TXT" = true.
Proof.
  split.
  - exact (eq_trans (proj1 (X19_extension_of_last_element "my.dir" "README" eq_refl eq_refl))
             eq_refl).
  - exact (eq_trans (proj2 (X19_extension_of_last_element "v1.2" "notes.TXT" eq_refl eq_refl))
             eq_refl).
Defined.

Lemma lower_keeps (c x : ascii) :
  x = "."%char ∨ x = "/"%char ∨ x = "\"%char → Ascii.eqb (lower c) x = Ascii.eqb c x.
Proof.
  intros [->|[->| ->]];
    destruct c as [[] [] [] [] [] [] [] []]; vm_compute; reflexivity.
Qed.

Lemma occurs_ToLower (x : ascii) s :
  x = "."%char ∨ x = "/"%char ∨ x = "\"%char → occurs x (ToLower s) = occurs x s.
Proof.
  intros Hx. induction s as [|c s IH]; [done|].
  cbn [ToLower]. rewrite !occurs_cons, IH.
  by rewrite (Ascii.eqb_sym x), lower_keeps, (Ascii.eqb_sym c).
Qed.

Lemma getFileExt_ToLower s : getFileExt (ToLower s) = ToLower (getFileExt s).
Proof.
  induction s as [|c s IH]; [done|].
  cbn [ToLower]. rewrite !getFileExt_cons, IH.
  rewrite !occurs_ToLower by auto.
  destruct (getFileExt s) as [|d e]; [|done]. cbn [ToLower].
  destruct (occurs "/" s || occurs "\" s); [done|].
  rewrite lower_keeps by auto. by destruct (Ascii.eqb c ".").
Qed.

(** X20. [IsTextFile] does not look at the case of the letters: two
    ASCII names that are equal up to the case of their letters are both
    text files or both not. *)
Theorem X20_IsTextFile_ignores_case (name name' : string) :
  all_chars is_ascii name = true → all_chars is_ascii name' = true →
  ToLower name = ToLower name' →
  IsTextFile name = IsTextFile name'.
Proof.
  intros _ _ Heq. unfold IsTextFile.
  by rewrite <- !getFileExt_ToLower, Heq.
Qed.

Lemma X20_IsTextFile_ignores_case_witness :
  IsTextFile "Notes.TXT" = IsTextFile "notes.txt" ∧ IsTextFile "notes.txt" = true.
Proof.
  split; [|reflexivity].
  apply (X20_IsTextFile_ignores_case "Notes.TXT" "notes.txt" eq_refl eq_refl eq_refl).
Defined.

(** ** The exclusion built into the comparer *)

(** X21. Without configured rules the comparer excludes every path that
    has one of the seven built-in names among its segments, the last
    segment, the name of the file itself, included. *)
Theorem X21_legacy_excludes_any_segment (segs : list string) (seg : string) :
  segs ≠ [] → Forall segment segs →
  seg ∈ segs → seg ∈ legacy_names →
  defaultShouldExclude (strings.Join segs "/") = true.
Proof.
  intros Hne Hsegs Hseg Hname. unfold defaultShouldExclude, filepath.ToSlash.
  rewrite (Split_Join "/" segs Hne Hsegs).
  assert (Hex : existsb (λ part, existsb (String.eqb part) legacy_names) segs = true).
  { apply existsb_exists. exists seg. split; [by apply list_elem_of_In|].
    apply existsb_exists. exists seg. split; [by apply list_elem_of_In|].
    apply String.eqb_refl. }
  unfold legacy_names in Hex. by rewrite Hex.
Qed.

Lemma X21_legacy_excludes_any_segment_witness :
  defaultShouldExclude "src/bin" = true ∧
  ShouldExclude (NewExcludeMatcher defaultExcludeRules) "src/bin" false = false.
Proof.
  split; [|vm_compute; reflexivity].
  apply (X21_legacy_excludes_any_segment ["src"; "bin"] "bin").
  - discriminate.
  - repeat constructor.
  - apply list_elem_of_In. simpl. auto.
  - apply list_elem_of_In. simpl. auto.
Defined.

(** ** The manager of the configuration *)

Lemma write_spec l pos xs :
  pos + length xs ≤ length l →
  config.write l pos xs = take pos l ++ xs ++ drop (pos + length xs) l.
Proof.
  revert l pos. induction xs as [|x xs IH]; intros l pos Hlen; simpl in *.
  - by rewrite Nat.add_0_r, take_drop.
  - rewrite IH by (rewrite length_insert; lia).
    rewrite (take_S_r _ pos x) by (apply list_lookup_insert_eq; lia).
    rewrite take_insert_ge by lia.
    rewrite drop_insert_lt by lia.
    rewrite <- app_assoc. simpl. repeat f_equal. lia.
Qed.

Lemma length_write l pos xs : length (config.write l pos xs) = length l.
Proof.
  revert l pos. induction xs as [|x xs IH]; intros l pos; simpl; [done|].
  by rewrite IH, length_insert.
Qed.

Lemma elements_length h s : config.sound h s → length (config.elements h s) = config.s_len s.
Proof.
  intros (Hlen & l & Hl & Hcap). unfold config.elements. rewrite Hl. simpl.
  rewrite length_take, length_drop. lia.
Qed.

Section ManagerProperties.

Variable growslice : nat → nat → nat.
Variable os_WriteFile : string → bool.

(** Appending within the capacity writes behind the slice, in the same
    array. *)
Lemma append_in_place h s xs l :
  h !! config.s_array s = Some l →
  config.s_off s + config.s_cap s ≤ length l →
  config.s_len s + length xs ≤ config.s_cap s →
  config.append growslice h s xs
  = (<[config.s_array s :=
         take (config.s_off s + config.s_len s) l ++ xs
         ++ drop (config.s_off s + config.s_len s + length xs) l]> h,
     {| config.s_array := config.s_array s; config.s_off := config.s_off s;
        config.s_len := config.s_len s + length xs; config.s_cap := config.s_cap s |}).
Proof.
  intros Hl Hcap Hfit. unfold config.append.
  destruct (Nat.leb_spec (config.s_len s + length xs) (config.s_cap s)) as [_|]; [|lia].
  f_equal. apply map_eq. intros a.
  destruct (decide (a = config.s_array s)) as [->|Hne].
  - rewrite lookup_alter_eq, lookup_insert_eq, Hl. simpl. f_equal.
    apply write_spec. lia.
  - by rewrite lookup_alter_ne, lookup_insert_ne.
Qed.

(** Removing inside the range: the elements behind the index move one
    place to the front, in the array the slice looks at. *)
Lemma remove_in_place h s l i :
  h !! config.s_array s = Some l →
  config.s_len s ≤ config.s_cap s →
  config.s_off s + config.s_cap s ≤ length l →
  i < config.s_len s →
  config.append growslice h (config.reslice s 0 i)
    (config.elements h (config.reslice s (i + 1) (config.s_len s)))
  = (<[config.s_array s :=
         take (config.s_off s + i) l
         ++ take (config.s_len s - (i + 1)) (drop (config.s_off s + (i + 1)) l)
         ++ drop (config.s_off s + config.s_len s - 1) l]> h,
     {| config.s_array := config.s_array s; config.s_off := config.s_off s + 0;
        config.s_len := config.s_len s - 1; config.s_cap := config.s_cap s - 0 |}).
Proof.
  intros Hl Hlen Hcap Hi.
  assert (Htail : length (config.elements h (config.reslice s (i + 1) (config.s_len s)))
                  = config.s_len s - (i + 1)).
  { unfold config.elements, config.reslice. simpl. rewrite Hl. simpl.
    rewrite length_take, length_drop. lia. }
  rewrite (append_in_place h (config.reslice s 0 i) _ l); simpl; try done; try lia.
  rewrite Htail. unfold config.elements at 1, config.reslice at 1. simpl. rewrite Hl. simpl.
  f_equal.
  - do 3 f_equal; [f_equal; lia|]. f_equal. lia.
  - f_equal; lia.
Qed.

(** The array after a removal, seen through a window of the old length
    and of the new one. *)
Lemma shifted_window (A B C : list ExcludeRule) i :
  i < length B →
  let l := A ++ B ++ C in
  let l' := take (length A + i) l
            ++ take (length B - (i + 1)) (drop (length A + (i + 1)) l)
            ++ drop (length A + length B - 1) l in
  take (length B - 1) (drop (length A) l') = delete i B ∧
  take (length B) (drop (length A) l') = delete i B ++ drop (length B - 1) B ∧
  length l' = length l.
Proof.
  intros Hi l l'.
  assert (H1 : take (length A + i) l = A ++ take i B).
  { unfold l. rewrite take_app_add, take_app_le by lia. done. }
  assert (H2 : take (length B - (i + 1)) (drop (length A + (i + 1)) l) = drop (i + 1) B).
  { unfold l. rewrite drop_app_add, drop_app_le by lia.
    apply take_app_length'. rewrite length_drop. lia. }
  assert (H3 : drop (length A + length B - 1) l = drop (length B - 1) B ++ C).
  { unfold l. replace (length A + length B - 1) with (length A + (length B - 1)) by lia.
    rewrite drop_app_add, drop_app_le by lia. done. }
  assert (Hl' : l' = A ++ (take i B ++ drop (i + 1) B) ++ drop (length B - 1) B ++ C).
  { unfold l'. rewrite H1, H2, H3. by rewrite <- !app_assoc. }
  assert (Hdel : take i B ++ drop (i + 1) B = delete i B).
  { rewrite delete_take_drop. do 2 f_equal. lia. }
  rewrite Hdel in Hl'.
  assert (Hlen : length (delete i B) = length B - 1).
  { rewrite length_delete; [lia|]. by apply lookup_lt_is_Some. }
  assert (Hlast : length (drop (length B - 1) B) = 1).
  { rewrite length_drop. lia. }
  repeat split.
  - rewrite Hl', drop_app_length. by apply take_app_length'.
  - rewrite Hl', drop_app_length, app_assoc.
    apply take_app_length'. rewrite length_app. lia.
  - rewrite Hl'. unfold l. rewrite !length_app. lia.
Qed.

(** A sound slice cuts its array in three: what lies before its
    window, its elements, and what lies behind them. *)
Lemma sound_window h s :
  config.sound h s →
  ∃ A C, h !! config.s_array s = Some (A ++ config.elements h s ++ C) ∧
    length A = config.s_off s ∧ length (config.elements h s) = config.s_len s.
Proof.
  intros Hs. pose proof (elements_length h s Hs) as Hlen.
  destruct Hs as (Hle & l & Hl & Hcap).
  exists (take (config.s_off s) l), (drop (config.s_off s + config.s_len s) l).
  unfold config.elements in *. rewrite Hl in *. simpl in *.
  split; [|split; [rewrite length_take; lia|done]].
  f_equal. rewrite <- (take_drop (config.s_off s) l) at 1. f_equal.
  rewrite <- (take_drop (config.s_len s) (drop (config.s_off s) l)) at 1.
  by rewrite drop_drop.
Qed.

(** What a removal inside the range does, to the letter. *)
Lemma remove_exact (w : config.world) (m : config.Manager) (cfg : config.Config)
    (index : Z) :
  config.config m = Some cfg →
  config.sound (config.arrays w) (config.ExcludeRules cfg) →
  let s := config.ExcludeRules cfg in
  let old := config.elements (config.arrays w) s in
  (0 ≤ index < Z.of_nat (length old))%Z →
  ∃ A C array',
    config.arrays w !! config.s_array s = Some (A ++ old ++ C) ∧
    length A = config.s_off s ∧ length old = config.s_len s ∧
    length array' = length (A ++ old ++ C) ∧
    take (length old - 1) (drop (length A) array') = delete (Z.to_nat index) old ∧
    take (length old) (drop (length A) array')
      = delete (Z.to_nat index) old ++ drop (length old - 1) old ∧
    config.RemoveExcludeRule growslice os_WriteFile w m index
    = Some ({| config.arrays := <[config.s_array s := array']> (config.arrays w);
               config.writes :=
                 config.writes w
                 ++ [Some {| config.sv_LastZipPath := config.LastZipPath cfg;
                             config.sv_LastWorkDir := config.LastWorkDir cfg;
                             config.sv_LastOutputDir := config.LastOutputDir cfg;
                             config.sv_ExcludeRules := delete (Z.to_nat index) old |}] |},
            config.with_rules m cfg
              {| config.s_array := config.s_array s; config.s_off := config.s_off s;
                 config.s_len := config.s_len s - 1; config.s_cap := config.s_cap s |},
            os_WriteFile (config.configPath m)).
Proof.
  intros Hcfg Hsound s old Hin.
  pose proof (elements_length _ _ Hsound) as Hlen. fold s old in Hlen.
  rewrite Hlen in Hin.
  set (i := Z.to_nat index). assert (Hi : i < config.s_len s) by lia.
  destruct (sound_window _ _ Hsound) as (A & C & Hl & HA & HB).
  fold s in Hl, HA, HB. fold old in Hl, HB.
  destruct (shifted_window A old C i) as (Hnew & Hview & Hsame); [lia|].
  rewrite HA, HB in Hnew, Hview, Hsame.
  exists A, C,
    (take (config.s_off s + i) (A ++ old ++ C)
     ++ take (config.s_len s - (i + 1)) (drop (config.s_off s + (i + 1)) (A ++ old ++ C))
     ++ drop (config.s_off s + config.s_len s - 1) (A ++ old ++ C)).
  split; [exact Hl|]. split; [exact HA|]. split; [exact HB|].
  split; [exact Hsame|]. rewrite HA, HB. split; [exact Hnew|]. split; [exact Hview|].
  unfold config.RemoveExcludeRule. rewrite Hcfg. fold s.
  destruct (Z.ltb_spec index 0); [lia|].
  destruct (Z.leb_spec (Z.of_nat (config.s_len s)) index); [lia|]. cbn [orb].
  fold i. destruct Hsound as (Hle & l & Hl' & Hcap). fold s in Hle, Hl', Hcap.
  rewrite (remove_in_place (config.arrays w) s l i) by done.
  rewrite Hl in Hl'. injection Hl' as <-.
  rewrite Nat.add_0_r, Nat.sub_0_r.
  unfold config.Save. cbn [config.arrays config.writes config.config config.with_rules
    config.ExcludeRules config.LastZipPath config.LastWorkDir config.LastOutputDir
    config.configPath].
  unfold config.elements. cbn [config.s_array config.s_off config.s_len].
  rewrite lookup_insert_eq. cbn [default from_option id]. rewrite Hnew. reflexivity.
Qed.

(** X22. [RemoveExcludeRule] with an index inside the range takes
    exactly that rule out, keeps the others in order, and saves the new
    list; with an index out of range, negative or not below the length,
    it changes nothing and writes nothing. *)
Theorem X22_remove_rule (w : config.world) (m : config.Manager) (cfg : config.Config)
    (index : Z) :
  config.config m = Some cfg →
  config.sound (config.arrays w) (config.ExcludeRules cfg) →
  let old := config.elements (config.arrays w) (config.ExcludeRules cfg) in
  ((index < 0 ∨ Z.of_nat (length old) ≤ index)%Z →
     config.RemoveExcludeRule growslice os_WriteFile w m index = Some (w, m, true)) ∧
  ((0 ≤ index < Z.of_nat (length old))%Z →
     ∃ w' m' cfg',
       config.RemoveExcludeRule growslice os_WriteFile w m index
         = Some (w', m', os_WriteFile (config.configPath m)) ∧
       config.config m' = Some cfg' ∧
       config.elements (config.arrays w') (config.ExcludeRules cfg')
         = delete (Z.to_nat index) old ∧
       config.writes w'
         = config.writes w
           ++ [Some {| config.sv_LastZipPath := config.LastZipPath cfg;
                       config.sv_LastWorkDir := config.LastWorkDir cfg;
                       config.sv_LastOutputDir := config.LastOutputDir cfg;
                       config.sv_ExcludeRules := delete (Z.to_nat index) old |}]).
Proof.
  intros Hcfg Hsound old. split.
  - intros Hout. pose proof (elements_length _ _ Hsound) as Hlen. fold old in Hlen.
    rewrite Hlen in Hout. unfold config.RemoveExcludeRule. rewrite Hcfg.
    destruct (Z.ltb_spec index 0); [done|].
    destruct (Z.leb_spec (Z.of_nat (config.s_len (config.ExcludeRules cfg))) index);
      [done|lia].
  - intros Hin.
    destruct (remove_exact w m cfg index Hcfg Hsound Hin)
      as (A & C & array' & Hl & HA & HB & Hsame & Hnew & _ & Hrun).
    fold old in Hl, HB, Hnew, Hrun.
    eexists _, _, _. split; [exact Hrun|]. split; [reflexivity|]. split; [|reflexivity].
    unfold config.elements. simpl. rewrite lookup_insert_eq. simpl.
    rewrite <- HA, <- HB. exact Hnew.
Qed.

(** X23. A removal reaches the built-in rules: while the configuration
    holds the default slice itself (after [ResetExcludeRules], or on a
    start without a configuration file), [RemoveExcludeRule] shifts
    the rules inside the array of [defaultExcludeRules]; a following
    [ResetExcludeRules] then installs the built-in rules without the
    removed one and with the last one twice. *)
Theorem X23_remove_damages_defaults (w : config.world) (m : config.Manager)
    (cfg : config.Config) (index : Z) :
  config.config m = Some cfg →
  config.ExcludeRules cfg = config.default_slice →
  config.sound (config.arrays w) config.default_slice →
  let old := config.elements (config.arrays w) config.default_slice in
  (0 ≤ index < Z.of_nat (length old))%Z →
  ∃ w1 m1 ok1 w2 m2 ok2,
    config.RemoveExcludeRule growslice os_WriteFile w m index = Some (w1, m1, ok1) ∧
    config.ResetExcludeRules os_WriteFile w1 m1 = Some (w2, m2, ok2) ∧
    config.current_rules w2 m2
    = delete (Z.to_nat index) old ++ drop (length old - 1) old.
Proof.
  intros Hcfg Hdef Hsound old Hin. rewrite <- Hdef in Hsound.
  destruct (remove_exact w m cfg index Hcfg Hsound) as
    (A & C & array' & Hl & HA & HB & Hsame & _ & Hview & Hrun).
  { by rewrite Hdef. }
  rewrite Hdef in Hl, HA, HB, Hview, Hrun. fold old in Hl, HB, Hview, Hrun.
  eexists _, _, _, _, _, _. split; [exact Hrun|]. split; [reflexivity|].
  unfold config.current_rules, config.GetExcludeRules. simpl.
  unfold config.elements. simpl. rewrite lookup_insert_eq. simpl.
  destruct A; [|done]. simpl in Hview.
  rewrite <- Hview. f_equal. symmetry. exact HB.
Qed.

(** What [AddExcludeRule] does, to the letter: the rule lands behind
    the old ones, in place or in a fresh array, and every array of the
    heap that the slice does not look at stays as it was. *)
Lemma add_exact (w : config.world) (m : config.Manager) (cfg : config.Config)
    (rule : ExcludeRule) :
  config.config m = Some cfg →
  config.sound (config.arrays w) (config.ExcludeRules cfg) →
  let s := config.ExcludeRules cfg in
  let old := config.elements (config.arrays w) s in
  ∃ h' s',
    config.AddExcludeRule growslice os_WriteFile w m rule
    = Some ({| config.arrays := h';
               config.writes :=
                 config.writes w
                 ++ [Some {| config.sv_LastZipPath := config.LastZipPath cfg;
                             config.sv_LastWorkDir := config.LastWorkDir cfg;
                             config.sv_LastOutputDir := config.LastOutputDir cfg;
                             config.sv_ExcludeRules := old ++ [rule] |}] |},
            config.with_rules m cfg s',
            os_WriteFile (config.configPath m)) ∧
    config.elements h' s' = old ++ [rule] ∧
    config.s_len s' = config.s_len s + 1 ∧
    ((∀ c n, n ≤ growslice c n) → config.sound h' s') ∧
    (config.s_len s = config.s_cap s →
       ∀ a l, config.arrays w !! a = Some l → h' !! a = Some l).
Proof.
  intros Hcfg Hsound s old.
  pose proof (elements_length _ _ Hsound) as Hlen. fold s old in Hlen.
  destruct (sound_window _ _ Hsound) as (A & C & Hl & HA & _). fold s old in Hl, HA.
  destruct Hsound as (Hle & l & Hl' & Hcap). fold s in Hle, Hl', Hcap.
  rewrite Hl in Hl'. injection Hl' as <-.
  unfold config.AddExcludeRule. rewrite Hcfg. fold s.
  destruct (decide (config.s_len s + 1 ≤ config.s_cap s)) as [Hfit|Hfull].
  - rewrite (append_in_place (config.arrays w) s [rule] (A ++ old ++ C)) by done.
    cbn [length].
    assert (Hnew : take (config.s_len s + 1) (drop (config.s_off s)
              (take (config.s_off s + config.s_len s) (A ++ old ++ C) ++ [rule]
               ++ drop (config.s_off s + config.s_len s + 1) (A ++ old ++ C)))
            = old ++ [rule]).
    { rewrite <- HA, <- Hlen. rewrite take_app_add, take_app_length.
      rewrite <- app_assoc, drop_app_length, app_assoc.
      apply take_app_length'. rewrite length_app. simpl. lia. }
    eexists _, _. split; [|split; [|split; [|split]]].
    + unfold config.Save.
      cbn [config.arrays config.writes config.config config.with_rules
        config.ExcludeRules config.LastZipPath config.LastWorkDir config.LastOutputDir
        config.configPath].
      unfold config.elements. cbn [config.s_array config.s_off config.s_len length].
      rewrite lookup_insert_eq. cbn [default from_option id]. rewrite Hnew. reflexivity.
    + unfold config.elements. cbn [config.s_array config.s_off config.s_len length].
      rewrite lookup_insert_eq. cbn [default from_option id]. exact Hnew.
    + reflexivity.
    + intros _. split; [simpl; lia|]. eexists. simpl. rewrite lookup_insert_eq.
      split; [reflexivity|]. cbn [config.s_off config.s_cap].
      rewrite !length_app in Hcap.
      repeat (rewrite ?length_app, ?length_take, ?length_drop, ?length_cons; cbn [length]).
      lia.
    + intros Heq. lia.
  - unfold config.append. cbn [length].
    destruct (Nat.leb_spec (config.s_len s + 1) (config.s_cap s)) as [|_]; [lia|].
    fold old.
    assert (Hnew : take (config.s_len s + 1)
              (drop 0 (old ++ [rule]
                 ++ replicate (growslice (config.s_cap s) (config.s_len s + 1)
                               - (config.s_len s + 1)) config.zero_rule))
            = old ++ [rule]).
    { rewrite drop_0, app_assoc. apply take_app_length'. rewrite length_app. simpl. lia. }
    assert (Hfr : config.arrays w !! fresh (dom (config.arrays w)) = None).
    { apply not_elem_of_dom. apply is_fresh. }
    eexists _, _. split; [|split; [|split; [|split]]].
    + unfold config.Save.
      cbn [config.arrays config.writes config.config config.with_rules
        config.ExcludeRules config.LastZipPath config.LastWorkDir config.LastOutputDir
        config.configPath].
      unfold config.elements. cbn [config.s_array config.s_off config.s_len].
      rewrite lookup_insert_eq. cbn [default from_option id]. rewrite Hnew. reflexivity.
    + unfold config.elements. cbn [config.s_array config.s_off config.s_len].
      rewrite lookup_insert_eq. cbn [default from_option id]. exact Hnew.
    + reflexivity.
    + intros Hgrow. split; [simpl; apply Hgrow|]. eexists. simpl. rewrite lookup_insert_eq.
      split; [reflexivity|].
      pose proof (Hgrow (config.s_cap s) (config.s_len s + 1)).
      repeat (rewrite ?length_app, ?length_replicate, ?length_cons; cbn [length]).
      cbn [config.s_off config.s_cap]. lia.
    + intros _ a l Ha. rewrite lookup_insert_ne; [done|].
      intros <-. by rewrite Hfr in Ha.
Qed.

(** X24. [AddExcludeRule] puts the rule behind the rules the
    configuration has, saves that list, and, when the slice is full as
    the slice of the built-in rules is, leaves every array of the heap
    as it was: adding never reaches the built-in rules. *)
Theorem X24_add_rule (w : config.world) (m : config.Manager) (cfg : config.Config)
    (rule : ExcludeRule) :
  config.config m = Some cfg →
  config.sound (config.arrays w) (config.ExcludeRules cfg) →
  let old := config.elements (config.arrays w) (config.ExcludeRules cfg) in
  ∃ w' m',
    config.AddExcludeRule growslice os_WriteFile w m rule
      = Some (w', m', os_WriteFile (config.configPath m)) ∧
    config.current_rules w' m' = old ++ [rule] ∧
    config.writes w'
      = config.writes w
        ++ [Some {| config.sv_LastZipPath := config.LastZipPath cfg;
                    config.sv_LastWorkDir := config.LastWorkDir cfg;
                    config.sv_LastOutputDir := config.LastOutputDir cfg;
                    config.sv_ExcludeRules := old ++ [rule] |}] ∧
    (config.s_len (config.ExcludeRules cfg) = config.s_cap (config.ExcludeRules cfg) →
       ∀ a l, config.arrays w !! a = Some l → config.arrays w' !! a = Some l).
Proof.
  intros Hcfg Hsound old.
  destruct (add_exact w m cfg rule Hcfg Hsound) as (h' & s' & Hrun & Hel & Hlen & _ & Hkeep).
  fold old in Hrun, Hel.
  eexists _, _. split; [exact Hrun|]. split; [|split; [reflexivity|exact Hkeep]].
  unfold config.current_rules, config.GetExcludeRules. simpl.
  destruct (Nat.eqb_spec (config.s_len s') 0) as [H0|_]; [lia|]. exact Hel.
Qed.

(** X25. Adding a rule and then removing the rule at the index of the
    old length gives back the rules there were, whatever array the
    rules have moved to. *)
Theorem X25_add_then_remove (w : config.world) (m : config.Manager) (cfg : config.Config)
    (rule : ExcludeRule) :
  (∀ c n, n ≤ growslice c n) →
  config.config m = Some cfg →
  config.sound (config.arrays w) (config.ExcludeRules cfg) →
  let old := config.elements (config.arrays w) (config.ExcludeRules cfg) in
  ∃ w1 m1 ok1 w2 m2 ok2 cfg2,
    config.AddExcludeRule growslice os_WriteFile w m rule = Some (w1, m1, ok1) ∧
    config.RemoveExcludeRule growslice os_WriteFile w1 m1 (Z.of_nat (length old))
      = Some (w2, m2, ok2) ∧
    config.config m2 = Some cfg2 ∧
    config.elements (config.arrays w2) (config.ExcludeRules cfg2) = old.
Proof.
  intros Hgrow Hcfg Hsound old.
  destruct (add_exact w m cfg rule Hcfg Hsound) as (h' & s' & Hrun & Hel & Hlen & Hs' & _).
  fold old in Hrun, Hel. specialize (Hs' Hgrow).
  set (w1 := {| config.arrays := h'; config.writes := _ |}) in Hrun.
  set (m1 := config.with_rules m cfg s') in Hrun.
  destruct (remove_exact w1 m1 _ (Z.of_nat (length old)) eq_refl Hs')
    as (A & C & array' & Hl & HA & HB & Hsame & Hnew & _ & Hrem).
  { simpl. rewrite Hel, length_app. simpl. lia. }
  cbn [config.ExcludeRules config.arrays w1] in Hl, HA, HB, Hnew, Hrem.
  rewrite Hel in HB, Hnew, Hrem.
  eexists _, _, _, _, _, _, _. split; [exact Hrun|]. split; [exact Hrem|].
  split; [reflexivity|].
  unfold config.elements. simpl. rewrite lookup_insert_eq. simpl.
  rewrite <- HA. rewrite length_app in Hnew, HB. simpl in Hnew, HB.
  replace (config.s_len s' - 1) with (length old + 1 - 1) by lia.
  rewrite Hnew, Nat2Z.id.
  rewrite delete_take_drop, take_app_length.
  replace (S (length old)) with (length (old ++ [rule])) by (rewrite length_app; simpl; lia).
  by rewrite drop_all, app_nil_r.
Qed.

(** X26. Removing the only rule of a configuration saves an empty list,
    and the manager then hands out the built-in rules. *)
Theorem X26_remove_only_rule (w : config.world) (m : config.Manager) (cfg : config.Config) :
  config.config m = Some cfg →
  config.sound (config.arrays w) (config.ExcludeRules cfg) →
  config.s_len (config.ExcludeRules cfg) = 1 →
  config.s_array (config.ExcludeRules cfg) ≠ config.s_array config.default_slice →
  ∃ w' m' ok saved,
    config.RemoveExcludeRule growslice os_WriteFile w m 0 = Some (w', m', ok) ∧
    last (config.writes w') = Some (Some saved) ∧
    config.sv_ExcludeRules saved = [] ∧
    config.current_rules w' m' = config.elements (config.arrays w) config.default_slice.
Proof.
  intros Hcfg Hsound Hone Hne.
  pose proof (elements_length _ _ Hsound) as Hlen.
  destruct (remove_exact w m cfg 0 Hcfg Hsound) as
    (A & C & array' & Hl & HA & HB & Hsame & Hnew & _ & Hrun).
  { simpl. lia. }
  destruct (config.elements (config.arrays w) (config.ExcludeRules cfg))
    as [|r [|? ?]] eqn:Hold; simpl in Hlen; try lia.
  eexists _, _, _, _. split; [exact Hrun|]. split; [apply last_snoc|].
  split; [reflexivity|].
  unfold config.current_rules, config.GetExcludeRules. simpl. rewrite Hone. simpl.
  unfold config.elements. cbn [config.s_array config.default_slice] in *.
  by rewrite lookup_insert_ne.
Qed.

End ManagerProperties.

Lemma fresh_sound : config.sound (config.arrays fresh_world) config.default_slice.
Proof.
  split; [done|]. exists defaultExcludeRules. split; [|done]. vm_compute. reflexivity.
Qed.

Lemma fresh_length :
  length (config.elements (config.arrays fresh_world) config.default_slice) = 17.
Proof. vm_compute. reflexivity. Qed.

Lemma fresh_elements :
  config.elements (config.arrays fresh_world) config.default_slice = defaultExcludeRules.
Proof. vm_compute. reflexivity. Qed.

Lemma single_sound :
  config.sound (config.arrays single_world)
    {| config.s_array := 1; config.s_off := 0; config.s_len := 1; config.s_cap := 1 |}.
Proof.
  split; [done|]. exists [tmp_rule]. split; [|done]. vm_compute. reflexivity.
Qed.

Lemma doubling_grows c n : n ≤ doubling c n.
Proof. unfold doubling. lia. Qed.

Lemma X22_remove_rule_witness :
  config.RemoveExcludeRule doubling always_written fresh_world fresh_manager (-1)
  = Some (fresh_world, fresh_manager, true).
Proof.
  apply (X22_remove_rule doubling always_written fresh_world fresh_manager _ (-1)
           eq_refl fresh_sound).
  left. lia.
Defined.

Lemma X23_remove_damages_defaults_witness :
  ∃ w1 m1 ok1 w2 m2 ok2,
    config.RemoveExcludeRule doubling always_written fresh_world fresh_manager 1
      = Some (w1, m1, ok1) ∧
    config.ResetExcludeRules always_written w1 m1 = Some (w2, m2, ok2) ∧
    config.current_rules w2 m2
    = delete 1 (config.elements (config.arrays fresh_world) config.default_slice)
      ++ drop (length (config.elements (config.arrays fresh_world) config.default_slice) - 1)
           (config.elements (config.arrays fresh_world) config.default_slice).
Proof.
  apply (X23_remove_damages_defaults doubling always_written fresh_world fresh_manager _ 1
           eq_refl eq_refl fresh_sound).
  rewrite fresh_length. lia.
Defined.

(** The same on the built-in rules, spelled out: after removing [bin]
    and resetting, [bin] is gone for good and [Thumbs.db] comes twice. *)
Example reset_after_remove :
  ∃ w1 m1 ok1 w2 m2 ok2,
    config.RemoveExcludeRule doubling always_written fresh_world fresh_manager 1
      = Some (w1, m1, ok1) ∧
    config.ResetExcludeRules always_written w1 m1 = Some (w2, m2, ok2) ∧
    Pattern <$> config.current_rules w2 m2
    = ["obj"; ".idea"; ".vs"; ".vscode"; "node_modules"; "My Project";
       "Service References"; "Properties"; "*.vbproj"; "*.vbproj.user"; "*.csproj";
       "*.csproj.user"; "*.suo"; "*.user"; ".DS_Store"; "Thumbs.db"; "Thumbs.db"].
Proof.
  eexists _, _, _, _, _, _. split; [vm_compute; reflexivity|].
  split; vm_compute; reflexivity.
Qed.

Lemma X24_add_rule_witness :
  ∃ w' m',
    config.AddExcludeRule doubling always_written fresh_world fresh_manager tmp_rule
      = Some (w', m', true) ∧
    config.current_rules w' m'
      = config.elements (config.arrays fresh_world) config.default_slice ++ [tmp_rule] ∧
    config.elements (config.arrays w') config.default_slice = defaultExcludeRules.
Proof.
  destruct (X24_add_rule doubling always_written fresh_world fresh_manager _ tmp_rule
              eq_refl fresh_sound) as (w' & m' & Hrun & Hrules & _ & Hkeep).
  exists w', m'. split; [exact Hrun|]. split; [exact Hrules|].
  unfold config.elements, config.default_slice.
  cbn [config.s_array config.s_off config.s_len].
  rewrite (Hkeep eq_refl 0 defaultExcludeRules); vm_compute; reflexivity.
Defined.

Lemma X25_add_then_remove_witness :
  ∃ w1 m1 ok1 w2 m2 ok2 cfg2,
    config.AddExcludeRule doubling always_written fresh_world fresh_manager tmp_rule
      = Some (w1, m1, ok1) ∧
    config.RemoveExcludeRule doubling always_written w1 m1
      (Z.of_nat (length (config.elements (config.arrays fresh_world) config.default_slice)))
      = Some (w2, m2, ok2) ∧
    config.config m2 = Some cfg2 ∧
    config.elements (config.arrays w2) (config.ExcludeRules cfg2)
    = config.elements (config.arrays fresh_world) config.default_slice.
Proof.
  exact (X25_add_then_remove doubling always_written fresh_world fresh_manager _ tmp_rule
           doubling_grows eq_refl fresh_sound).
Defined.

Lemma X26_remove_only_rule_witness :
  ∃ w' m' ok saved,
    config.RemoveExcludeRule doubling always_written single_world single_manager 0
      = Some (w', m', ok) ∧
    last (config.writes w') = Some (Some saved) ∧
    config.sv_ExcludeRules saved = [] ∧
    config.current_rules w' m'
    = config.elements (config.arrays single_world) config.default_slice.
Proof.
  apply (X26_remove_only_rule doubling always_written single_world single_manager _
           eq_refl single_sound eq_refl).
  discriminate.
Defined.

(** ** Comparing the files of an item *)

Section CompareFilesExtras.

Context `{RegexpEngine} `{Host} `{DiffMatchPatch}.

Variable c : Comparer.
Variable fs : FileSystem.

(** X27. What [Compare] reports and what [CompareFiles] can show fit
    together: for every "modified" item of a result, [CompareFiles] on
    the path and the source of the item succeeds and compares two
    texts that differ; for every "added" item it fails, the archive
    having no such entry. *)
Theorem X27_items_and_their_diffs z workFiles dirs :
  NewZipReader (zipPath c) = Ok z →
  getAllFilesAndDirs (workDir c) = (workFiles, dirs, true) →
  ∃ res calls, Compare c fs = (Ok res, calls) ∧
    ∀ it, it ∈ Items res →
      (item_Type it = "modified" →
         ∃ oldText newText,
           CompareFiles z (RelPath it) (SourcePath it) fs
             = Some (CompareTexts oldText newText) ∧
           oldText ≠ newText) ∧
      (item_Type it = "added" →
         CompareFiles z (RelPath it) (SourcePath it) fs = None).
Proof.
  intros Hz Hw. eexists _, _. split; [by apply (Compare_ok c fs z workFiles dirs)|].
  destruct (compare_listings_spec c fs (ListFiles z) workFiles) as [-> _].
  intros it [Hit|Hit]%elem_of_app.
  - apply list_elem_of_In, in_flat_map in Hit as ([p zf] & Hin & Hit).
    apply list_elem_of_In, range_lookup in Hin. apply list_elem_of_In in Hit.
    unfold archive_entry_items in Hit. simpl in Hit.
    destruct (shouldExclude c p false) eqn:Hex; [by apply elem_of_nil in Hit|].
    destruct (workFiles !! p) as [w|] eqn:Hwf.
    + unfold getZipFileHash, fileHash in Hit.
      destruct (entry_Data zf) as [old|] eqn:Hold; [|by apply elem_of_nil in Hit].
      destruct (fs !! w) as [new|] eqn:Hnew; [|by apply elem_of_nil in Hit].
      simpl in Hit.
      destruct (String.eqb_spec (md5_Sum old) (md5_Sum new)) as [|Hne];
        [by apply elem_of_nil in Hit|].
      apply list_elem_of_singleton in Hit as ->. simpl. split; [|done].
      intros _. exists old, new. split; [|by intros ->].
      unfold CompareFiles, ReadFileContent. by rewrite Hin, Hold, Hnew.
    + apply list_elem_of_singleton in Hit as ->. simpl. split; done.
  - apply list_elem_of_In, in_flat_map in Hit as ([p w] & Hin & Hit).
    apply list_elem_of_In, range_lookup in Hin. apply list_elem_of_In in Hit.
    unfold work_entry_items in Hit. simpl in Hit.
    destruct (shouldExclude c p false) eqn:Hex; [by apply elem_of_nil in Hit|].
    destruct (ListFiles z !! p) eqn:Hzf; [by apply elem_of_nil in Hit|].
    apply list_elem_of_singleton in Hit as ->. simpl. split; [done|].
    intros _. unfold CompareFiles, ReadFileContent. by rewrite Hzf.
Qed.

End CompareFilesExtras.

Lemma X27_items_and_their_diffs_witness :
  ∃ res, (Compare demo_comparer demo_fs).1 = Ok res ∧
    ∀ it, it ∈ Items res → item_Type it = "added" →
      CompareFiles (H := plain_differ) demo_reader (RelPath it) (SourcePath it) demo_fs = None.
Proof.
  destruct (X27_items_and_their_diffs (H1 := plain_differ) demo_comparer demo_fs demo_reader
              demo_workFiles demo_dirs demo_opens demo_walks) as (res & calls & Hrun & Hall).
  exists res. split; [by rewrite Hrun|].
  intros it Hit. by destruct (Hall it Hit) as [_ ?].
Defined.

Example CompareFiles_demo :
  CompareFiles (H := plain_differ) demo_reader "m.txt" "work/m.txt" demo_fs
    = Some (CompareTexts (H := plain_differ) "old" "new") ∧
  CompareFiles (H := plain_differ) demo_reader "c.txt" "work/c.txt" demo_fs = None ∧
  CompareFiles (H := plain_differ) demo_reader "locked.txt" "work/locked.txt" demo_fs = None.
Proof. repeat split; vm_compute; reflexivity. Qed.
